(** * Subtitle-to-flashcard pipeline: a shallow embedding and its properties

    The development follows [scripts/parseSubs.ts] (subtitle parser, card
    builder, timecode codec, tabular export) and [scripts/enrichCards.ts]
    (lexical enricher, translation resolver, translation cache), each with
    its command line and its run, and the episode identifier of
    [scripts/scaffoldEpisode.mjs].

    Conventions of the embedding:
    - a JavaScript string is the list of its UTF-16 code units ([list N]);
      regular expressions without the [u] flag, [trim], [split] and
      [parseInt] all work on code units, so nothing is lost;
    - [null] and [undefined] are both [None] wherever the source only tests
      [!= null], [??], [||] or truthiness;
    - a number is a double: an integer stands for the double nearest to it,
      [parseInt] rounds what it reads to that double or to an infinity, and
      [String] prints the shortest digits that give the double back, in
      exponent form from 10^21 on; array positions, lengths and millisecond
      sums stay far below 2^53 and are plain [Z];
    - [console.warn] and [console.log] lines are collected in a list;
    - the morphological analyser and the translation service are
      parameters of the functions that call them. *)

From Stdlib Require Import ZArith NArith List Bool Ascii String Lia.
From stdpp Require Import base option list gmap pretty.

Open Scope N_scope.

(** ** JavaScript strings *)

Abbreviation jsstring := (list N) (only parsing).

Module JS.

(** Source literals are written in UTF-8; [utf8_units] decodes the bytes into
    UTF-16 code units (a code point above the basic plane becomes a surrogate
    pair). *)
Fixpoint utf8_units (bs : list N) : jsstring :=
  match bs with
  | [] => []
  | b :: r =>
      if b <? 128 then b :: utf8_units r
      else if b <? 224 then
        match r with
        | c1 :: r1 => ((b - 192) * 64 + (c1 - 128)) :: utf8_units r1
        | [] => [b]
        end
      else if b <? 240 then
        match r with
        | c1 :: c2 :: r2 =>
            ((b - 224) * 4096 + (c1 - 128) * 64 + (c2 - 128)) :: utf8_units r2
        | _ => [b]
        end
      else
        match r with
        | c1 :: c2 :: c3 :: r3 =>
            let cp := (b - 240) * 262144 + (c1 - 128) * 4096
                      + (c2 - 128) * 64 + (c3 - 128) in
            (55296 + (cp - 65536) / 1024) :: (56320 + (cp - 65536) mod 1024)
              :: utf8_units r3
        | _ => [b]
        end
  end.

Definition lit (s : string) : jsstring :=
  utf8_units (map N_of_ascii (list_ascii_of_string s)).

(** Code units of text that is known to be ASCII (digits and signs). *)
Definition units (s : string) : jsstring :=
  map N_of_ascii (list_ascii_of_string s).

Definition TAB : N := 9.
Definition LF : N := 10.
Definition CR : N := 13.
Definition SP : N := 32.
Definition BOM : N := 65279.

(** WhiteSpace and LineTerminator code points of ECMAScript: what
    [String.prototype.trim] and the prefix skipping of [parseInt] remove. *)
Definition isWhiteSpace (c : N) : bool :=
  ((9 <=? c) && (c <=? 13)) || (c =? 32) || (c =? 160) || (c =? 5760)
  || ((8192 <=? c) && (c <=? 8202)) || (c =? 8232) || (c =? 8233)
  || (c =? 8239) || (c =? 8287) || (c =? 12288) || (c =? 65279).

Fixpoint trimStart (s : jsstring) : jsstring :=
  match s with
  | [] => []
  | c :: r => if isWhiteSpace c then trimStart r else s
  end.

Definition trimEnd (s : jsstring) : jsstring := rev (trimStart (rev s)).

Definition trim (s : jsstring) : jsstring := trimEnd (trimStart s).

(** [s.length > 0], also the truthiness of a string. *)
Definition nonEmpty (s : jsstring) : bool :=
  match s with [] => false | _ :: _ => true end.

(** [s.replace(/c/g, '')] for a single code unit [c]. *)
Definition removeAll (c : N) (s : jsstring) : jsstring :=
  List.filter (fun d => negb (d =? c)) s.

(** [s.replace(/\t/g, ' ')]. *)
Definition replaceTabs (s : jsstring) : jsstring :=
  map (fun c => if c =? TAB then SP else c) s.

(** [s.replace(/\r?\n/g, by)]: scanning from the left, a line feed, with the
    carriage return right before it when there is one, becomes [by]. *)
Fixpoint replaceLineBreaks (by_ : jsstring) (s : jsstring) : jsstring :=
  match s with
  | [] => []
  | c :: r =>
      if c =? LF then by_ ++ replaceLineBreaks by_ r
      else if c =? CR then
        match r with
        | d :: r' =>
            if d =? LF then by_ ++ replaceLineBreaks by_ r'
            else c :: replaceLineBreaks by_ r
        | [] => [c]
        end
      else c :: replaceLineBreaks by_ r
  end.

(** [s.replace(/\r\n/g, '\n')]. *)
Fixpoint replaceCRLF (s : jsstring) : jsstring :=
  match s with
  | [] => []
  | c :: r =>
      if c =? CR then
        match r with
        | d :: r' =>
            if d =? LF then LF :: replaceCRLF r' else c :: replaceCRLF r
        | [] => [c]
        end
      else c :: replaceCRLF r
  end.

(** [s.split(c)] for a separator of one code unit: never an empty array. *)
Fixpoint splitChar (c : N) (s : jsstring) : list jsstring :=
  match s with
  | [] => [[]]
  | d :: r =>
      if d =? c then [] :: splitChar c r
      else match splitChar c r with
           | p :: ps => (d :: p) :: ps
           | [] => [[d]]
           end
  end.

Fixpoint startsWith (p s : jsstring) : bool :=
  match p, s with
  | [], _ => true
  | _ :: _, [] => false
  | a :: p', b :: s' => (a =? b) && startsWith p' s'
  end.

(** [s.includes(p)]. *)
Fixpoint includes (p s : jsstring) : bool :=
  startsWith p s ||
  match s with
  | [] => false
  | _ :: r => includes p r
  end.

(** [s.split(sep)] for a non-empty separator string. [skip] counts the code
    units of a separator occurrence that are still to be passed over. *)
Fixpoint splitStrFrom (sep : jsstring) (skip : nat) (s : jsstring)
  : list jsstring :=
  match s with
  | [] => [[]]
  | d :: r =>
      match skip with
      | S k => splitStrFrom sep k r
      | O =>
          if startsWith sep s
          then [] :: splitStrFrom sep (length sep - 1) r
          else match splitStrFrom sep 0 r with
               | p :: ps => (d :: p) :: ps
               | [] => [[d]]
               end
      end
  end.

Definition splitStr (sep s : jsstring) : list jsstring := splitStrFrom sep 0 s.

(** [s.split(/\n{2,}/)]: the pieces between maximal runs of at least two
    line feeds. [inrun] is set while such a run is being passed over; [cur]
    holds the current piece, last code unit first. *)
Fixpoint splitNewlineRunsFrom (inrun : bool) (cur : jsstring) (s : jsstring)
  : list jsstring :=
  match s with
  | [] => [rev cur]
  | c :: r =>
      if c =? LF then
        if inrun then splitNewlineRunsFrom true cur r
        else match r with
             | d :: _ =>
                 if d =? LF then rev cur :: splitNewlineRunsFrom true [] r
                 else splitNewlineRunsFrom false (c :: cur) r
             | [] => splitNewlineRunsFrom false (c :: cur) r
             end
      else splitNewlineRunsFrom false (c :: cur) r
  end.

Definition splitNewlineRuns (s : jsstring) : list jsstring :=
  splitNewlineRunsFrom false [] s.

(** [parts.join(sep)]. *)
Fixpoint join (sep : jsstring) (parts : list jsstring) : jsstring :=
  match parts with
  | [] => []
  | [p] => p
  | p :: ps => p ++ sep ++ join sep ps
  end.

(** [array.findIndex(pred)], [None] for [-1]. *)
Fixpoint findIndex {A} (pred : A -> bool) (l : list A) : option nat :=
  match l with
  | [] => None
  | x :: r => if pred x then Some O else S <$> findIndex pred r
  end.

Definition isDigit (c : N) : bool := (48 <=? c) && (c <=? 57).

(** Value of a string of decimal digits, most significant first. *)
Definition digitsValue (ds : jsstring) : Z :=
  fold_left (fun acc c => (acc * 10 + Z.of_N (c - 48))%Z) ds 0%Z.

Fixpoint takeDigits (s : jsstring) : jsstring :=
  match s with
  | [] => []
  | c :: r => if isDigit c then c :: takeDigits r else []
  end.

(** The decimal digits of an integer, [-] for negatives: [String(n)] of an
    integer below 2^53. *)
Definition stringOfInt (z : Z) : jsstring := units (pretty z).

(** *** Numbers *)

(** A JavaScript number. [Int z] is the number the integer [z] denotes, that
    is the double nearest to [z] (an infinity when [z] is beyond the largest
    double); with [z = 0] it also stands for [-0], which prints and compares
    as [0]. [Frac negative whole digits] is the non-integer whose shortest
    decimal form is [whole.digits] (the form [String] prints for magnitudes
    between 1e-6 and 2^53). *)
Inductive number :=
| Int (z : Z)
| Frac (negative : bool) (whole : N) (digits : jsstring)
| Infinity (negative : bool)
| NaN.

(** The double nearest to the integer [z], ties to the even significand, as
    the integer it is; [None] when rounding leaves the range of the finite
    doubles. Below 2^53 every integer is a double; from there on a double
    keeps the 53 leading bits. *)
Definition nearestDouble (z : Z) : option Z :=
  let a := Z.abs z in
  if (a <? 2 ^ 53)%Z then Some z
  else
    let e := (Z.log2 a - 52)%Z in
    let q := Z.shiftr a e in
    let r := (a - Z.shiftl q e)%Z in
    let half := Z.shiftl 1 (e - 1) in
    let q' := if (half <? r)%Z || ((r =? half)%Z && Z.odd q)
              then (q + 1)%Z else q in
    let v := Z.shiftl q' e in
    if (2 ^ 1024 <=? v)%Z then None else Some (Z.sgn z * v)%Z.

(** The number an integer computed exactly becomes. *)
Definition fromInteger (z : Z) : number :=
  match nearestDouble z with
  | Some d => Int d
  | None => Infinity (z <? 0)%Z
  end.

(** [Number.isFinite(n)]. *)
Definition isFinite (n : number) : bool :=
  match n with
  | Int z => bool_decide (is_Some (nearestDouble z))
  | Frac _ _ _ => true
  | Infinity _ | NaN => false
  end.

(** The decimal [String] prints for the double [d > 0] that is an integer:
    of the multiples of a power of ten that [d] is the nearest double of,
    one with the fewest significant digits; of two such, the one closer to
    [d], and the one with the even last digit when they are as close. [p]
    is the power of ten tried first. *)
Fixpoint shortestFrom (p : nat) (d : Z) : Z :=
  match p with
  | O => d
  | S p' =>
      let unit := (10 ^ Z.of_nat p)%Z in
      let lo := (d / unit * unit)%Z in
      let hi := (lo + unit)%Z in
      let okLo := bool_decide (nearestDouble lo = Some d) in
      let okHi := bool_decide (nearestDouble hi = Some d) in
      if okLo && okHi then
        if (d - lo <? hi - d)%Z then lo
        else if (hi - d <? d - lo)%Z then hi
        else if Z.even (lo / unit) then lo else hi
      else if okLo then lo
      else if okHi then hi
      else shortestFrom p' d
  end.

Fixpoint dropZeros (s : jsstring) : jsstring :=
  match s with
  | c :: r => if c =? 48 then dropZeros r else s
  | [] => []
  end.

(** [String(d)] for a double [d >= 0] that is an integer: the digits of the
    shortest decimal, written out below 10^21 and as [d.ddde+n] from there
    on. *)
Definition stringOfDouble (d : Z) : jsstring :=
  let shortest := shortestFrom (length (stringOfInt d) - 1) d in
  let rounded := stringOfInt shortest in
  if (shortest <? 10 ^ 21)%Z then rounded
  else
    let exponent := lit "e+" ++ stringOfInt (Z.of_nat (length rounded - 1)) in
    match rev (dropZeros (rev rounded)) with
    | [] => rounded
    | [d1] => d1 :: exponent
    | d1 :: rest => d1 :: lit "." ++ rest ++ exponent
    end.

(** [String(n)]. *)
Definition stringOfNumber (n : number) : jsstring :=
  match n with
  | Int z =>
      match nearestDouble z with
      | Some d =>
          (if (d <? 0)%Z then lit "-" else []) ++ stringOfDouble (Z.abs d)
      | None => (if (z <? 0)%Z then lit "-" else []) ++ lit "Infinity"
      end
  | Frac negative whole digits =>
      (if negative then lit "-" else []) ++ stringOfInt (Z.of_N whole)
      ++ lit "." ++ digits
  | Infinity negative => (if negative then lit "-" else []) ++ lit "Infinity"
  | NaN => lit "NaN"
  end.

(** [Number.parseInt(s, 10)]: leading white space is skipped, one sign is
    read, then the longest run of decimal digits; without a digit the result
    is [NaN], else the integer read, rounded to its double. Radix 10 strips
    no [0x] prefix. *)
Definition parseInt (s : jsstring) : number :=
  let t := trimStart s in
  let '(negative, body) :=
    match t with
    | c :: r => if c =? 45 then (true, r)
                else if c =? 43 then (false, r) else (false, t)
    | [] => (false, t)
    end in
  match takeDigits body with
  | [] => NaN
  | ds => fromInteger (if negative then - digitsValue ds else digitsValue ds)%Z
  end.

End JS.

Import JS.


(** ** [scripts/parseSubs.ts] *)

Module ParseSubs.

Record SubtitleEntry := {
  index : Z;
  rawId : Z;
  start : option jsstring;
  end_ : option jsstring;
  startMs : option Z;
  endMs : option Z;
  text : jsstring;
}.

(** The last two fields are [startMs] and [endMs] in the source; the names
    are taken by [SubtitleEntry] here. *)
Record Card := {
  id : Z;
  subtitleId : Z;
  sentence : jsstring;
  translation : jsstring;
  romaji : jsstring;
  furigana : jsstring;
  startTime : option jsstring;
  endTime : option jsstring;
  cardStartMs : option Z;
  cardEndMs : option Z;
}.

Definition COLON : N := 58.
Definition COMMA : N := 44.
Definition ARROW : jsstring := Eval cbv in lit "-->".

(** The regular expression [(\d{2}):(\d{2}):(\d{2}),(\d{3})] tried at the
    start of [s]; the four captures on success. *)
Definition timecodeAt (s : jsstring)
  : option (jsstring * jsstring * jsstring * jsstring) :=
  match s with
  | h1 :: h2 :: c1 :: m1 :: m2 :: c2 :: s1 :: s2 :: c3 :: f1 :: f2 :: f3 :: _ =>
      if forallb isDigit [h1; h2; m1; m2; s1; s2; f1; f2; f3]
         && (c1 =? COLON) && (c2 =? COLON) && (c3 =? COMMA)
      then Some ([h1; h2], [m1; m2], [s1; s2], [f1; f2; f3])
      else None
  | _ => None
  end.

(** [timecode.match(re)]: the expression is not anchored, so the leftmost
    position where it applies is the match. *)
Fixpoint matchTimecode (s : jsstring)
  : option (jsstring * jsstring * jsstring * jsstring) :=
  match s with
  | [] => None
  | _ :: r =>
      match timecodeAt s with
      | Some m => Some m
      | None => matchTimecode r
      end
  end.

Definition timecodeToMs (timecode : option jsstring) : option Z :=
  match timecode with
  | None => None
  | Some [] => None
  | Some tc =>
      match matchTimecode tc with
      | None => None
      | Some (hh, mm, ss, ms) =>
          Some (digitsValue hh * 3600 * 1000
                + digitsValue mm * 60 * 1000
                + digitsValue ss * 1000
                + digitsValue ms)%Z
      end
  end.

(** One turn of the [for (const block of blocks)] loop of [parseSrt]; the
    result is the array [entries] after the turn. *)
Definition parseBlock (entries : list SubtitleEntry) (block : jsstring)
  : list SubtitleEntry :=
  let lines := splitChar LF block in
  match findIndex (fun line => nonEmpty (trim line)) lines with
  | None => entries
  | Some meaningfulStart =>
      let maybeId := parseInt (trim (nth meaningfulStart lines [])) in
      let '(rawId, cursor) :=
        match maybeId with
        | Int n =>
            if isFinite maybeId then (n, S meaningfulStart)
            else ((Z.of_nat (length entries) + 1)%Z, meaningfulStart)
        | _ => ((Z.of_nat (length entries) + 1)%Z, meaningfulStart)
        end in
      let '(start, end_, cursor) :=
        match lines !! cursor with
        | Some line =>
            if includes ARROW line then
              let parts := map trim (splitStr ARROW line) in
              (parts !! 0%nat, parts !! 1%nat, S cursor)
            else (None, None, cursor)
        | None => (None, None, cursor)
        end in
      let textLines :=
        List.filter nonEmpty
          (map (fun line => trim (removeAll CR line)) (drop cursor lines)) in
      match textLines with
      | [] => entries
      | _ :: _ =>
          entries ++
          [ {| index := (Z.of_nat (length entries) + 1)%Z;
               rawId := rawId;
               start := start;
               end_ := end_;
               startMs := timecodeToMs start;
               endMs := timecodeToMs end_;
               text := join [SP] textLines |} ]
      end
  end.

Definition splitBlocks (content : jsstring) : list jsstring :=
  let normalized := removeAll BOM (replaceCRLF content) in
  splitNewlineRuns normalized.

Definition parseSrt (content : jsstring) : list SubtitleEntry :=
  fold_left parseBlock (splitBlocks content) [].

(** [subtitles.map((entry, idx) => ...)], [idx] counting from [from]. *)
Fixpoint buildCardsFrom (from : nat) (subtitles : list SubtitleEntry)
  : list Card :=
  match subtitles with
  | [] => []
  | entry :: rest =>
      {| id := (Z.of_nat from + 1)%Z;
         subtitleId := rawId entry;
         sentence := text entry;
         translation := [];
         romaji := [];
         furigana := [];
         startTime := start entry;
         endTime := end_ entry;
         cardStartMs := startMs entry;
         cardEndMs := endMs entry |} :: buildCardsFrom (S from) rest
  end.

Definition buildCards (subtitles : list SubtitleEntry) : list Card :=
  buildCardsFrom 0 subtitles.

(** [clean]: the same function closes both scripts. *)
Definition clean (value : option jsstring) : jsstring :=
  trim (replaceLineBreaks [SP] (replaceTabs (default [] value))).

Definition cardsToTsv (cards : list Card) : jsstring :=
  join [LF]
    (map (fun card => clean (Some (sentence card)) ++ [TAB]
                      ++ clean (Some (translation card))) cards).

End ParseSubs.

(** ** JSON values, as [JSON.parse] hands them to the scripts *)

Module Json.

Set Warnings "-register-all".

(** The fields of an object are listed in the order [Object.entries] and the
    spread operator visit them. *)
Inductive json :=
| JNull
| JBool (b : bool)
| JNumber (n : number)
| JString (s : jsstring)
| JArray (items : list json)
| JObject (fields : list (jsstring * json)).

(** [String(value)]. *)
Fixpoint toString (v : json) : jsstring :=
  match v with
  | JNull => lit "null"
  | JBool b => if b then lit "true" else lit "false"
  | JNumber n => stringOfNumber n
  | JString s => s
  | JArray items =>
      join (lit ",")
        (map (fun item => match item with
                          | JNull => []
                          | _ => toString item
                          end) items)
  | JObject _ => lit "[object Object]"
  end.

(** [obj[key]], [None] for [undefined]. *)
Fixpoint getField (key : jsstring) (fields : list (jsstring * json))
  : option json :=
  match fields with
  | [] => None
  | (k, v) :: rest => if bool_decide (k = key) then Some v else getField key rest
  end.

(** [obj[key] = v]: an existing property keeps its place. *)
Fixpoint setField (key : jsstring) (v : json) (fields : list (jsstring * json))
  : list (jsstring * json) :=
  match fields with
  | [] => [(key, v)]
  | (k, w) :: rest =>
      if bool_decide (k = key) then (k, v) :: rest
      else (k, w) :: setField key v rest
  end.

(** The own enumerable properties a spread [...value] copies. *)
Definition spreadFields (value : json) : list (jsstring * json) :=
  match value with
  | JObject fields => fields
  | JArray items =>
      imap (fun i item => (stringOfInt (Z.of_nat i), item)) items
  | _ => []
  end.

End Json.

Import Json.

(** ** [scripts/enrichCards.ts]: data *)

Module Enrich.

(** The features of one token as the morphological analyser reports them. *)
Record IpadicFeatures := {
  surface_form : jsstring;
  pos : jsstring;
  pos_detail_1 : jsstring;
  pos_detail_2 : jsstring;
  pos_detail_3 : jsstring;
  basic_form : jsstring;
  reading : option jsstring;
}.

Definition KuromojiTokenizer := jsstring -> list IpadicFeatures.

Record DictionaryEntry := {
  entryLemma : jsstring;
  entryReading : option jsstring;
  entryPos : option jsstring;
  entryMeanings : option (list jsstring);
}.

Record TokenBreakdown := {
  surface : jsstring;
  lemma : jsstring;
  tokenReading : option jsstring;
  tokenPos : jsstring;
  meanings : option (list jsstring);
}.

(** [extra] holds the properties the index signature allows beside the
    declared ones. *)
Record CardRecord := {
  id : number;
  subtitleId : option number;
  sentence : option jsstring;
  translation : option jsstring;
  romaji : option jsstring;
  furigana : option jsstring;
  startTime : option jsstring;
  endTime : option jsstring;
  startMs : option number;
  endMs : option number;
  tokens : option (list TokenBreakdown);
  extra : list (jsstring * json);
}.

(** [number | string], the type of a normalized identifier. *)
Inductive idValue :=
| IdNumber (n : number)
| IdString (s : jsstring).

Definition stringOfId (v : idValue) : jsstring :=
  match v with
  | IdNumber n => stringOfNumber n
  | IdString s => s
  end.

Record TranslationEntry := {
  entryId : option idValue;
  entrySubtitleId : option idValue;
  entrySentence : option jsstring;
  entryTranslation : jsstring;
}.

Record TranslationState := {
  byId : gmap jsstring jsstring;
  bySubtitleId : gmap jsstring jsstring;
  bySentence : gmap jsstring jsstring;
  addedEntries : list TranslationEntry;
  initialEntries : list TranslationEntry;
  sourcePath : option jsstring;
}.

Record CliOptions := {
  inputPath : jsstring;
  dictPath : jsstring;
  translationPath : option jsstring;
  translationSavePath : option jsstring;
  outputJsonPath : jsstring;
  tsvPath : jsstring;
  writeTsv : bool;
  autoTranslate : bool;
  autoTranslateReplace : bool;
  deeplFormality : jsstring;
  deeplGlossaryId : option jsstring;
}.

(** What a call of the translator leaves behind: the text, or [None] for
    [null], and the lines it wrote with [console.warn]. *)
Definition TranslatorFn := CardRecord -> option jsstring * list jsstring.

Definition POS_MAP : list (jsstring * jsstring) :=
  [ (lit "名詞", lit "noun");
    (lit "動詞", lit "verb");
    (lit "形容詞", lit "adjective");
    (lit "副詞", lit "adverb");
    (lit "助詞", lit "particle");
    (lit "助動詞", lit "auxiliary-verb");
    (lit "記号", lit "symbol");
    (lit "連体詞", lit "prenoun-adjectival");
    (lit "感動詞", lit "interjection");
    (lit "接続詞", lit "conjunction");
    (lit "接頭詞", lit "prefix");
    (lit "その他", lit "other");
    (lit "フィラー", lit "filler");
    (lit "一般", lit "general");
    (lit "固有名詞", lit "proper-noun");
    (lit "サ変接続", lit "suru-verb");
    (lit "自立", lit "independent");
    (lit "非自立", lit "non-independent");
    (lit "形容動詞語幹", lit "na-adj-stem");
    (lit "数", lit "number");
    (lit "助数詞", lit "counter");
    (lit "係助詞", lit "binding-particle");
    (lit "格助詞", lit "case-particle");
    (lit "副助詞", lit "adverbial-particle");
    (lit "並立助詞", lit "parallel-particle");
    (lit "終助詞", lit "sentence-ending-particle");
    (lit "連体化", lit "attributive");
    (lit "接続助詞", lit "conjunctive-particle");
    (lit "感動詞語幹", lit "interjection-stem");
    (lit "括弧開", lit "open-bracket");
    (lit "括弧閉", lit "close-bracket");
    (lit "句点", lit "period");
    (lit "読点", lit "comma");
    (lit "空白", lit "whitespace");
    (lit "記号一般", lit "symbol-general");
    (lit "代名詞", lit "pronoun");
    (lit "副詞可能", lit "adverbial");
    (lit "連語", lit "expression");
    (lit "語幹", lit "stem");
    (lit "テ形", lit "te-form");
    (lit "タ形", lit "ta-form") ].

(** [POS_MAP[key]] for the table's own keys (names inherited from
    [Object.prototype] are no part-of-speech tags and are left out). *)
(** [POS_MAP] is an object literal, so [POS_MAP[key]] also finds what it
    inherits from [Object.prototype]: eleven functions and, under
    [__proto__], the prototype itself. A label made of one is joined as the
    text [String] gives it on Node. *)
Definition nativeCode (name : string) : jsstring :=
  lit "function " ++ lit name ++ lit "() { [native code] }".

Definition OBJECT_PROTOTYPE : list (jsstring * jsstring) :=
  [ (lit "constructor", nativeCode "Object");
    (lit "__defineGetter__", nativeCode "__defineGetter__");
    (lit "__defineSetter__", nativeCode "__defineSetter__");
    (lit "hasOwnProperty", nativeCode "hasOwnProperty");
    (lit "__lookupGetter__", nativeCode "__lookupGetter__");
    (lit "__lookupSetter__", nativeCode "__lookupSetter__");
    (lit "isPrototypeOf", nativeCode "isPrototypeOf");
    (lit "propertyIsEnumerable", nativeCode "propertyIsEnumerable");
    (lit "toString", nativeCode "toString");
    (lit "valueOf", nativeCode "valueOf");
    (lit "__proto__", lit "[object Object]");
    (lit "toLocaleString", nativeCode "toLocaleString") ].

(** [table[key]], [None] for [undefined]. *)
Fixpoint lookupPos (key : jsstring) (table : list (jsstring * jsstring))
  : option jsstring :=
  match table with
  | [] => None
  | (k, v) :: rest => if bool_decide (k = key) then Some v else lookupPos key rest
  end.

Definition STAR : jsstring := Eval cbv in lit "*".
Definition FULLWIDTH_SLASH : N := 65295.

(** ** Lexical enricher *)

Definition katakanaToHiragana (text : jsstring) : jsstring :=
  map (fun c => if (12449 <=? c) && (c <=? 12534) then c - 96 else c) text.

Definition translatePosPart (part : jsstring) : option jsstring :=
  if negb (nonEmpty part) || bool_decide (part = STAR) then None
  else Some (join (lit "/")
               (map (fun segment =>
                       let trimmed := trim segment in
                       default trimmed
                         (lookupPos trimmed (POS_MAP ++ OBJECT_PROTOTYPE)))
                    (splitChar FULLWIDTH_SLASH part))).

Definition buildPosLabel (token : IpadicFeatures) : jsstring :=
  join (lit "-")
    (List.filter nonEmpty
       (omap translatePosPart
          [pos token; pos_detail_1 token; pos_detail_2 token;
           pos_detail_3 token])).

Definition normalizeToken (token : IpadicFeatures)
    (dictionary : gmap jsstring DictionaryEntry) : TokenBreakdown :=
  let lemma :=
    if nonEmpty (basic_form token) && negb (bool_decide (basic_form token = STAR))
    then basic_form token else surface_form token in
  let dictEntry := dictionary !! lemma in
  {| surface := surface_form token;
     lemma := lemma;
     tokenReading :=
       match reading token with
       | Some r =>
           if nonEmpty r && negb (bool_decide (r = STAR))
           then Some (katakanaToHiragana r) else None
       | None => None
       end;
     tokenPos := buildPosLabel token;
     meanings := dictEntry ≫= entryMeanings |}.

Definition buildLiteralTranslation (tokens : list TokenBreakdown) : jsstring :=
  match tokens with
  | [] => []
  | _ :: _ =>
      join [SP]
        (map (fun token =>
                match meanings token with
                | Some (m :: _) => if nonEmpty m then m else surface token
                | _ => surface token
                end) tokens)
  end.

(** [new Map(entries.map((entry) => [entry.lemma, entry]))]; [None] is a
    dictionary file that does not exist. *)
Definition loadDictionary (dictPath : jsstring)
    (file : option (list DictionaryEntry))
  : gmap jsstring DictionaryEntry * list jsstring :=
  match file with
  | None =>
      (∅, [lit "Dictionary file not found at " ++ dictPath
             ++ lit ". Meanings will be omitted."])
  | Some entries =>
      (fold_left (fun m entry => <[entryLemma entry := entry]> m) entries ∅, [])
  end.

(** ** Translation hints *)

Definition emptyState (path : option jsstring) : TranslationState :=
  {| byId := ∅; bySubtitleId := ∅; bySentence := ∅;
     addedEntries := []; initialEntries := []; sourcePath := path |}.

Definition normalizeNumeric (value : json) : idValue :=
  let viaParseInt :=
    match parseInt (toString value) with
    | NaN => IdString (toString value)
    | parsed => IdNumber parsed
    end in
  match value with
  | JNumber n => if isFinite n then IdNumber n else viaParseInt
  | _ => viaParseInt
  end.

(** [maybe.id === null || maybe.id === undefined || maybe.id === ''
      ? null : normalizeNumeric(maybe.id)], and the same for [subtitleId]. *)
Definition normalizeKey (field : option json) : option idValue :=
  match field with
  | None | Some JNull | Some (JString []) => None
  | Some value => Some (normalizeNumeric value)
  end.

Definition sanitizeTranslationEntry (entry : json) : option TranslationEntry :=
  match entry with
  | JObject maybe =>
      match getField (lit "translation") maybe with
      | Some (JString raw) =>
          let translation := trim raw in
          if nonEmpty translation then
            Some {| entryId := normalizeKey (getField (lit "id") maybe);
                    entrySubtitleId :=
                      normalizeKey (getField (lit "subtitleId") maybe);
                    entrySentence :=
                      match getField (lit "sentence") maybe with
                      | Some (JString s) =>
                          if nonEmpty (trim s) then Some (trim s) else None
                      | _ => None
                      end;
                    entryTranslation := translation |}
          else None
      | _ => None
      end
  | _ => None
  end.

(** The closure [registerEntry] of [loadTranslationHints], on the four
    collections it captures. *)
Definition registerEntry (st : TranslationState) (entryLike : json)
  : TranslationState :=
  match sanitizeTranslationEntry entryLike with
  | None => st
  | Some safeEntry =>
      {| byId :=
           match entryId safeEntry with
           | Some i => <[stringOfId i := entryTranslation safeEntry]> (byId st)
           | None => byId st
           end;
         bySubtitleId :=
           match entrySubtitleId safeEntry with
           | Some i =>
               <[stringOfId i := entryTranslation safeEntry]> (bySubtitleId st)
           | None => bySubtitleId st
           end;
         bySentence :=
           match entrySentence safeEntry with
           | Some (c :: s) =>
               <[c :: s := entryTranslation safeEntry]> (bySentence st)
           | _ => bySentence st
           end;
         addedEntries := addedEntries st;
         initialEntries := initialEntries st ++ [safeEntry];
         sourcePath := sourcePath st |}
  end.

(** [{ id: key, ...value }]. *)
Definition withIdKey (key : jsstring) (value : json) : json :=
  JObject (fold_left (fun obj kv => setField kv.1 kv.2 obj)
             (spreadFields value) [(lit "id", JString key)]).

(** [file] is the parsed content of the hint file, [None] when the file does
    not exist. *)
Definition loadTranslationHints (path : option jsstring) (file : option json)
  : TranslationState * list jsstring :=
  match path with
  | None => (emptyState None, [])
  | Some p =>
      match file with
      | None =>
          (emptyState path,
           [lit "Translation hint file not found at " ++ p
              ++ lit ". Skipping translations."])
      | Some raw =>
          (match raw with
           | JArray items => fold_left registerEntry items (emptyState path)
           | JObject fields =>
               fold_left
                 (fun st kv =>
                    match kv.2 with
                    | JString value =>
                        registerEntry st
                          (JObject [(lit "id", JString kv.1);
                                    (lit "translation", JString value)])
                    | JObject _ | JArray _ =>
                        registerEntry st (withIdKey kv.1 kv.2)
                    | _ => st
                    end) fields (emptyState path)
           | _ => emptyState path
           end, [])
      end
  end.

(** ** Translation resolver *)

Definition pickTranslation (card : CardRecord) (translations : TranslationState)
  : option jsstring :=
  match byId translations !! stringOfNumber (id card) with
  | Some t => Some t
  | None =>
      match subtitleId card ≫= (fun sid =>
              bySubtitleId translations !! stringOfNumber sid) with
      | Some t => Some t
      | None =>
          let normalizedSentence := trim (default [] (sentence card)) in
          if nonEmpty normalizedSentence
          then bySentence translations !! normalizedSentence
          else None
      end
  end.

Definition optJson {A} (f : A -> json) (o : option A) : json :=
  match o with Some a => f a | None => JNull end.

Definition registerGeneratedTranslation (translations : TranslationState)
    (card : CardRecord) (translation : jsstring) : TranslationState :=
  let normalizedSentence :=
    match trim (default [] (sentence card)) with
    | [] => None
    | s => Some s
    end in
  let entry :=
    sanitizeTranslationEntry
      (JObject [(lit "id", JNumber (id card));
                (lit "subtitleId", optJson JNumber (subtitleId card));
                (lit "sentence", optJson JString normalizedSentence);
                (lit "translation", JString translation)]) in
  {| byId := <[stringOfNumber (id card) := translation]> (byId translations);
     bySubtitleId :=
       match subtitleId card with
       | Some sid =>
           <[stringOfNumber sid := translation]> (bySubtitleId translations)
       | None => bySubtitleId translations
       end;
     bySentence :=
       match normalizedSentence with
       | Some s => <[s := translation]> (bySentence translations)
       | None => bySentence translations
       end;
     addedEntries :=
       match entry with
       | Some e => addedEntries translations ++ [e]
       | None => addedEntries translations
       end;
     initialEntries := initialEntries translations;
     sourcePath := sourcePath translations |}.

Inductive TranslationSource := SrcHint | SrcCard | SrcLiteral | SrcDeepl.

(** Truthiness of a [string | null]. *)
Definition truthy (value : option jsstring) : bool :=
  match value with
  | Some (_ :: _) => true
  | _ => false
  end.

(** The local variables of [enrichCard] when it returns. [priorTranslation]
    and [priorSource] are [translation] and [translationSource] right before
    [shouldAutoTranslate] is computed. *)
Record Resolution := {
  breakdown : list TokenBreakdown;
  priorTranslation : jsstring;
  priorSource : TranslationSource;
  shouldAutoTranslate : bool;
  finalTranslation : jsstring;
  translationSource : TranslationSource;
  translationsAfter : TranslationState;
  warned : list jsstring;
}.

Definition isHint (source : TranslationSource) : bool :=
  match source with SrcHint => true | _ => false end.

Definition resolveCard (card : CardRecord) (tokenizer : KuromojiTokenizer)
    (dictionary : gmap jsstring DictionaryEntry)
    (translations : TranslationState) (translator : option TranslatorFn)
    (replace : bool) : Resolution :=
  let tokens := tokenizer (default [] (sentence card)) in
  let breakdown :=
    List.filter (fun token => nonEmpty (trim (surface token)))
      (map (fun token => normalizeToken token dictionary) tokens) in
  let translatorEnabled := bool_decide (is_Some translator) in
  let cardTranslation := trim (default [] (translation card)) in
  let picked := pickTranslation card translations in
  let '(translation, source) :=
    if truthy picked then (default [] picked, SrcHint)
    else if nonEmpty cardTranslation && (negb translatorEnabled || negb replace)
    then (cardTranslation, SrcCard)
    else (buildLiteralTranslation breakdown, SrcLiteral) in
  let should :=
    translatorEnabled
    && (negb (nonEmpty translation) || (replace && negb (isHint source))) in
  let unchanged warnings :=
    {| breakdown := breakdown;
       priorTranslation := translation; priorSource := source;
       shouldAutoTranslate := should;
       finalTranslation := translation; translationSource := source;
       translationsAfter := translations; warned := warnings |} in
  match (if should then translator else None) with
  | None => unchanged []
  | Some translate =>
      let '(generated, warnings) := translate card in
      match generated with
      | Some (c :: g) =>
          {| breakdown := breakdown;
             priorTranslation := translation; priorSource := source;
             shouldAutoTranslate := should;
             finalTranslation := c :: g; translationSource := SrcDeepl;
             translationsAfter :=
               registerGeneratedTranslation translations card (c :: g);
             warned := warnings |}
      | _ => unchanged warnings
      end
  end.

(** [enrichCard]: the returned card, the hint state after the call and the
    warnings written meanwhile. *)
Definition enrichCard (card : CardRecord) (tokenizer : KuromojiTokenizer)
    (dictionary : gmap jsstring DictionaryEntry)
    (translations : TranslationState) (translator : option TranslatorFn)
    (replace : bool) : CardRecord * TranslationState * list jsstring :=
  let r := resolveCard card tokenizer dictionary translations translator replace in
  ({| id := id card;
      subtitleId := subtitleId card;
      sentence := sentence card;
      translation := Some (finalTranslation r);
      romaji := romaji card;
      furigana := furigana card;
      startTime := startTime card;
      endTime := endTime card;
      startMs := startMs card;
      endMs := endMs card;
      tokens := Some (breakdown r);
      extra := extra card |},
   translationsAfter r, warned r).

(** ** Translation cache *)

(** [map.set(key, entry)] on a [Map] whose iteration order matters: a key
    already present keeps its position and takes the new value. *)
Fixpoint mapSet (key : jsstring) (entry : TranslationEntry)
    (m : list (jsstring * TranslationEntry)) : list (jsstring * TranslationEntry) :=
  match m with
  | [] => [(key, entry)]
  | (k, e) :: rest =>
      if bool_decide (k = key) then (k, entry) :: rest
      else (k, e) :: mapSet key entry rest
  end.

(** The key [put] computes for an entry, and [anonCounter] afterwards. *)
Definition entryKey (entry : TranslationEntry) (anonCounter : nat)
  : jsstring * nat :=
  match entrySubtitleId entry with
  | Some sid => (lit "subtitleId:" ++ stringOfId sid, anonCounter)
  | None =>
      match entryId entry with
      | Some i => (lit "id:" ++ stringOfId i, anonCounter)
      | None =>
          match entrySentence entry with
          | Some (c :: s) => (lit "sentence:" ++ c :: s, anonCounter)
          | _ =>
              (lit "anon:" ++ stringOfInt (Z.of_nat anonCounter),
               S anonCounter)
          end
      end
  end.

(** The closure [put], on the [map] and the [anonCounter] it captures. *)
Definition put (acc : list (jsstring * TranslationEntry) * nat)
    (entry : TranslationEntry) : list (jsstring * TranslationEntry) * nat :=
  let '(key, counter) := entryKey entry acc.2 in
  (mapSet key entry acc.1, counter).

Definition mergeTranslationEntries (existing additions : list TranslationEntry)
  : list TranslationEntry :=
  let afterExisting := fold_left put existing ([], O) in
  let afterAdditions := fold_left put additions afterExisting in
  map snd afterAdditions.1.

(** What is written to [outputPath], and the line logged. *)
Definition persistTranslations (translations : TranslationState)
    (outputPath : jsstring) : list TranslationEntry * jsstring :=
  let existing := initialEntries translations in
  let additions := addedEntries translations in
  let merged := mergeTranslationEntries existing additions in
  (merged,
   lit "Translation cache updated at " ++ outputPath ++ lit " (+"
   ++ stringOfInt (Z.of_nat (length additions)) ++ lit " new entries).").

(** ** The translation service *)

Inductive result (A : Type) :=
| Ok (value : A)
| Throw (message : jsstring).
Arguments Ok {A} value.
Arguments Throw {A} message.

Record TextResult := { resultText : option jsstring }.

Inductive DeepLResponse :=
| OneResult (r : option TextResult)
| ManyResults (rs : list TextResult).

(** [translator.translateText(sentence, 'ja', 'en-US', { formality, glossary })]:
    the service answers or the call is rejected with a message. *)
Definition TranslateText :=
  jsstring -> option jsstring -> option jsstring -> result DeepLResponse.

Definition normalizeDeepLFormality (value : jsstring) : jsstring :=
  if bool_decide (value = lit "more") then value
  else if bool_decide (value = lit "less") then value
  else if bool_decide (value = lit "default") then value
  else if bool_decide (value = lit "prefer_more") then lit "more"
  else if bool_decide (value = lit "prefer_less") then lit "less"
  else lit "default".

Definition createDeepLTranslator (authKey : option jsstring)
    (translateText : TranslateText)
    (formality : jsstring) (glossaryId : option jsstring)
  : result TranslatorFn :=
  match authKey with
  | None | Some [] =>
      Throw (lit "DEEPL_API_KEY environment variable is required for --deepl-translate.")
  | Some _ =>
      let normalizedFormality := normalizeDeepLFormality formality in
      Ok (fun card =>
            let sentence := trim (default [] (sentence card)) in
            if nonEmpty sentence then
              match translateText sentence
                      (if bool_decide (normalizedFormality = lit "default")
                       then None else Some normalizedFormality)
                      glossaryId with
              | Ok response =>
                  (match response with
                   | ManyResults rs => trim <$> (head rs ≫= resultText)
                   | OneResult r => trim <$> (r ≫= resultText)
                   end, [])
              | Throw message =>
                  (None,
                   [lit "DeepL translation failed for subtitle "
                    ++ stringOfNumber (default (id card) (subtitleId card))
                    ++ lit ": " ++ message])
              end
            else (None, []))
  end.

(** ** Export and the run *)

Definition clean (value : option jsstring) : jsstring :=
  trim (replaceLineBreaks [SP] (replaceTabs (default [] value))).

Definition cardsToTsv (cards : list CardRecord) : jsstring :=
  join [LF]
    (map (fun card => clean (sentence card) ++ [TAB] ++ clean (translation card))
       cards).

(** What the run finds outside: the analyser it builds, the three files it
    reads, the credential and the translation service. *)
Record Environment := {
  kuromojiBuild : result KuromojiTokenizer;
  dictionaryFile : option (list DictionaryEntry);
  translationFile : option json;
  cardsFile : result (list CardRecord);
  DEEPL_API_KEY : option jsstring;
  translateText : TranslateText;
}.

(** What a completed run wrote: each file with its path, and the console. *)
Record Outputs := {
  jsonWritten : jsstring * list CardRecord;
  tsvWritten : option (jsstring * jsstring);
  cacheWritten : option (jsstring * list TranslationEntry);
  console : list jsstring;
}.

(** One turn of the [for (const card of rawCards)] loop of [main]. *)
Definition enrichNext (tokenizer : KuromojiTokenizer)
    (dictionary : gmap jsstring DictionaryEntry)
    (translator : option TranslatorFn) (replace : bool)
    (acc : list CardRecord * TranslationState * list jsstring)
    (card : CardRecord) : list CardRecord * TranslationState * list jsstring :=
  let '(enrichedCards, translations, log) := acc in
  let '(enriched, translations', warnings) :=
    enrichCard card tokenizer dictionary translations translator replace in
  (enrichedCards ++ [enriched], translations', log ++ warnings).

(** [main], after the command line has been turned into [options]. A
    [Throw] is the rejection that ends the process with status 1. *)
Definition main (options : CliOptions) (env : Environment) : result Outputs :=
  match kuromojiBuild env with
  | Throw e => Throw e
  | Ok tokenizer =>
      let '(dictionary, log1) :=
        loadDictionary (dictPath options) (dictionaryFile env) in
      let '(translations, log2) :=
        loadTranslationHints (translationPath options) (translationFile env) in
      match (if autoTranslate options
             then match createDeepLTranslator (DEEPL_API_KEY env)
                          (translateText env) (deeplFormality options)
                          (deeplGlossaryId options) with
                  | Ok translate => Ok (Some translate)
                  | Throw e => Throw e
                  end
             else Ok None) with
      | Throw e => Throw e
      | Ok translator =>
          match cardsFile env with
          | Throw e => Throw e
          | Ok rawCards =>
              let '(enrichedCards, translations, log3) :=
                fold_left
                  (enrichNext tokenizer dictionary translator
                     (autoTranslateReplace options))
                  rawCards ([], translations, log1 ++ log2) in
              let log4 :=
                log3 ++ [lit "Enriched JSON written to " ++ outputJsonPath options] in
              let tsv :=
                if writeTsv options
                then Some (tsvPath options, cardsToTsv enrichedCards) else None in
              let log5 :=
                if writeTsv options
                then log4 ++ [lit "TSV output written to " ++ tsvPath options]
                else log4 in
              let cache :=
                match translationSavePath options with
                | Some (c :: path) =>
                    if bool_decide (addedEntries translations ≠ [])
                    then Some (c :: path,
                               persistTranslations translations (c :: path))
                    else None
                | _ => None
                end in
              Ok {| jsonWritten := (outputJsonPath options, enrichedCards);
                    tsvWritten := tsv;
                    cacheWritten := (fun w => (w.1, w.2.1)) <$> cache;
                    console :=
                      log5 ++ match cache with
                              | Some w => [w.2.2]
                              | None => []
                              end |}
          end
      end
  end.

End Enrich.

(** ** [scripts/parseSubs.ts]: the command line and the run *)

Module ParseSubsCli.

Import ParseSubs.

Record CliOptions := {
  jsonPath : option jsstring;
  tsvPath : option jsstring;
  writeJson : bool;
  writeTsv : bool;
}.

(** What the script finds outside: the functions of [node:path] under the
    working directory of the run, the directories that exist and the file
    system read by [readFileSync]; a [Throw] carries what the handler at the
    end of the script prints for the rejection. *)
Record Node := {
  resolve : jsstring -> jsstring;
  resolveIn : jsstring -> jsstring -> jsstring;
  dirname : jsstring -> jsstring;
  basename : jsstring -> jsstring;
  basenameWithout : jsstring -> jsstring -> jsstring;
  extname : jsstring -> jsstring;
  existsSync : jsstring -> bool;
  readFileSync : jsstring -> Enrich.result jsstring;
}.

Definition QUOTE : N := 34.
Definition DOT : N := 46.

Definition requirePathArgument (tokens : list jsstring) (index : nat)
    (flag : jsstring) : Enrich.result jsstring :=
  match tokens !! index with
  | None => Enrich.Throw (flag ++ lit " needs a file path argument.")
  | Some token => Enrich.Ok token
  end.

(** The [for] loop of [parseOptions] from index [i] on; [turns] bounds the
    number of turns, and [length tokens - i] of them are enough. *)
Fixpoint parseLoop (node : Node) (turns : nat) (tokens : list jsstring)
    (i : nat) (opts : CliOptions) : Enrich.result CliOptions :=
  match turns with
  | O => Enrich.Ok opts
  | S turns' =>
      match tokens !! i with
      | None => Enrich.Ok opts
      | Some token =>
          if bool_decide (token = lit "--json") then
            match requirePathArgument tokens (S i) (lit "--json") with
            | Enrich.Throw e => Enrich.Throw e
            | Enrich.Ok path =>
                parseLoop node turns' tokens (S (S i))
                  {| jsonPath := Some (resolve node path);
                     tsvPath := tsvPath opts;
                     writeJson := writeJson opts;
                     writeTsv := writeTsv opts |}
            end
          else if bool_decide (token = lit "--tsv") then
            match requirePathArgument tokens (S i) (lit "--tsv") with
            | Enrich.Throw e => Enrich.Throw e
            | Enrich.Ok path =>
                parseLoop node turns' tokens (S (S i))
                  {| jsonPath := jsonPath opts;
                     tsvPath := Some (resolve node path);
                     writeJson := writeJson opts;
                     writeTsv := writeTsv opts |}
            end
          else if bool_decide (token = lit "--no-json") then
            parseLoop node turns' tokens (S i)
              {| jsonPath := jsonPath opts; tsvPath := tsvPath opts;
                 writeJson := false; writeTsv := writeTsv opts |}
          else if bool_decide (token = lit "--no-tsv") then
            parseLoop node turns' tokens (S i)
              {| jsonPath := jsonPath opts; tsvPath := tsvPath opts;
                 writeJson := writeJson opts; writeTsv := false |}
          else
            Enrich.Throw (lit "Unknown option " ++ [QUOTE] ++ token ++ [QUOTE]
                          ++ lit ". Use --help for usage.")
      end
  end.

Definition parseOptions (node : Node) (tokens : list jsstring)
  : Enrich.result CliOptions :=
  match parseLoop node (length tokens) tokens 0
          {| jsonPath := None; tsvPath := None;
             writeJson := true; writeTsv := true |} with
  | Enrich.Throw e => Enrich.Throw e
  | Enrich.Ok opts =>
      if negb (writeJson opts) && negb (writeTsv opts)
      then Enrich.Throw (lit "At least one output (JSON or TSV) must be enabled.")
      else Enrich.Ok opts
  end.

(** [c.toLowerCase()] on the letters A to Z. A code unit outside them is
    kept: the comparisons below are with words in a, j, p, r and w, and no
    other character is turned into one of these letters. *)
Definition lowerLatin (c : N) : N :=
  if (65 <=? c) && (c <=? 90) then c + 32 else c.

(** [baseName.replace(/\.(ja|jp)$/i, '')]. *)
Definition stripLanguage (baseName : jsstring) : jsstring :=
  match rev baseName with
  | c2 :: c1 :: c0 :: before =>
      if (c0 =? DOT) && (lowerLatin c1 =? 106)
         && ((lowerLatin c2 =? 97) || (lowerLatin c2 =? 112))
      then rev before else baseName
  | _ => baseName
  end.

(** [defaultOutPath]: the path, and the directories created so far; [made]
    lists those created before the call. *)
Definition defaultOutPath (node : Node) (made : list jsstring)
    (input suffix : jsstring) : jsstring * list jsstring :=
  let dir := dirname node input in
  let baseName := basenameWithout node input (extname node input) in
  let normalizedBase := stripLanguage baseName in
  let '(targetDir, made') :=
    if bool_decide (map lowerLatin (basename node dir) = lit "raw") then
      let parentDir := dirname node dir in
      let targetDir := resolveIn node parentDir (lit "cards") in
      if existsSync node targetDir || bool_decide (targetDir ∈ made)
      then (targetDir, made)
      else (targetDir, made ++ [targetDir])
    else (dir, made) in
  (resolveIn node targetDir (normalizedBase ++ suffix), made').

Definition USAGE : jsstring :=
  lit "Usage: npx tsx scripts/parseSubs.ts <file.srt> [options]

Options:
  --json <path>    Custom path for the card JSON output
  --tsv <path>     Custom path for the TSV output
  --no-json        Skip writing the JSON file
  --no-tsv         Skip writing the TSV file
  -h, --help       Show this help text

Outputs default to " ++ [QUOTE] ++ lit "<input>.cards.json" ++ [QUOTE]
  ++ lit " and " ++ [QUOTE] ++ lit "<input>.cards.tsv" ++ [QUOTE] ++ lit ".
".

(** What [writeFileSync] is given: the cards, printed by [JSON.stringify],
    or a text. *)
Inductive Content :=
| JsonCards (cards : list Card)
| Text (text : jsstring).

(** What a run leaves behind: the exit status, the lines of [console.log]
    and of [console.error], the files written and the directories made. *)
Record Outcome := {
  exitCode : Z;
  logged : list jsstring;
  errors : list jsstring;
  written : list (jsstring * Content);
  made : list jsstring;
}.

Definition helpRequested (args : list jsstring) : bool :=
  bool_decide (lit "-h" ∈ args) || bool_decide (lit "--help" ∈ args).

(** [main] with the handler of its rejection; the writes are taken to
    succeed. *)
Definition main (node : Node) (args : list jsstring) : Outcome :=
  match args with
  | [] =>
      {| exitCode := 1; logged := [USAGE]; errors := [];
         written := []; made := [] |}
  | first :: tokens =>
      if helpRequested args then
        {| exitCode := 0; logged := [USAGE]; errors := [];
           written := []; made := [] |}
      else
        let inputPath := resolve node first in
        match parseOptions node tokens with
        | Enrich.Throw message =>
            {| exitCode := 1; logged := []; errors := [message];
               written := []; made := [] |}
        | Enrich.Ok options =>
            match readFileSync node inputPath with
            | Enrich.Throw trace =>
                {| exitCode := 1; logged := []; errors := [trace];
                   written := []; made := [] |}
            | Enrich.Ok rawContent =>
                let subtitles := parseSrt rawContent in
                match subtitles with
                | [] =>
                    {| exitCode := 1; logged := [];
                       errors := [lit "No subtitle lines found in "
                                  ++ inputPath ++ lit "."];
                       written := []; made := [] |}
                | _ :: _ =>
                    let cards := buildCards subtitles in
                    let log1 :=
                      [lit "Parsed "
                       ++ stringOfInt (Z.of_nat (length subtitles))
                       ++ lit " subtitle blocks into "
                       ++ stringOfInt (Z.of_nat (length cards))
                       ++ lit " card entries."] in
                    let '(files2, made2, log2) :=
                      if writeJson options then
                        let '(path, made1) :=
                          match jsonPath options with
                          | Some path => (path, [])
                          | None =>
                              defaultOutPath node [] inputPath
                                (lit ".cards.json")
                          end in
                        ([(path, JsonCards cards)], made1,
                         log1 ++ [lit "JSON output written to " ++ path])
                      else ([], [], log1) in
                    let '(files3, made3, log3) :=
                      if writeTsv options then
                        let '(path, made') :=
                          match tsvPath options with
                          | Some path => (path, made2)
                          | None =>
                              defaultOutPath node made2 inputPath
                                (lit ".cards.tsv")
                          end in
                        (files2 ++ [(path, Text (cardsToTsv cards))], made',
                         log2 ++ [lit "TSV output written to " ++ path])
                      else (files2, made2, log2) in
                    {| exitCode := 0; logged := log3; errors := [];
                       written := files3; made := made3 |}
                end
            end
        end
  end.

End ParseSubsCli.

(** ** [scripts/enrichCards.ts]: the command line *)

Module EnrichCli.

Import Enrich.

Definition ensureNext (tokens : list jsstring) (index : nat)
    (optionName : jsstring) : result jsstring :=
  match tokens !! index with
  | None => Throw (optionName ++ lit " requires a file path argument.")
  | Some token => Ok token
  end.

Definition replaceExt (node : ParseSubsCli.Node) (filePath newExt : jsstring)
  : jsstring :=
  let dir := ParseSubsCli.dirname node filePath in
  let base :=
    ParseSubsCli.basenameWithout node filePath
      (ParseSubsCli.extname node filePath) in
  ParseSubsCli.resolveIn node dir (base ++ newExt).

(** [scriptDir] is [__dirname], the directory of the script. *)
Definition resolveDefaultDict (node : ParseSubsCli.Node) (scriptDir : jsstring)
  : jsstring :=
  ParseSubsCli.resolveIn node scriptDir (lit "../data/japanese-mini-dict.json").

(** [path.replace(/\.json$/, '.tsv')]. *)
Definition replaceJsonSuffix (path : jsstring) : jsstring :=
  let cut := (length path - 5)%nat in
  if bool_decide (drop cut path = lit ".json")
  then take cut path ++ lit ".tsv" else path.

(** [a || b] on strings. *)
Definition orElse (a b : jsstring) : jsstring :=
  match a with
  | [] => b
  | _ => a
  end.

Definition setDictPath (value : jsstring) (o : CliOptions) : CliOptions :=
  {| inputPath := inputPath o; dictPath := value;
     translationPath := translationPath o;
     translationSavePath := translationSavePath o;
     outputJsonPath := outputJsonPath o; tsvPath := tsvPath o;
     writeTsv := writeTsv o; autoTranslate := autoTranslate o;
     autoTranslateReplace := autoTranslateReplace o;
     deeplFormality := deeplFormality o;
     deeplGlossaryId := deeplGlossaryId o |}.

Definition setTranslationPath (value : option jsstring) (o : CliOptions)
  : CliOptions :=
  {| inputPath := inputPath o; dictPath := dictPath o;
     translationPath := value;
     translationSavePath := translationSavePath o;
     outputJsonPath := outputJsonPath o; tsvPath := tsvPath o;
     writeTsv := writeTsv o; autoTranslate := autoTranslate o;
     autoTranslateReplace := autoTranslateReplace o;
     deeplFormality := deeplFormality o;
     deeplGlossaryId := deeplGlossaryId o |}.

Definition setTranslationSavePath (value : option jsstring) (o : CliOptions)
  : CliOptions :=
  {| inputPath := inputPath o; dictPath := dictPath o;
     translationPath := translationPath o;
     translationSavePath := value;
     outputJsonPath := outputJsonPath o; tsvPath := tsvPath o;
     writeTsv := writeTsv o; autoTranslate := autoTranslate o;
     autoTranslateReplace := autoTranslateReplace o;
     deeplFormality := deeplFormality o;
     deeplGlossaryId := deeplGlossaryId o |}.

Definition setOutputJsonPath (value : jsstring) (o : CliOptions) : CliOptions :=
  {| inputPath := inputPath o; dictPath := dictPath o;
     translationPath := translationPath o;
     translationSavePath := translationSavePath o;
     outputJsonPath := value; tsvPath := tsvPath o;
     writeTsv := writeTsv o; autoTranslate := autoTranslate o;
     autoTranslateReplace := autoTranslateReplace o;
     deeplFormality := deeplFormality o;
     deeplGlossaryId := deeplGlossaryId o |}.

Definition setTsvPath (value : jsstring) (o : CliOptions) : CliOptions :=
  {| inputPath := inputPath o; dictPath := dictPath o;
     translationPath := translationPath o;
     translationSavePath := translationSavePath o;
     outputJsonPath := outputJsonPath o; tsvPath := value;
     writeTsv := writeTsv o; autoTranslate := autoTranslate o;
     autoTranslateReplace := autoTranslateReplace o;
     deeplFormality := deeplFormality o;
     deeplGlossaryId := deeplGlossaryId o |}.

Definition setWriteTsv (value : bool) (o : CliOptions) : CliOptions :=
  {| inputPath := inputPath o; dictPath := dictPath o;
     translationPath := translationPath o;
     translationSavePath := translationSavePath o;
     outputJsonPath := outputJsonPath o; tsvPath := tsvPath o;
     writeTsv := value; autoTranslate := autoTranslate o;
     autoTranslateReplace := autoTranslateReplace o;
     deeplFormality := deeplFormality o;
     deeplGlossaryId := deeplGlossaryId o |}.

Definition setAutoTranslate (value : bool) (o : CliOptions) : CliOptions :=
  {| inputPath := inputPath o; dictPath := dictPath o;
     translationPath := translationPath o;
     translationSavePath := translationSavePath o;
     outputJsonPath := outputJsonPath o; tsvPath := tsvPath o;
     writeTsv := writeTsv o; autoTranslate := value;
     autoTranslateReplace := autoTranslateReplace o;
     deeplFormality := deeplFormality o;
     deeplGlossaryId := deeplGlossaryId o |}.

Definition setAutoTranslateReplace (value : bool) (o : CliOptions)
  : CliOptions :=
  {| inputPath := inputPath o; dictPath := dictPath o;
     translationPath := translationPath o;
     translationSavePath := translationSavePath o;
     outputJsonPath := outputJsonPath o; tsvPath := tsvPath o;
     writeTsv := writeTsv o; autoTranslate := autoTranslate o;
     autoTranslateReplace := value;
     deeplFormality := deeplFormality o;
     deeplGlossaryId := deeplGlossaryId o |}.

Definition setDeeplFormality (value : jsstring) (o : CliOptions) : CliOptions :=
  {| inputPath := inputPath o; dictPath := dictPath o;
     translationPath := translationPath o;
     translationSavePath := translationSavePath o;
     outputJsonPath := outputJsonPath o; tsvPath := tsvPath o;
     writeTsv := writeTsv o; autoTranslate := autoTranslate o;
     autoTranslateReplace := autoTranslateReplace o;
     deeplFormality := value;
     deeplGlossaryId := deeplGlossaryId o |}.

Definition setDeeplGlossaryId (value : option jsstring) (o : CliOptions)
  : CliOptions :=
  {| inputPath := inputPath o; dictPath := dictPath o;
     translationPath := translationPath o;
     translationSavePath := translationSavePath o;
     outputJsonPath := outputJsonPath o; tsvPath := tsvPath o;
     writeTsv := writeTsv o; autoTranslate := autoTranslate o;
     autoTranslateReplace := autoTranslateReplace o;
     deeplFormality := deeplFormality o;
     deeplGlossaryId := value |}.

(** A case of the [switch] that takes the next token: [ensureNext] with
    [++i], then the rest of the loop. *)
Definition withNext (tokens : list jsstring) (i : nat) (optionName : jsstring)
    (rest : jsstring -> result CliOptions) : result CliOptions :=
  match ensureNext tokens (S i) optionName with
  | Throw e => Throw e
  | Ok value => rest value
  end.

(** The [for] loop of [parseOptions] from index [i] on; [turns] bounds the
    number of turns, and [length cliArgs - i] of them are enough. *)
Fixpoint parseLoop (node : ParseSubsCli.Node) (turns : nat)
    (cliArgs : list jsstring) (i : nat) (opts : CliOptions)
  : result CliOptions :=
  match turns with
  | O => Ok opts
  | S turns' =>
      match cliArgs !! i with
      | None => Ok opts
      | Some token =>
          let resolve := ParseSubsCli.resolve node in
          let next := parseLoop node turns' cliArgs in
          if bool_decide (token = lit "--dict") then
            withNext cliArgs i (lit "--dict") (fun value =>
              next (S (S i)) (setDictPath (resolve value) opts))
          else if bool_decide (token = lit "--translations") then
            withNext cliArgs i (lit "--translations") (fun value =>
              next (S (S i)) (setTranslationPath (Some (resolve value)) opts))
          else if bool_decide (token = lit "--translations-out") then
            withNext cliArgs i (lit "--translations-out") (fun value =>
              next (S (S i))
                (setTranslationSavePath (Some (resolve value)) opts))
          else if bool_decide (token = lit "--out") then
            withNext cliArgs i (lit "--out") (fun value =>
              next (S (S i)) (setOutputJsonPath (resolve value) opts))
          else if bool_decide (token = lit "--tsv") then
            withNext cliArgs i (lit "--tsv") (fun value =>
              next (S (S i)) (setTsvPath (resolve value) opts))
          else if bool_decide (token = lit "--no-tsv") then
            next (S i) (setWriteTsv false opts)
          else if bool_decide (token = lit "--auto-translate")
                  || bool_decide (token = lit "--deepl-translate") then
            next (S i) (setAutoTranslate true opts)
          else if bool_decide (token = lit "--auto-translate-keep") then
            next (S i) (setAutoTranslateReplace false opts)
          else if bool_decide (token = lit "--deepl-formality") then
            withNext cliArgs i (lit "--deepl-formality") (fun value =>
              next (S (S i)) (setDeeplFormality value opts))
          else if bool_decide (token = lit "--deepl-glossary") then
            withNext cliArgs i (lit "--deepl-glossary") (fun value =>
              next (S (S i)) (setDeeplGlossaryId (Some value) opts))
          else
            Throw (lit "Unknown option " ++ [ParseSubsCli.QUOTE] ++ token
                   ++ [ParseSubsCli.QUOTE] ++ lit ". Use --help for usage.")
      end
  end.

(** The paths settled after the loop. *)
Definition settle (node : ParseSubsCli.Node) (opts : CliOptions) : CliOptions :=
  let resolve := ParseSubsCli.resolve node in
  let opts1 :=
    setOutputJsonPath
      (resolve (orElse (outputJsonPath opts) (inputPath opts))) opts in
  let opts2 :=
    if writeTsv opts1 then
      let guessedTsv := replaceExt node (outputJsonPath opts1) (lit ".tsv") in
      setTsvPath (resolve (orElse (tsvPath opts1) guessedTsv)) opts1
    else
      setTsvPath
        (match tsvPath opts1 with
         | [] => replaceJsonSuffix (outputJsonPath opts1)
         | path => resolve path
         end) opts1 in
  if negb (truthy (translationSavePath opts2)) && truthy (translationPath opts2)
  then setTranslationSavePath (translationPath opts2) opts2
  else opts2.

Definition parseOptions (node : ParseSubsCli.Node) (scriptDir : jsstring)
    (cliArgs : list jsstring) : result CliOptions :=
  match cliArgs with
  | [] => Throw (lit "Input cards JSON is required.")
  | first :: _ =>
      match parseLoop node (length cliArgs) cliArgs 1
              {| inputPath := ParseSubsCli.resolve node first;
                 dictPath := resolveDefaultDict node scriptDir;
                 translationPath := None;
                 translationSavePath := None;
                 outputJsonPath := [];
                 tsvPath := [];
                 writeTsv := true;
                 autoTranslate := false;
                 autoTranslateReplace := true;
                 deeplFormality := lit "default";
                 deeplGlossaryId := None |} with
      | Throw e => Throw e
      | Ok opts => Ok (settle node opts)
      end
  end.

End EnrichCli.

(** ** [scripts/scaffoldEpisode.mjs]: the episode identifier *)

Module Scaffold.

(** [/[a-z0-9]/i] on a code unit: without the [u] flag a character outside
    ASCII never matches an ASCII letter. *)
Definition isAlphanumeric (c : N) : bool :=
  isDigit c || ((65 <=? c) && (c <=? 90)) || ((97 <=? c) && (c <=? 122)).

(** [value.padStart(2, '0')]. *)
Definition padStart2 (value : jsstring) : jsstring :=
  match value with
  | [] => [48; 48]
  | [c] => [48; c]
  | _ => value
  end.

(** [None] is a missing argument. *)
Definition formatEpisodeId (value : option jsstring) : jsstring :=
  match value with
  | None | Some [] => lit "01"
  | Some text =>
      if forallb isDigit text then padStart2 text
      else map ParseSubsCli.lowerLatin (List.filter isAlphanumeric text)
  end.

End Scaffold.

(** ** Notions used to state the properties *)

Module Spec.

Import ParseSubs.

(** A string that is empty or starts with a code unit [trim] keeps. *)
Definition headKept (s : jsstring) : Prop :=
  match s with
  | [] => True
  | c :: _ => isWhiteSpace c = false
  end.

(** A string that is exactly [HH:MM:SS,mmm]: twelve code units, digits
    around two colons and a comma. *)
Definition wellFormedTimecode (s : jsstring) : bool :=
  bool_decide (length s = 12%nat) && bool_decide (is_Some (timecodeAt s)).

(** The text [HH:MM:SS,mmm] written with the given decimal digits. *)
Definition timecodeText (h1 h2 m1 m2 s1 s2 f1 f2 f3 : N) : jsstring :=
  [48 + h1; 48 + h2; COLON; 48 + m1; 48 + m2; COLON; 48 + s1; 48 + s2; COMMA;
   48 + f1; 48 + f2; 48 + f3].

(** Two line feeds in a row somewhere in [s]. *)
Fixpoint hasNewlineRun (s : jsstring) : bool :=
  match s with
  | [] => false
  | c :: r =>
      ((c =? LF) && match r with
                    | d :: _ => d =? LF
                    | [] => false
                    end)
      || hasNewlineRun r
  end.

(** The numbers 1, 2, ..., [n]. *)
Definition oneTo (n : nat) : list Z := map Z.of_nat (seq 1 n).

(** A card that carries what its subtitle entry holds. *)
Definition carries (entry : SubtitleEntry) (card : Card) : Prop :=
  subtitleId card = rawId entry
  /\ sentence card = text entry
  /\ translation card = [] /\ romaji card = [] /\ furigana card = []
  /\ startTime card = start entry /\ endTime card = end_ entry
  /\ cardStartMs card = startMs entry /\ cardEndMs card = endMs entry.

(** Every hint of the three indices is a non-empty text. The loader and the
    resolver only ever store such texts (lemmas [loadTranslationHints_nonEmpty]
    and [resolveCard_nonEmpty]). *)
Definition hintsNonEmpty (st : Enrich.TranslationState) : Prop :=
  map_Forall (fun _ t => t <> []) (Enrich.byId st)
  /\ map_Forall (fun _ t => t <> []) (Enrich.bySubtitleId st)
  /\ map_Forall (fun _ t => t <> []) (Enrich.bySentence st).

(** No index holds a hint for the card: not under its [id], not under its
    [subtitleId], not under its trimmed sentence. *)
Definition noHintMatches (card : Enrich.CardRecord)
    (st : Enrich.TranslationState) : Prop :=
  Enrich.byId st !! stringOfNumber (Enrich.id card) = None
  /\ Enrich.subtitleId card ≫=
       (fun sid => Enrich.bySubtitleId st !! stringOfNumber sid) = None
  /\ (trim (default [] (Enrich.sentence card)) = []
      \/ Enrich.bySentence st !! trim (default [] (Enrich.sentence card)) = None).

(** The breakdown [enrichCard] attaches to a card. *)
Definition breakdownOf (card : Enrich.CardRecord)
    (tokenizer : Enrich.KuromojiTokenizer)
    (dictionary : gmap jsstring Enrich.DictionaryEntry)
  : list Enrich.TokenBreakdown :=
  List.filter (fun token => nonEmpty (trim (Enrich.surface token)))
    (map (fun token => Enrich.normalizeToken token dictionary)
       (tokenizer (default [] (Enrich.sentence card)))).

(** The [formality] option [createDeepLTranslator] hands to the service. *)
Definition formalityOption (formality : jsstring) : option jsstring :=
  if bool_decide (Enrich.normalizeDeepLFormality formality = lit "default")
  then None else Some (Enrich.normalizeDeepLFormality formality).

(** The line written when the service rejects the call for [card]. *)
Definition failureWarning (card : Enrich.CardRecord) (message : jsstring)
  : jsstring :=
  lit "DeepL translation failed for subtitle "
  ++ stringOfNumber (default (Enrich.id card) (Enrich.subtitleId card))
  ++ lit ": " ++ message.

(** An entry-like value with a [translation] that is a string and not
    blank: what [sanitizeTranslationEntry] accepts. *)
Definition hasTranslation (entryLike : json) : bool :=
  match entryLike with
  | JObject fields =>
      match getField (lit "translation") fields with
      | Some (JString raw) => nonEmpty (trim raw)
      | _ => false
      end
  | _ => false
  end.

(** A finite number, which [normalizeNumeric] returns as it is. *)
Definition finiteNumber (value : json) : bool :=
  match value with
  | JNumber n => isFinite n
  | _ => false
  end.

(** A value of [id] or [subtitleId] that counts as given: not [null], not
    the empty string. *)
Definition given (value : json) : bool :=
  match value with
  | JNull | JString [] => false
  | _ => true
  end.

(** *** The persisted merge, in the words of its description *)

(** The entries with the key [put] gives each, the anonymous ones numbered
    from [anonCounter] on. *)
Fixpoint keysFrom (anonCounter : nat) (entries : list Enrich.TranslationEntry)
  : list (jsstring * Enrich.TranslationEntry) :=
  match entries with
  | [] => []
  | e :: rest =>
      ((Enrich.entryKey e anonCounter).1, e)
        :: keysFrom (Enrich.entryKey e anonCounter).2 rest
  end.

(** The last entry filed under [key]. *)
Fixpoint lastWith (key : jsstring)
    (keyed : list (jsstring * Enrich.TranslationEntry))
  : option Enrich.TranslationEntry :=
  match keyed with
  | [] => None
  | (k, e) :: rest =>
      match lastWith key rest with
      | Some later => Some later
      | None => if bool_decide (k = key) then Some e else None
      end
  end.

(** The keys without repetition, each where it first occurs. *)
Fixpoint distinctKeys (keys : list jsstring) : list jsstring :=
  match keys with
  | [] => []
  | k :: rest =>
      k :: List.filter (fun k' => negb (bool_decide (k' = k))) (distinctKeys rest)
  end.

(** One entry per key, the last one filed under it, in the order in which
    the keys first occur. *)
Definition mergedByKey (entries : list Enrich.TranslationEntry)
  : list Enrich.TranslationEntry :=
  let keyed := keysFrom 0 entries in
  omap (fun key => lastWith key keyed) (distinctKeys (map fst keyed)).

(** [map.get(key)] on the ordered map of [mergeTranslationEntries]. *)
Fixpoint mapGet (key : jsstring) (m : list (jsstring * Enrich.TranslationEntry))
  : option Enrich.TranslationEntry :=
  match m with
  | [] => None
  | (k, e) :: rest => if bool_decide (k = key) then Some e else mapGet key rest
  end.

(** An entry with no [subtitleId], no [id] and no sentence. *)
Definition anonymous (e : Enrich.TranslationEntry) : bool :=
  match Enrich.entrySubtitleId e, Enrich.entryId e, Enrich.entrySentence e with
  | None, None, None | None, None, Some [] => true
  | _, _, _ => false
  end.

(** How many of the first [i] entries are anonymous. *)
Definition anonymousBefore (i : nat) (entries : list Enrich.TranslationEntry)
  : nat :=
  length (List.filter anonymous (take i entries)).

End Spec.

(** ** Sample data for the worked instances *)

Module Samples.

Import Enrich.

Definition card5 : CardRecord :=
  {| id := Int 5; subtitleId := Some (Int 7);
     sentence := Some (lit "猫");
     translation := Some (lit " a cat ");
     romaji := Some []; furigana := Some [];
     startTime := Some (lit "00:00:01,000");
     endTime := Some (lit "00:00:02,500");
     startMs := Some (Int 1000); endMs := Some (Int 2500);
     tokens := None; extra := [] |}.

(** An analyser that reports the whole sentence as one noun. *)
Definition wholeSentence : KuromojiTokenizer :=
  fun text =>
    [ {| surface_form := text; pos := lit "名詞"; pos_detail_1 := lit "一般";
         pos_detail_2 := STAR; pos_detail_3 := STAR; basic_form := STAR;
         reading := Some (lit "ネコ") |} ].

(** The hint file [{"5": "Hello there"}]. *)
Definition helloHints : json :=
  JObject [(lit "5", JString (lit "Hello there"))].

Definition helloState : TranslationState :=
  (loadTranslationHints (Some (lit "hints.json")) (Some helloHints)).1.

(** A service that rejects every call. *)
Definition quotaExceeded : TranslateText :=
  fun _ _ _ => Throw (lit "Quota exceeded").

(** The translator built over that service. *)
Definition rejectingTranslator : TranslatorFn :=
  match createDeepLTranslator (Some (lit "key")) quotaExceeded (lit "default")
          None with
  | Ok translate => translate
  | Throw _ => fun _ => (None, [])
  end.

(** The hint file [{ key: "Hello" }]. *)
Definition keyedHint (key : string) : TranslationState :=
  (loadTranslationHints (Some (lit "hints.json"))
     (Some (JObject [(lit key, JString (lit "Hello"))]))).1.

(** The hint file [[{ "id": 5.9, "translation": "Hello" }]]. *)
Definition fractionHint : TranslationState :=
  (loadTranslationHints (Some (lit "hints.json"))
     (Some (JArray [JObject [(lit "id", JNumber (Frac false 5 (lit "9")));
                             (lit "translation", JString (lit "Hello"))]]))).1.

End Samples.

(** ** Notions used to state further properties *)

Module Laws.

Import ParseSubs.

(** The text with every line feed turned into carriage return and line
    feed, as an editor with Windows line endings saves it. *)
Definition withCRLF (s : jsstring) : jsstring :=
  flat_map (fun c => if c =? LF then [CR; LF] else [c]) s.

(** The block of a caption in the usual layout: the number, the time range
    and one line of text. *)
Definition captionBlock (number start end_ text : jsstring) : jsstring :=
  number ++ [LF] ++ start ++ lit " --> " ++ end_ ++ [LF] ++ text.

(** A string [trim] leaves as it is. *)
Definition trimmed (s : jsstring) : Prop :=
  Spec.headKept s /\ Spec.headKept (rev s).

(** What every entry the parser produces satisfies: a text that is not
    empty, has no line break and no white space at either end; the two
    millisecond fields computed from the two timecodes; the timecodes absent
    together or present together and trimmed. *)
Definition wellFormedEntry (e : SubtitleEntry) : Prop :=
  text e <> [] /\ trimmed (text e)
  /\ Forall (fun c => c <> LF /\ c <> CR) (text e)
  /\ startMs e = timecodeToMs (start e)
  /\ endMs e = timecodeToMs (end_ e)
  /\ match start e, end_ e with
     | None, None => True
     | Some s, Some t => trimmed s /\ trimmed t
     | _, _ => False
     end.

(** A caption as a subtitle file holds it: the digits of its number, its
    two timecodes and its line of text. *)
Record Caption := {
  captionNumber : jsstring;
  captionStart : jsstring;
  captionEnd : jsstring;
  captionText : jsstring;
}.

Definition HYPHEN : N := 45.

(** A caption in the usual form: a number made of digits, below 2^53;
    timecodes without surrounding white space and without a hyphen; a text
    line that is not empty and has no surrounding white space; no line break
    and no byte-order mark anywhere. *)
Definition plainCaption (c : Caption) : Prop :=
  captionNumber c <> [] /\ Forall (fun d => isDigit d = true) (captionNumber c)
  /\ (digitsValue (captionNumber c) < 2 ^ 53)%Z
  /\ trimmed (captionStart c) /\ trimmed (captionEnd c)
  /\ Forall (fun d => d <> LF /\ d <> CR /\ d <> BOM /\ d <> HYPHEN)
       (captionStart c ++ captionEnd c)
  /\ captionText c <> [] /\ trimmed (captionText c)
  /\ Forall (fun d => d <> LF /\ d <> CR /\ d <> BOM) (captionText c).

(** The file made of the captions, an empty line between two of them. *)
Definition renderSrt (captions : list Caption) : jsstring :=
  join [LF; LF]
    (map (fun c => captionBlock (captionNumber c) (captionStart c)
                     (captionEnd c) (captionText c)) captions).

(** The entry a caption stands for when it is the [S position]-th one. *)
Definition entryOf (position : nat) (c : Caption) : SubtitleEntry :=
  {| index := (Z.of_nat position + 1)%Z;
     rawId := digitsValue (captionNumber c);
     start := Some (captionStart c);
     end_ := Some (captionEnd c);
     startMs := timecodeToMs (Some (captionStart c));
     endMs := timecodeToMs (Some (captionEnd c));
     text := captionText c |}.

(** The entries the captions stand for, numbered from [S from] on. *)
Fixpoint entriesFrom (from : nat) (captions : list Caption)
  : list SubtitleEntry :=
  match captions with
  | [] => []
  | c :: rest => entryOf from c :: entriesFrom (S from) rest
  end.

(** The piece a token contributes to the literal translation: its first
    gloss when it has one that is not empty, else its surface form. *)
Definition literalPiece (token : Enrich.TokenBreakdown) : jsstring :=
  match Enrich.meanings token with
  | Some (m :: _) => if nonEmpty m then m else Enrich.surface token
  | _ => Enrich.surface token
  end.

(** The last entry of the list filed under [key]. *)
Fixpoint lastEntry (key : jsstring) (entries : list Enrich.DictionaryEntry)
  : option Enrich.DictionaryEntry :=
  match entries with
  | [] => None
  | e :: rest =>
      match lastEntry key rest with
      | Some later => Some later
      | None => if bool_decide (Enrich.entryLemma e = key) then Some e else None
      end
  end.


(** The key of an entry that has a [subtitleId], an [id] or a sentence;
    it does not depend on the counter. *)
Definition stableKey (e : Enrich.TranslationEntry) : option jsstring :=
  if Spec.anonymous e then None else Some (Enrich.entryKey e 0).1.

(** A cache entry as [JSON.stringify] writes it and [JSON.parse] reads it
    back: the four fields in the order [sanitizeTranslationEntry] builds
    them, [null] for a missing one and for a number that is not finite. *)
Definition idJson (v : option Enrich.idValue) : json :=
  match v with
  | Some (Enrich.IdNumber n) => if isFinite n then JNumber n else JNull
  | Some (Enrich.IdString s) => JString s
  | None => JNull
  end.

Definition entryJson (e : Enrich.TranslationEntry) : json :=
  JObject [(lit "id", idJson (Enrich.entryId e));
           (lit "subtitleId", idJson (Enrich.entrySubtitleId e));
           (lit "sentence", Enrich.optJson JString (Enrich.entrySentence e));
           (lit "translation", JString (Enrich.entryTranslation e))].

(** An identifier as the loader normalizes it: a finite number, or a string
    that is not empty and in which [parseInt] finds no number. *)
Definition normalKey (v : option Enrich.idValue) : Prop :=
  match v with
  | None => True
  | Some (Enrich.IdNumber n) => isFinite n = true
  | Some (Enrich.IdString s) => s <> [] /\ parseInt s = NaN
  end.

(** An identifier that the cache file keeps: not an infinity, which is
    written as [null], and not the empty string, which is read as no key. *)
Definition kept (v : option Enrich.idValue) : Prop :=
  match v with
  | None => True
  | Some (Enrich.IdNumber n) => isFinite n = true
  | Some (Enrich.IdString s) => s <> []
  end.

(** An entry in the form [sanitizeTranslationEntry] gives it. *)
Definition sanitized (e : Enrich.TranslationEntry) : Prop :=
  Enrich.entryTranslation e <> [] /\ trimmed (Enrich.entryTranslation e)
  /\ match Enrich.entrySentence e with
     | Some s => s <> [] /\ trimmed s
     | None => True
     end
  /\ normalKey (Enrich.entryId e) /\ normalKey (Enrich.entrySubtitleId e).

(** What holds of the options of [parseSubs] while its loop reads the
    tokens: an output is disabled only if its switch is among the tokens; a
    path is set only if its flag is among the tokens, and it is the
    resolved form of one of them. *)
Definition optionsFrom (node : ParseSubsCli.Node) (tokens : list jsstring)
    (opts : ParseSubsCli.CliOptions) : Prop :=
  (ParseSubsCli.writeJson opts = false -> lit "--no-json" ∈ tokens)
  /\ (ParseSubsCli.writeTsv opts = false -> lit "--no-tsv" ∈ tokens)
  /\ (forall path, ParseSubsCli.jsonPath opts = Some path ->
        lit "--json" ∈ tokens
        /\ exists token, token ∈ tokens
                         /\ path = ParseSubsCli.resolve node token)
  /\ (forall path, ParseSubsCli.tsvPath opts = Some path ->
        lit "--tsv" ∈ tokens
        /\ exists token, token ∈ tokens
                         /\ path = ParseSubsCli.resolve node token).

(** What the options of [enrichCards] owe to the command line: a setting
    differs from its default only if its flag is among the arguments. *)
Definition settingsFrom (cliArgs : list jsstring) (opts : Enrich.CliOptions)
  : Prop :=
  (Enrich.autoTranslate opts = true ->
     lit "--auto-translate" ∈ cliArgs \/ lit "--deepl-translate" ∈ cliArgs)
  /\ (Enrich.writeTsv opts = false -> lit "--no-tsv" ∈ cliArgs)
  /\ (Enrich.autoTranslateReplace opts = false ->
        lit "--auto-translate-keep" ∈ cliArgs)
  /\ (Enrich.translationPath opts <> None -> lit "--translations" ∈ cliArgs)
  /\ (Enrich.deeplFormality opts <> lit "default" ->
        lit "--deepl-formality" ∈ cliArgs)
  /\ (Enrich.deeplGlossaryId opts <> None ->
        lit "--deepl-glossary" ∈ cliArgs).

(** What holds of the options while the loop of [enrichCards] reads the
    arguments. *)
Definition readFrom (node : ParseSubsCli.Node) (scriptDir first : jsstring)
    (cliArgs : list jsstring) (opts : Enrich.CliOptions) : Prop :=
  settingsFrom cliArgs opts
  /\ Enrich.inputPath opts = ParseSubsCli.resolve node first
  /\ (Enrich.dictPath opts <> EnrichCli.resolveDefaultDict node scriptDir ->
        lit "--dict" ∈ cliArgs)
  /\ (Enrich.outputJsonPath opts <> [] -> lit "--out" ∈ cliArgs)
  /\ (Enrich.tsvPath opts <> [] -> lit "--tsv" ∈ cliArgs)
  /\ (Enrich.translationSavePath opts <> None ->
        lit "--translations-out" ∈ cliArgs).

End Laws.

(** ** Further sample data *)

Module MoreSamples.

Import Enrich.

(** A service that answers every call with the same text. *)
Definition alwaysCat : TranslateText :=
  fun _ _ _ => Ok (OneResult (Some {| resultText := Some (lit " A cat. ") |})).

Definition catTranslator : TranslatorFn :=
  match createDeepLTranslator (Some (lit "key")) alwaysCat (lit "prefer_more")
          None with
  | Ok translate => translate
  | Throw _ => fun _ => (None, [])
  end.

(** A service that answers like [alwaysCat] but rejects an empty text. *)
Definition strictCat : TranslateText :=
  fun text formality glossary =>
    match text with
    | [] => Throw (lit "Empty text")
    | _ => alwaysCat text formality glossary
    end.

Definition strictTranslator : TranslatorFn :=
  match createDeepLTranslator (Some (lit "key")) strictCat (lit "prefer_more")
          None with
  | Ok translate => translate
  | Throw _ => fun _ => (None, [])
  end.

(** The part of [s] before and after its last [c]. *)
Fixpoint splitLast (c : N) (s : jsstring) : option (jsstring * jsstring) :=
  match s with
  | [] => None
  | x :: rest =>
      match splitLast c rest with
      | Some (before, after) => Some (x :: before, after)
      | None => if x =? c then Some ([], rest) else None
      end
  end.

Definition SLASH : N := 47.

Definition lastPart (path : jsstring) : jsstring :=
  match splitLast SLASH path with
  | Some (_, name) => name
  | None => path
  end.

Definition extension (path : jsstring) : jsstring :=
  match splitLast ParseSubsCli.DOT (lastPart path) with
  | Some (_ :: _, ext) => ParseSubsCli.DOT :: ext
  | _ => []
  end.

(** One caption, as a file holds it. *)
Definition catFile : jsstring :=
  Laws.renderSrt
    [{| Laws.captionNumber := lit "1";
        Laws.captionStart := lit "00:00:01,000";
        Laws.captionEnd := lit "00:00:02,500";
        Laws.captionText := lit "猫" |}].

(** A machine with the working directory [/work], where paths are joined
    with a slash, no directory [cards] exists yet, and the one file is
    [/work/ep1/raw/ep1.ja.srt]. *)
Definition machine : ParseSubsCli.Node :=
  {| ParseSubsCli.resolve := fun path =>
       match path with
       | 47 :: _ => path
       | _ => lit "/work/" ++ path
       end;
     ParseSubsCli.resolveIn := fun dir name => dir ++ [SLASH] ++ name;
     ParseSubsCli.dirname := fun path =>
       match splitLast SLASH path with
       | Some (dir, _) => dir
       | None => lit "."
       end;
     ParseSubsCli.basename := lastPart;
     ParseSubsCli.basenameWithout := fun path ext =>
       let name := lastPart path in
       if bool_decide (drop (length name - length ext) name = ext)
       then take (length name - length ext) name else name;
     ParseSubsCli.extname := extension;
     ParseSubsCli.existsSync := fun _ => false;
     ParseSubsCli.readFileSync := fun path =>
       if bool_decide (path = lit "/work/ep1/raw/ep1.ja.srt")
       then Ok catFile else Throw (lit "ENOENT") |}.




(** A cache entry keyed by a caption number. *)
Definition catEntry : TranslationEntry :=
  {| entryId := Some (IdNumber (Int 5));
     entrySubtitleId := Some (IdNumber (Int 7));
     entrySentence := Some (lit "猫");
     entryTranslation := lit "A cat." |}.

(** A cache entry that has only a sentence. *)
Definition dogEntry : TranslationEntry :=
  {| entryId := None; entrySubtitleId := None;
     entrySentence := Some (lit "犬");
     entryTranslation := lit "A dog." |}.

End MoreSamples.

(** * Properties *)

(** ** Facts about strings *)

Section StringFacts.

Import Spec.
Local Open Scope N_scope.

Lemma trimStart_headKept s : headKept (trimStart s).
Proof.
  induction s as [|c r IH]; simpl; [exact I|].
  destruct (isWhiteSpace c) eqn:E; [exact IH|exact E].
Qed.

Lemma trimStart_fixed s : headKept s -> trimStart s = s.
Proof. destruct s as [|c r]; simpl; [reflexivity|]. now intros ->. Qed.

Lemma trimStart_suffix s : exists w, s = w ++ trimStart s.
Proof.
  induction s as [|c r [w Hw]]; simpl.
  - now exists [].
  - destruct (isWhiteSpace c).
    + exists (c :: w). simpl. now f_equal.
    + now exists [].
Qed.

Lemma trimEnd_prefix s : exists w, s = trimEnd s ++ w.
Proof.
  destruct (trimStart_suffix (rev s)) as [w Hw].
  exists (rev w). unfold trimEnd.
  rewrite <- rev_app_distr, <- Hw. symmetry. apply rev_involutive.
Qed.

Lemma trimEnd_headKept s : headKept s -> headKept (trimEnd s).
Proof.
  intros H. destruct (trimEnd_prefix s) as [w Hw].
  destruct (trimEnd s) as [|c t]; [exact I|].
  rewrite Hw in H. exact H.
Qed.

Lemma trim_fixed s : headKept s -> headKept (rev s) -> trim s = s.
Proof.
  intros H1 H2. unfold trim, trimEnd.
  rewrite (trimStart_fixed s H1), (trimStart_fixed _ H2).
  apply rev_involutive.
Qed.

Lemma trim_headKept s : headKept (trim s).
Proof. apply trimEnd_headKept, trimStart_headKept. Qed.

Lemma trim_lastKept s : headKept (rev (trim s)).
Proof.
  unfold trim, trimEnd. rewrite rev_involutive. apply trimStart_headKept.
Qed.

Lemma trim_idempotent s : trim (trim s) = trim s.
Proof. apply trim_fixed; [apply trim_headKept|apply trim_lastKept]. Qed.

Lemma trimStart_Forall (P : N -> Prop) s : Forall P s -> Forall P (trimStart s).
Proof.
  intros H. destruct (trimStart_suffix s) as [w Hw].
  rewrite Hw in H. now apply Forall_app in H.
Qed.

Lemma trim_Forall (P : N -> Prop) s : Forall P s -> Forall P (trim s).
Proof.
  intros H. unfold trim, trimEnd.
  apply Forall_rev, trimStart_Forall, Forall_rev, trimStart_Forall, H.
Qed.

Lemma replaceTabs_clear s : Forall (fun c => c <> TAB) (replaceTabs s).
Proof.
  induction s as [|c r IH]; simpl; constructor; [|exact IH].
  destruct (N.eqb_spec c TAB); [discriminate|assumption].
Qed.

Lemma replaceTabs_fixed s : Forall (fun c => c <> TAB) s -> replaceTabs s = s.
Proof.
  induction 1 as [|c r Hc _ IH]; simpl; [reflexivity|].
  rewrite IH. now destruct (N.eqb_spec c TAB).
Qed.

(** The scan looks one code unit ahead, so the statement is proved for [s]
    and for [c :: s] together. *)
Lemma replaceLineBreaks_clear s :
  Forall (fun c => c <> TAB) s ->
  Forall (fun c => c <> TAB /\ c <> LF) (replaceLineBreaks [SP] s).
Proof.
  enough (H : (Forall (fun c => c <> TAB) s ->
               Forall (fun c => c <> TAB /\ c <> LF) (replaceLineBreaks [SP] s))
              /\ forall a, Forall (fun c => c <> TAB) (a :: s) ->
                 Forall (fun c => c <> TAB /\ c <> LF)
                   (replaceLineBreaks [SP] (a :: s))) by apply H.
  induction s as [|c r [IH1 IH2]].
  - split; [constructor|]. intros a Ha. simpl.
    destruct (N.eqb_spec a LF); [repeat constructor; discriminate|].
    inversion Ha; subst.
    destruct (a =? CR); repeat constructor; assumption.
  - split; [apply IH2|]. intros a Ha.
    inversion Ha as [|? ? Hat Hcr]; subst.
    change (replaceLineBreaks [SP] (a :: c :: r)) with
      (if a =? LF then [SP] ++ replaceLineBreaks [SP] (c :: r)
       else if a =? CR then
         if c =? LF then [SP] ++ replaceLineBreaks [SP] r
         else a :: replaceLineBreaks [SP] (c :: r)
       else a :: replaceLineBreaks [SP] (c :: r)).
    destruct (N.eqb_spec a LF).
    + constructor; [split; discriminate|]. now apply IH2.
    + destruct (a =? CR).
      * destruct (c =? LF).
        -- constructor; [split; discriminate|]. apply IH1.
           now inversion Hcr.
        -- constructor; [split; assumption|]. now apply IH2.
      * constructor; [split; assumption|]. now apply IH2.
Qed.

Lemma replaceLineBreaks_fixed by_ s :
  Forall (fun c => c <> LF) s -> replaceLineBreaks by_ s = s.
Proof.
  induction 1 as [|c r Hc Hr IH]; [reflexivity|].
  simpl. destruct (N.eqb_spec c LF); [contradiction|].
  destruct (c =? CR); [|now rewrite IH].
  destruct Hr as [|d r' Hd Hr']; [reflexivity|].
  destruct (N.eqb_spec d LF); [contradiction|]. now rewrite IH.
Qed.

End StringFacts.

(** ** Tabular sanitization *)

(** C9. [clean] is idempotent: sanitizing a sanitized string changes
    nothing. The two scripts define the same [clean]; the statement covers
    both, for every argument, [null] and [undefined] included. *)
Theorem clean_idempotent (value : option jsstring) :
  Enrich.clean (Some (Enrich.clean value)) = Enrich.clean value
  /\ ParseSubs.clean (Some (ParseSubs.clean value)) = ParseSubs.clean value.
Proof.
  assert (H : forall s,
             trim (replaceLineBreaks [SP] (replaceTabs
               (trim (replaceLineBreaks [SP] (replaceTabs s)))))
             = trim (replaceLineBreaks [SP] (replaceTabs s))).
  { intros s.
    pose proof (replaceLineBreaks_clear _ (replaceTabs_clear s)) as Hclear.
    apply (trim_Forall _ _) in Hclear.
    rewrite replaceTabs_fixed
      by (eapply Forall_impl; [exact Hclear|]; simpl; tauto).
    rewrite replaceLineBreaks_fixed
      by (eapply Forall_impl; [exact Hclear|]; simpl; tauto).
    apply trim_idempotent. }
  split; apply H.
Qed.

(** ** Timecode codec *)

Section Timecode.

Import ParseSubs Spec.
Local Open Scope N_scope.

Lemma isDigit_digit d : d < 10 -> isDigit (48 + d) = true.
Proof.
  intros H. unfold isDigit. apply andb_true_intro.
  split; apply N.leb_le; lia.
Qed.

Lemma digitsValue_two a b :
  digitsValue [48 + a; 48 + b] = Z.of_N (10 * a + b).
Proof. unfold digitsValue. simpl. lia. Qed.

Lemma digitsValue_three a b c :
  digitsValue [48 + a; 48 + b; 48 + c] = Z.of_N (100 * a + 10 * b + c).
Proof. unfold digitsValue. simpl. lia. Qed.

Lemma timecodeAt_text h1 h2 m1 m2 s1 s2 f1 f2 f3 post :
  h1 < 10 -> h2 < 10 -> m1 < 10 -> m2 < 10 -> s1 < 10 -> s2 < 10 ->
  f1 < 10 -> f2 < 10 -> f3 < 10 ->
  timecodeAt (timecodeText h1 h2 m1 m2 s1 s2 f1 f2 f3 ++ post)
  = Some ([48 + h1; 48 + h2], [48 + m1; 48 + m2], [48 + s1; 48 + s2],
          [48 + f1; 48 + f2; 48 + f3]).
Proof.
  intros. unfold timecodeText, timecodeAt. cbn [app forallb].
  rewrite !isDigit_digit by assumption. reflexivity.
Qed.

(** The search fails exactly when the expression applies at no position. *)
Lemma matchTimecode_None s :
  matchTimecode s = None <->
  forall pre post, s = pre ++ post -> timecodeAt post = None.
Proof.
  induction s as [|c r IH].
  - split; [|reflexivity]. intros _ pre post E.
    symmetry in E. apply app_eq_nil in E as [_ ->]. reflexivity.
  - cbn [matchTimecode]. destruct (timecodeAt (c :: r)) as [m|] eqn:E.
    + split; [discriminate|]. intros H.
      rewrite <- E. now apply (H []).
    + rewrite IH. split.
      * intros H [|p pre] post E'; simpl in E'.
        -- now subst post.
        -- injection E' as -> E'. now apply (H pre).
      * intros H pre post ->. now apply (H (c :: pre)).
Qed.

(** The search returns what the expression yields at the first position
    where it applies. *)
Lemma matchTimecode_leftmost pre rest m :
  (forall p q, pre = p ++ q -> q <> [] -> timecodeAt (q ++ rest) = None) ->
  timecodeAt rest = Some m ->
  matchTimecode (pre ++ rest) = Some m.
Proof.
  induction pre as [|c pre IH]; intros Hearlier Hm.
  - simpl. destruct rest as [|c r]; [discriminate|].
    cbn [matchTimecode]. now rewrite Hm.
  - cbn [app matchTimecode].
    change (c :: pre ++ rest) with ((c :: pre) ++ rest).
    rewrite (Hearlier [] (c :: pre)) by easy.
    apply IH; [|exact Hm].
    intros p q -> Hq. now apply (Hearlier (c :: p)).
Qed.

End Timecode.

(** C6, as the code has it. The codec returns [null] for [null] and for a
    string in which the pattern [dd:dd:dd,ddd] occurs nowhere, and only then;
    otherwise it returns [H*3600000 + M*60000 + S*1000 + ms] read from the
    leftmost occurrence, whatever surrounds it. A string that is exactly
    [HH:MM:SS,mmm] is the case of empty surroundings. *)
Theorem timecodeToMs_leftmost_occurrence :
  ParseSubs.timecodeToMs None = None
  /\ (forall s,
        ParseSubs.timecodeToMs (Some s) = None <->
        forall pre post, s = pre ++ post -> ParseSubs.timecodeAt post = None)
  /\ (forall h1 h2 m1 m2 s1 s2 f1 f2 f3 pre post,
        h1 < 10 -> h2 < 10 -> m1 < 10 -> m2 < 10 -> s1 < 10 -> s2 < 10 ->
        f1 < 10 -> f2 < 10 -> f3 < 10 ->
        (forall p q, pre = p ++ q -> q <> [] ->
           ParseSubs.timecodeAt
             (q ++ Spec.timecodeText h1 h2 m1 m2 s1 s2 f1 f2 f3 ++ post) = None) ->
        ParseSubs.timecodeToMs
          (Some (pre ++ Spec.timecodeText h1 h2 m1 m2 s1 s2 f1 f2 f3 ++ post))
        = Some (Z.of_N (10 * h1 + h2) * 3600000
                + Z.of_N (10 * m1 + m2) * 60000
                + Z.of_N (10 * s1 + s2) * 1000
                + Z.of_N (100 * f1 + 10 * f2 + f3))%Z).
Proof.
  split; [reflexivity|]. split.
  - intros s. rewrite <- matchTimecode_None.
    unfold ParseSubs.timecodeToMs. destruct s as [|c r]; [easy|].
    destruct (ParseSubs.matchTimecode (c :: r)) as [[[[hh mm] ss] ms]|];
      easy.
  - intros h1 h2 m1 m2 s1 s2 f1 f2 f3 pre post
      ? ? ? ? ? ? ? ? ? Hearlier.
    unfold ParseSubs.timecodeToMs.
    rewrite (matchTimecode_leftmost pre _ _ Hearlier
               (timecodeAt_text h1 h2 m1 m2 s1 s2 f1 f2 f3 post
                  ltac:(assumption) ltac:(assumption) ltac:(assumption)
                  ltac:(assumption) ltac:(assumption) ltac:(assumption)
                  ltac:(assumption) ltac:(assumption) ltac:(assumption))).
    rewrite !digitsValue_two, digitsValue_three.
    destruct (pre ++ Spec.timecodeText h1 h2 m1 m2 s1 s2 f1 f2 f3 ++ post)
      eqn:E.
    + destruct pre; discriminate E.
    + f_equal. lia.
Qed.

(** The exact text [01:02:03,456] gives 3723456 milliseconds. *)
Lemma timecodeToMs_leftmost_occurrence_witness :
  ParseSubs.timecodeToMs (Some (lit "01:02:03,456")) = Some 3723456%Z.
Proof.
  refine (proj2 (proj2 timecodeToMs_leftmost_occurrence)
            0 1 0 2 0 3 4 5 6 [] [] _ _ _ _ _ _ _ _ _ _);
    try reflexivity.
  intros p q E Hq. symmetry in E. apply app_eq_nil in E as [_ ->].
  now destruct Hq.
Defined.

(** C6, as stated, fails: a string that is not of the form [HH:MM:SS,mmm]
    but contains such a text is decoded, not answered with [null]. *)
Lemma timecodeToMs_not_anchored :
  ~ (forall s, Spec.wellFormedTimecode s = false ->
               ParseSubs.timecodeToMs (Some s) = None).
Proof.
  intros H.
  specialize (H (lit "00:00:02,500 X1:100") eq_refl).
  vm_compute in H. discriminate H.
Qed.

(** ** Subtitle parser: blocks *)

Section Blocks.

Import Spec.
Local Open Scope N_scope.

(** Without two line feeds in a row the scan never cuts. *)
Lemma splitNewlineRunsFrom_whole s : forall cur,
  hasNewlineRun s = false ->
  splitNewlineRunsFrom false cur s = [rev cur ++ s].
Proof.
  induction s as [|c r IH]; intros cur H.
  - simpl. now rewrite app_nil_r.
  - cbn [hasNewlineRun] in H. apply orb_false_elim in H as [Hc Hr].
    cbn [splitNewlineRunsFrom].
    assert (Hnext : splitNewlineRunsFrom false (c :: cur) r
                    = [rev cur ++ c :: r]).
    { rewrite IH by exact Hr. simpl. now rewrite <- app_assoc. }
    destruct (c =? LF); [|exact Hnext].
    destruct r as [|d r']; [exact Hnext|].
    simpl in Hc. now rewrite Hc.
Qed.

(** Up to the first run the scan collects the piece and then cuts. *)
Lemma splitNewlineRunsFrom_piece p : forall cur tail,
  hasNewlineRun p = false -> last p <> Some LF ->
  splitNewlineRunsFrom false cur (p ++ LF :: LF :: tail)
  = (rev cur ++ p) :: splitNewlineRunsFrom true [] (LF :: tail).
Proof.
  induction p as [|c r IH]; intros cur tail Hrun Hlast.
  - simpl. now rewrite app_nil_r.
  - cbn [hasNewlineRun] in Hrun. apply orb_false_elim in Hrun as [Hc Hr].
    assert (Hlast' : last r <> Some LF).
    { destruct r as [|d r']; [discriminate|]. exact Hlast. }
    assert (Hnext : splitNewlineRunsFrom false (c :: cur)
                      (r ++ LF :: LF :: tail)
                    = (rev cur ++ c :: r)
                        :: splitNewlineRunsFrom true [] (LF :: tail)).
    { rewrite IH by assumption. simpl. now rewrite <- app_assoc. }
    cbn [app splitNewlineRunsFrom].
    destruct (N.eqb_spec c LF) as [->|Hne]; [|exact Hnext].
    destruct r as [|d r']; [now destruct Hlast|].
    simpl in Hc. cbn [app]. rewrite Hc. exact Hnext.
Qed.

(** Inside a run the line feeds are passed over; the scan then starts
    afresh. *)
Lemma splitNewlineRunsFrom_run k rest :
  head rest <> Some LF ->
  splitNewlineRunsFrom true [] (repeat LF k ++ rest)
  = splitNewlineRunsFrom false [] rest.
Proof.
  intros Hhead. induction k as [|k IH]; [|exact IH].
  destruct rest as [|c r]; [reflexivity|].
  cbn [app repeat splitNewlineRunsFrom].
  destruct (N.eqb_spec c LF) as [->|_]; [now destruct Hhead|reflexivity].
Qed.

End Blocks.

(** C5, as the code has it. The text is cut at every maximal run of two or
    more line feeds, that is at one or more empty lines: a text without such
    a run is one block, and a piece followed by a run of [k + 2] line feeds
    is a block of its own. So two caption units with a single empty line
    between them are two blocks. *)
Theorem splitNewlineRuns_on_line_feed_runs :
  (forall s, Spec.hasNewlineRun s = false -> splitNewlineRuns s = [s])
  /\ (forall p k rest,
        Spec.hasNewlineRun p = false -> last p <> Some LF ->
        head rest <> Some LF ->
        splitNewlineRuns (p ++ repeat LF (S (S k)) ++ rest)
        = p :: splitNewlineRuns rest)
  /\ (forall a b,
        Spec.hasNewlineRun a = false -> last a <> Some LF ->
        Spec.hasNewlineRun b = false -> head b <> Some LF ->
        splitNewlineRuns (a ++ [LF; LF] ++ b) = [a; b]).
Proof.
  assert (Hcut : forall p k rest,
             Spec.hasNewlineRun p = false -> last p <> Some LF ->
             head rest <> Some LF ->
             splitNewlineRuns (p ++ repeat LF (S (S k)) ++ rest)
             = p :: splitNewlineRuns rest).
  { intros p k rest Hp Hlast Hhead. unfold splitNewlineRuns.
    cbn [repeat app].
    rewrite splitNewlineRunsFrom_piece by assumption.
    change (LF :: repeat LF k ++ rest) with (repeat LF (S k) ++ rest).
    now rewrite (splitNewlineRunsFrom_run (S k) rest Hhead). }
  split; [|split].
  - intros s H. unfold splitNewlineRuns.
    now rewrite splitNewlineRunsFrom_whole.
  - exact Hcut.
  - intros a b Ha Hla Hb Hhb.
    change [LF; LF] with (repeat LF 2).
    rewrite (Hcut a O b) by assumption.
    unfold splitNewlineRuns. now rewrite splitNewlineRunsFrom_whole.
Qed.

(** Two numbered captions with one empty line between them. *)
Lemma splitNewlineRuns_on_line_feed_runs_witness :
  splitNewlineRuns (lit "1
A" ++ [LF; LF] ++ lit "2
B") = [lit "1
A"; lit "2
B"].
Proof.
  apply (proj2 (proj2 splitNewlineRuns_on_line_feed_runs));
    first [reflexivity | discriminate].
Defined.

(** C5, as stated, fails: one empty line between two caption units does
    separate them, and the parser produces two entries. *)
Lemma single_blank_line_separates :
  ParseSubs.splitBlocks (lit "1
A

2
B") = [lit "1
A"; lit "2
B"]
  /\ length (ParseSubs.parseSrt (lit "1
A

2
B")) = 2%nat.
Proof. split; vm_compute; reflexivity. Qed.

(** ** Subtitle parser: the caption number *)

(** C4 on a block that starts with its time range: [parseInt] reads the
    hour digits of the range line as the caption number, so the line is
    consumed as [rawId = 0] and the entry has no timecodes. *)
Lemma range_line_taken_as_caption_number :
  parseInt (trim (lit "00:00:01,000 --> 00:00:02,500")) = Int 0
  /\ ParseSubs.parseSrt (lit "00:00:01,000 --> 00:00:02,500
こんにちは")
     = [ {| ParseSubs.index := 1;
            ParseSubs.rawId := 0;
            ParseSubs.start := None;
            ParseSubs.end_ := None;
            ParseSubs.startMs := None;
            ParseSubs.endMs := None;
            ParseSubs.text := lit "こんにちは" |} ].
Proof. split; vm_compute; reflexivity. Qed.

(** ** Subtitle parser and card builder: numbering *)

Section Numbering.

Import ParseSubs Spec.

(** Once the cursor stands on the text lines, an empty selection leaves
    the entries alone and any other appends the entry made of it. *)
Ltac close_block :=
  destruct (List.filter nonEmpty _);
  [left; reflexivity|right; eexists; split; reflexivity].

(** A turn of the loop leaves the entries alone or appends one whose index
    is the next position. *)
Lemma parseBlock_step entries block :
  parseBlock entries block = entries
  \/ exists e, parseBlock entries block = entries ++ [e]
               /\ index e = (Z.of_nat (length entries) + 1)%Z.
Proof.
  unfold parseBlock.
  destruct (findIndex _ (splitChar LF block)) as [first|]; [|now left].
  destruct (parseInt (trim (nth first (splitChar LF block) [])))
    as [declared| | |]; cbv zeta;
    try destruct (isFinite (Int declared));
    match goal with
    | |- context [splitChar LF block !! ?cursor] =>
        destruct (splitChar LF block !! cursor) as [line|]; cbv zeta;
        [destruct (includes ARROW line)|]
    end; close_block.
Qed.

Lemma oneTo_snoc n : oneTo (S n) = oneTo n ++ [(Z.of_nat n + 1)%Z].
Proof.
  unfold oneTo. rewrite seq_S, map_app. simpl. do 2 f_equal. lia.
Qed.

Lemma parse_blocks_numbering blocks : forall entries,
  map index entries = oneTo (length entries) ->
  let result := fold_left parseBlock blocks entries in
  map index result = oneTo (length result).
Proof.
  induction blocks as [|block blocks IH]; intros entries Hentries.
  - exact Hentries.
  - cbn [fold_left].
    destruct (parseBlock_step entries block) as [->|(e & -> & Hindex)].
    + now apply IH.
    + apply IH.
      rewrite map_app, length_app, Nat.add_1_r, oneTo_snoc.
      simpl. now rewrite Hentries, Hindex.
Qed.

Lemma buildCardsFrom_numbering subtitles : forall from,
  map id (buildCardsFrom from subtitles)
  = map Z.of_nat (seq (S from) (length subtitles))
  /\ Forall2 carries subtitles (buildCardsFrom from subtitles).
Proof.
  induction subtitles as [|entry rest IH]; intros from.
  - split; constructor.
  - destruct (IH (S from)) as [Hid Hcarry]. split.
    + simpl. rewrite Hid. f_equal. lia.
    + constructor; [|exact Hcarry]. repeat split.
Qed.

End Numbering.

(** C7 on a file of two captions without number and time range, the second
    of which starts with a digit: [parseInt] reads the digit as the caption
    number, the line is consumed as [rawId = 2] and no text is left, so the
    caption gives no entry and no card. Two blocks hold a text; the parser
    returns one entry and the card builder one card. *)
Lemma caption_starting_with_digit_dropped :
  ParseSubs.splitBlocks (lit "こんにちは

2時です") = [lit "こんにちは"; lit "2時です"]
  /\ parseInt (trim (lit "2時です")) = Int 2
  /\ ParseSubs.parseBlock [] (lit "2時です") = []
  /\ ParseSubs.parseSrt (lit "こんにちは

2時です")
     = [ {| ParseSubs.index := 1;
            ParseSubs.rawId := 1;
            ParseSubs.start := None;
            ParseSubs.end_ := None;
            ParseSubs.startMs := None;
            ParseSubs.endMs := None;
            ParseSubs.text := lit "こんにちは" |} ]
  /\ map ParseSubs.id
       (ParseSubs.buildCards (ParseSubs.parseSrt (lit "こんにちは

2時です"))) = [1%Z].
Proof. repeat split; vm_compute; reflexivity. Qed.

(** ** Translation resolver *)

Section Resolver.

Import Enrich Spec.

Lemma truthy_Some t : t <> [] -> truthy (Some t) = true.
Proof. now destruct t. Qed.

Lemma truthy_true o : truthy o = true -> exists c t, o = Some (c :: t).
Proof. destruct o as [[|c t]|]; try discriminate. eauto. Qed.

Lemma nonEmpty_true (s : jsstring) : nonEmpty s = true <-> s <> [].
Proof. destruct s; simpl; split; congruence. Qed.

Lemma pickTranslation_None card st :
  noHintMatches card st <-> pickTranslation card st = None.
Proof.
  unfold noHintMatches, pickTranslation.
  destruct (byId st !! _) as [t|]; [split; [intros [? _]|]; discriminate|].
  destruct (subtitleId card ≫= _) as [t|];
    [split; [intros (_ & ? & _)|]; discriminate|].
  destruct (trim (default [] (sentence card))) as [|c s] eqn:E; simpl.
  - split; auto.
  - split.
    + intros (_ & _ & [H|H]); [discriminate|exact H].
    + auto.
Qed.

Lemma pickTranslation_nonEmpty card st t :
  hintsNonEmpty st -> pickTranslation card st = Some t -> t <> [].
Proof.
  intros (H1 & H2 & H3). unfold pickTranslation.
  destruct (byId st !! _) as [t1|] eqn:E1.
  { intros [= <-]. exact (H1 _ _ E1). }
  destruct (subtitleId card) as [sid|]; simpl.
  - destruct (bySubtitleId st !! _) as [t2|] eqn:E2.
    { intros [= <-]. exact (H2 _ _ E2). }
    destruct (nonEmpty _); [|discriminate].
    intros E3. exact (H3 _ _ E3).
  - destruct (nonEmpty _); [|discriminate].
    intros E3. exact (H3 _ _ E3).
Qed.

(** What tiers 1 to 5 leave in [translation] and [translationSource], and
    the decision to call the translator. *)
Lemma resolveCard_prior card tokenizer dictionary st translator replace :
  let r := resolveCard card tokenizer dictionary st translator replace in
  let picked := pickTranslation card st in
  let cardTranslation := trim (default [] (translation card)) in
  let enabled := bool_decide (is_Some translator) in
  breakdown r = breakdownOf card tokenizer dictionary
  /\ (priorTranslation r, priorSource r)
     = (if truthy picked then (default [] picked, SrcHint)
        else if nonEmpty cardTranslation && (negb enabled || negb replace)
        then (cardTranslation, SrcCard)
        else (buildLiteralTranslation (breakdownOf card tokenizer dictionary),
              SrcLiteral))
  /\ shouldAutoTranslate r
     = enabled && (negb (nonEmpty (priorTranslation r))
                   || (replace && negb (isHint (priorSource r)))).
Proof.
  cbv zeta. unfold resolveCard, breakdownOf.
  destruct (truthy (pickTranslation card st));
    [|destruct (nonEmpty _ && _)];
    cbv beta iota zeta;
    (match goal with
     | |- context [match (if ?c then translator else None) with _ => _ end] =>
         destruct (if c then translator else None) as [translate|];
         [destruct (translate card) as [[[|c0 g]|] warnings]|]
     end; repeat split).
Qed.

(** What the call of the translator, when it is made, changes. *)
Lemma resolveCard_final card tokenizer dictionary st translator replace :
  let r := resolveCard card tokenizer dictionary st translator replace in
  (finalTranslation r, translationSource r, translationsAfter r, warned r)
  = match (if shouldAutoTranslate r then translator else None) with
    | None => (priorTranslation r, priorSource r, st, [])
    | Some translate =>
        match translate card with
        | (Some (c :: g), warnings) =>
            (c :: g, SrcDeepl, registerGeneratedTranslation st card (c :: g),
             warnings)
        | (_, warnings) => (priorTranslation r, priorSource r, st, warnings)
        end
    end.
Proof.
  cbv zeta. destruct translator as [translate|].
  - destruct (translate card) as [generated warnings] eqn:Et.
    unfold resolveCard.
    destruct (truthy (pickTranslation card st));
      [|destruct (nonEmpty _ && _)];
      cbv beta iota zeta;
      (match goal with
       | |- context [match (if ?c then Some translate else None)
                     with _ => _ end] => destruct c
       end;
       cbv beta iota zeta; rewrite ?Et;
       destruct generated as [[|c0 g]|];
       cbn [shouldAutoTranslate priorTranslation priorSource
            finalTranslation translationSource translationsAfter warned];
       rewrite ?Et; reflexivity).
  - unfold resolveCard.
    destruct (truthy (pickTranslation card st));
      [|destruct (nonEmpty _ && _)];
      cbv beta iota zeta;
      (match goal with
       | |- context [match (if ?c then None else None) with _ => _ end] =>
           destruct c
       end; reflexivity).
Qed.

(** A hint that matched is the result: the translator is not called. *)
Lemma resolveCard_hint card tokenizer dictionary st translator replace t :
  pickTranslation card st = Some t -> t <> [] ->
  let r := resolveCard card tokenizer dictionary st translator replace in
  finalTranslation r = t /\ translationSource r = SrcHint
  /\ translationsAfter r = st /\ warned r = [].
Proof.
  intros Hpick Ht. cbv zeta.
  pose proof (resolveCard_prior card tokenizer dictionary st translator replace)
    as (_ & Hprior & Hshould).
  pose proof (resolveCard_final card tokenizer dictionary st translator replace)
    as Hfinal.
  cbv zeta in Hprior, Hshould, Hfinal.
  rewrite Hpick, (truthy_Some t Ht) in Hprior. simpl in Hprior.
  injection Hprior as Hp Hs.
  rewrite Hp, Hs in Hshould. simpl in Hshould.
  rewrite (proj2 (nonEmpty_true t) Ht), andb_false_r in Hshould.
  simpl in Hshould. rewrite andb_false_r in Hshould.
  rewrite Hshould, Hp, Hs in Hfinal.
  now injection Hfinal as -> -> -> ->.
Qed.

(** When no hint is returned, the card's own translation is the result
    exactly if it is not blank and the translator is absent or told to keep
    existing values. *)
Lemma resolveCard_card card tokenizer dictionary st translator replace :
  pickTranslation card st = None ->
  let r := resolveCard card tokenizer dictionary st translator replace in
  let cardTranslation := trim (default [] (translation card)) in
  (translationSource r = SrcCard <->
   cardTranslation <> [] /\ (translator = None \/ replace = false))
  /\ (translationSource r = SrcCard -> finalTranslation r = cardTranslation).
Proof.
  intros Hpick. cbv zeta.
  pose proof (resolveCard_prior card tokenizer dictionary st translator replace)
    as (_ & Hprior & Hshould).
  pose proof (resolveCard_final card tokenizer dictionary st translator replace)
    as Hfinal.
  cbv zeta in Hprior, Hshould, Hfinal.
  rewrite Hpick in Hprior. cbn [truthy] in Hprior.
  destruct (trim (default [] (translation card))) as [|c ct] eqn:Ect.
  - (* blank: the literal fallback was taken *)
    cbn in Hprior. injection Hprior as Hp Hs.
    assert (Hne : translationSource
                    (resolveCard card tokenizer dictionary st translator replace)
                  <> SrcCard).
    { destruct (if shouldAutoTranslate _ then translator else None)
        as [translate|].
      - destruct (translate card) as [[[|c0 g]|] warnings];
          injection Hfinal as _ -> _ _; congruence.
      - injection Hfinal as _ -> _ _. congruence. }
    split; [split|]; [contradiction|intros [H _]; now destruct H|contradiction].
  - destruct translator as [translate|], replace;
      cbn in Hprior; injection Hprior as Hp Hs;
      rewrite Hp, Hs in Hshould; cbn in Hshould;
      rewrite ?orb_true_r in Hshould;
      rewrite Hshould in Hfinal; cbn in Hfinal.
    + (* translator present and told to replace *)
      assert (Hne : translationSource
                      (resolveCard card tokenizer dictionary st
                         (Some translate) true) <> SrcCard).
      { destruct (translate card) as [[[|c0 g]|] warnings];
          cbn in Hfinal; injection Hfinal as _ -> _ _; congruence. }
      split; [split|];
        [contradiction|intros [_ [H|H]]; discriminate|contradiction].
    + injection Hfinal as -> -> _ _. rewrite Hp, Hs.
      intuition (auto; discriminate).
    + injection Hfinal as -> -> _ _. rewrite Hp, Hs.
      intuition (auto; discriminate).
    + injection Hfinal as -> -> _ _. rewrite Hp, Hs.
      intuition (auto; discriminate).
Qed.

(** *** The stored hints are never empty *)

Lemma emptyState_nonEmpty path : hintsNonEmpty (emptyState path).
Proof. repeat split; apply map_Forall_empty. Qed.

Lemma sanitizeTranslationEntry_nonEmpty entryLike e :
  sanitizeTranslationEntry entryLike = Some e -> entryTranslation e <> [].
Proof.
  unfold sanitizeTranslationEntry.
  destruct entryLike as [| | | | |maybe]; try discriminate.
  destruct (getField _ maybe) as [[| | |raw| |]|]; try discriminate.
  destruct (nonEmpty (trim raw)) eqn:E; [|discriminate].
  intros [= <-]. simpl. now apply nonEmpty_true.
Qed.

Lemma registerEntry_nonEmpty st entryLike :
  hintsNonEmpty st -> hintsNonEmpty (registerEntry st entryLike).
Proof.
  intros (H1 & H2 & H3). unfold registerEntry.
  destruct (sanitizeTranslationEntry entryLike) as [e|] eqn:E;
    [|now repeat split].
  apply sanitizeTranslationEntry_nonEmpty in E.
  repeat split; simpl.
  - destruct (entryId e); [now apply map_Forall_insert_2|exact H1].
  - destruct (entrySubtitleId e); [now apply map_Forall_insert_2|exact H2].
  - destruct (entrySentence e) as [[|c s]|];
      [exact H3|now apply map_Forall_insert_2|exact H3].
Qed.

Lemma fold_left_invariant {A B} (P : A -> Prop) (f : A -> B -> A) l :
  (forall a b, P a -> P (f a b)) -> forall a, P a -> P (fold_left f l a).
Proof. intros Hf. induction l as [|b l IH]; simpl; auto. Qed.

Lemma loadTranslationHints_nonEmpty path file :
  hintsNonEmpty (loadTranslationHints path file).1.
Proof.
  unfold loadTranslationHints.
  destruct path as [p|]; [|apply emptyState_nonEmpty].
  destruct file as [raw|]; [|apply emptyState_nonEmpty]. simpl.
  destruct raw; try apply emptyState_nonEmpty.
  - apply fold_left_invariant; [|apply emptyState_nonEmpty].
    intros; now apply registerEntry_nonEmpty.
  - apply fold_left_invariant; [|apply emptyState_nonEmpty].
    intros st [k v] Hst. simpl.
    destruct v; try exact Hst; now apply registerEntry_nonEmpty.
Qed.

Lemma registerGeneratedTranslation_nonEmpty st card t :
  t <> [] -> hintsNonEmpty st ->
  hintsNonEmpty (registerGeneratedTranslation st card t).
Proof.
  intros Ht (H1 & H2 & H3). unfold registerGeneratedTranslation.
  repeat split; simpl.
  - now apply map_Forall_insert_2.
  - destruct (subtitleId card); [now apply map_Forall_insert_2|exact H2].
  - destruct (trim (default [] (sentence card)));
      [exact H3|now apply map_Forall_insert_2].
Qed.

Lemma resolveCard_nonEmpty card tokenizer dictionary st translator replace :
  hintsNonEmpty st ->
  hintsNonEmpty
    (translationsAfter
       (resolveCard card tokenizer dictionary st translator replace)).
Proof.
  intros Hst.
  pose proof (resolveCard_final card tokenizer dictionary st translator replace)
    as Hfinal.
  cbv zeta in Hfinal.
  destruct (if shouldAutoTranslate _ then translator else None)
    as [translate|].
  - destruct (translate card) as [[[|c g]|] warnings];
      injection Hfinal as _ _ -> _; try exact Hst.
    now apply registerGeneratedTranslation_nonEmpty.
  - now injection Hfinal as _ _ -> _.
Qed.

End Resolver.

(** C1. The hints are tried in a fixed order: the one under the card's [id]
    (as a string), then the one under its [subtitleId], then the one under
    its trimmed sentence; the first that is present is what
    [pickTranslation] returns, and it returns [null] exactly when none is.
    With the hint texts non-empty, as the loader and the resolver store them,
    a returned hint is the card's translation whatever the card's own
    [translation] is, and the card's own trimmed translation is the result
    exactly when no hint matched, it is not blank, and the translator is
    absent or configured to keep existing values. *)
Theorem translation_priority
    (card : Enrich.CardRecord) (st : Enrich.TranslationState)
    (tokenizer : Enrich.KuromojiTokenizer)
    (dictionary : gmap jsstring Enrich.DictionaryEntry)
    (translator : option Enrich.TranslatorFn) (replace : bool) :
  let key := stringOfNumber (Enrich.id card) in
  let sentenceKey := trim (default [] (Enrich.sentence card)) in
  let r := Enrich.resolveCard card tokenizer dictionary st translator replace in
  (forall t, Enrich.byId st !! key = Some t ->
             Enrich.pickTranslation card st = Some t)
  /\ (forall sid t,
        Enrich.byId st !! key = None ->
        Enrich.subtitleId card = Some sid ->
        Enrich.bySubtitleId st !! stringOfNumber sid = Some t ->
        Enrich.pickTranslation card st = Some t)
  /\ (forall t,
        Enrich.byId st !! key = None ->
        Enrich.subtitleId card ≫=
          (fun sid => Enrich.bySubtitleId st !! stringOfNumber sid) = None ->
        sentenceKey <> [] ->
        Enrich.bySentence st !! sentenceKey = Some t ->
        Enrich.pickTranslation card st = Some t)
  /\ (Spec.noHintMatches card st <-> Enrich.pickTranslation card st = None)
  /\ (Spec.hintsNonEmpty st ->
      (forall t, Enrich.pickTranslation card st = Some t ->
                 Enrich.finalTranslation r = t
                 /\ Enrich.translationSource r = Enrich.SrcHint)
      /\ (Enrich.translationSource r = Enrich.SrcCard <->
          Spec.noHintMatches card st
          /\ trim (default [] (Enrich.translation card)) <> []
          /\ (translator = None \/ replace = false))
      /\ (Enrich.translationSource r = Enrich.SrcCard ->
          Enrich.finalTranslation r
          = trim (default [] (Enrich.translation card)))).
Proof.
  cbv zeta. split; [|split; [|split; [|split]]].
  - intros t H. unfold Enrich.pickTranslation. now rewrite H.
  - intros sid t H1 H2 H3. unfold Enrich.pickTranslation.
    rewrite H1, H2. simpl. now rewrite H3.
  - intros t H1 H2 H3 H4. unfold Enrich.pickTranslation.
    rewrite H1, H2. now rewrite (proj2 (nonEmpty_true _) H3).
  - apply pickTranslation_None.
  - intros Hne.
    assert (Hhint : forall t,
               Enrich.pickTranslation card st = Some t ->
               Enrich.finalTranslation
                 (Enrich.resolveCard card tokenizer dictionary st translator
                    replace) = t
               /\ Enrich.translationSource
                    (Enrich.resolveCard card tokenizer dictionary st translator
                       replace) = Enrich.SrcHint).
    { intros t Hpick.
      pose proof (pickTranslation_nonEmpty card st t Hne Hpick) as Ht.
      destruct (resolveCard_hint card tokenizer dictionary st translator
                  replace t Hpick Ht) as (H1 & H2 & _).
      now split. }
    split; [exact Hhint|].
    destruct (Enrich.pickTranslation card st) as [t|] eqn:Hpick.
    + destruct (Hhint t eq_refl) as [_ Hsrc]. rewrite Hsrc.
      split; [split|]; try discriminate.
      intros (Hnone & _). apply pickTranslation_None in Hnone. congruence.
    + pose proof (resolveCard_card card tokenizer dictionary st translator
                    replace Hpick) as [Hiff Hfinal].
      cbv zeta in Hiff, Hfinal.
      pose proof (proj2 (pickTranslation_None card st) Hpick) as Hnone.
      split; [|exact Hfinal]. rewrite Hiff. tauto.
Qed.

(** The hint file [{"5": "Hello there"}] decides the translation of card 5,
    although the card brings a translation of its own. *)
Lemma translation_priority_witness :
  Enrich.finalTranslation
    (Enrich.resolveCard Samples.card5 Samples.wholeSentence ∅
       Samples.helloState None true) = lit "Hello there"
  /\ Enrich.translationSource
       (Enrich.resolveCard Samples.card5 Samples.wholeSentence ∅
          Samples.helloState None true) = Enrich.SrcHint.
Proof.
  refine (proj1 (proj2 (proj2 (proj2 (proj2
            (translation_priority Samples.card5 Samples.helloState
               Samples.wholeSentence ∅ None true)))) _) _ _).
  - apply loadTranslationHints_nonEmpty.
  - vm_compute. reflexivity.
Defined.

(** ** Failure of the translation service *)

Section ServiceFailure.

Import Enrich Spec.

(** The translator answers [null] for a card whose sentence the service
    rejects, and writes the warning when it did call the service. *)
Lemma translator_rejected key service formality glossaryId translate card message :
  createDeepLTranslator key service formality glossaryId = Ok translate ->
  service (trim (default [] (sentence card))) (formalityOption formality)
    glossaryId = Throw message ->
  translate card
  = (None, if nonEmpty (trim (default [] (sentence card)))
           then [failureWarning card message] else []).
Proof.
  unfold createDeepLTranslator, formalityOption.
  destruct key as [[|c k]|]; try discriminate.
  intros [= <-] Hservice.
  destruct (nonEmpty _); [|reflexivity].
  now rewrite Hservice.
Qed.

(** The loop of [main] enriches every card. *)
Lemma enrich_loop_length tokenizer dictionary translator replace cards :
  forall acc,
    length (fold_left (enrichNext tokenizer dictionary translator replace)
              cards acc).1.1
    = (length acc.1.1 + length cards)%nat.
Proof.
  induction cards as [|card cards IH]; intros [[enriched st] log].
  - simpl. lia.
  - cbn [fold_left]. rewrite IH. unfold enrichNext, enrichCard.
    simpl. rewrite length_app. simpl. lia.
Qed.

Lemma shouldAutoTranslate_not_hint card tokenizer dictionary st translator replace :
  let r := resolveCard card tokenizer dictionary st translator replace in
  shouldAutoTranslate r = true -> priorSource r <> SrcHint.
Proof.
  cbv zeta.
  pose proof (resolveCard_prior card tokenizer dictionary st translator replace)
    as (_ & Hprior & Hshould).
  cbv zeta in Hprior, Hshould. intros Htrue Hsrc.
  rewrite Htrue, Hsrc in Hshould.
  destruct (truthy (pickTranslation card st)) eqn:Ht.
  - injection Hprior as Hp _.
    apply truthy_true in Ht as (c & t & Ht). rewrite Ht in Hp.
    simpl in Hp. rewrite Hp in Hshould. simpl in Hshould.
    rewrite !andb_false_r in Hshould. discriminate.
  - destruct (nonEmpty _ && _); injection Hprior as _ Hs; congruence.
Qed.

End ServiceFailure.

(** C2. When the service rejects the call for a card, the card keeps the
    translation found by tiers 1 to 5 (which is then a tier 4/5 one: the
    service is only called when no hint matched), the hint state is
    unchanged, and the warning written names the card by its [subtitleId],
    or its [id] when it has none. The run completes and writes its output
    whatever the service answers, once the analyser, the credential and the
    card file are there. A hint that matched is the result, with or without
    force-replace, and the service is not called. *)
Theorem translator_failure_keeps_result :
  (forall card st tokenizer dictionary replace key service formality glossaryId
          translate message,
      Enrich.createDeepLTranslator key service formality glossaryId
        = Enrich.Ok translate ->
      service (trim (default [] (Enrich.sentence card)))
        (Spec.formalityOption formality) glossaryId = Enrich.Throw message ->
      let r := Enrich.resolveCard card tokenizer dictionary st (Some translate)
                 replace in
      let enriched := Enrich.enrichCard card tokenizer dictionary st
                        (Some translate) replace in
      let cardTranslation := trim (default [] (Enrich.translation card)) in
      Enrich.finalTranslation r = Enrich.priorTranslation r
      /\ Enrich.translationSource r = Enrich.priorSource r
      /\ Enrich.translationsAfter r = st
      /\ (Enrich.priorTranslation r, Enrich.priorSource r)
         = (if Enrich.truthy (Enrich.pickTranslation card st)
            then (default [] (Enrich.pickTranslation card st), Enrich.SrcHint)
            else if nonEmpty cardTranslation && negb replace
            then (cardTranslation, Enrich.SrcCard)
            else (Enrich.buildLiteralTranslation
                    (Spec.breakdownOf card tokenizer dictionary),
                  Enrich.SrcLiteral))
      /\ (Enrich.shouldAutoTranslate r = true ->
          Enrich.priorSource r <> Enrich.SrcHint
          /\ (trim (default [] (Enrich.sentence card)) <> [] ->
              enriched.2 = [Spec.failureWarning card message]))
      /\ Enrich.translation enriched.1.1 = Some (Enrich.priorTranslation r)
      /\ enriched.1.2 = st)
  /\ (forall options env tokenizer cards,
        Enrich.kuromojiBuild env = Enrich.Ok tokenizer ->
        Enrich.cardsFile env = Enrich.Ok cards ->
        (Enrich.autoTranslate options = true ->
         exists c k, Enrich.DEEPL_API_KEY env = Some (c :: k)) ->
        exists out,
          Enrich.main options env = Enrich.Ok out
          /\ (Enrich.jsonWritten out).1 = Enrich.outputJsonPath options
          /\ length (Enrich.jsonWritten out).2 = length cards
          /\ Enrich.tsvWritten out
             = (if Enrich.writeTsv options
                then Some (Enrich.tsvPath options,
                           Enrich.cardsToTsv (Enrich.jsonWritten out).2)
                else None))
  /\ (forall card st tokenizer dictionary translator replace t,
        Enrich.pickTranslation card st = Some t -> t <> [] ->
        let r := Enrich.resolveCard card tokenizer dictionary st translator
                   replace in
        Enrich.finalTranslation r = t
        /\ Enrich.translationSource r = Enrich.SrcHint
        /\ Enrich.translationsAfter r = st
        /\ Enrich.warned r = []).
Proof.
  split; [|split].
  - intros card st tokenizer dictionary replace key service formality
      glossaryId translate message Hcreate Hservice. cbv zeta.
    pose proof (translator_rejected _ _ _ _ _ card _ Hcreate Hservice) as Hcall.
    pose proof (resolveCard_prior card tokenizer dictionary st (Some translate)
                  replace) as (_ & Hprior & _).
    pose proof (resolveCard_final card tokenizer dictionary st (Some translate)
                  replace) as Hfinal.
    pose proof (shouldAutoTranslate_not_hint card tokenizer dictionary st
                  (Some translate) replace) as Hnot.
    cbv zeta in Hprior, Hfinal, Hnot.
    unfold Enrich.enrichCard. cbn [fst snd Enrich.translation].
    destruct (Enrich.shouldAutoTranslate _) eqn:Hshould;
      cbv beta iota zeta in Hfinal; rewrite ?Hcall in Hfinal;
      injection Hfinal as Hf Hs Hst Hw; rewrite Hf, Hs, Hst.
    + repeat split; try assumption.
      * now apply Hnot.
      * intros Hsentence. rewrite Hw.
        now rewrite (proj2 (nonEmpty_true _) Hsentence).
    + repeat split; try assumption; discriminate.
  - intros options env tokenizer cards Hbuild Hcards Hkey.
    unfold Enrich.main. rewrite Hbuild, Hcards.
    destruct (Enrich.loadDictionary _ _) as [dictionary log1].
    destruct (Enrich.loadTranslationHints _ _) as [translations log2].
    assert (Htranslator :
              exists translator,
                (if Enrich.autoTranslate options
                 then match Enrich.createDeepLTranslator
                              (Enrich.DEEPL_API_KEY env) (Enrich.translateText env)
                              (Enrich.deeplFormality options)
                              (Enrich.deeplGlossaryId options) with
                      | Enrich.Ok translate => Enrich.Ok (Some translate)
                      | Enrich.Throw e => Enrich.Throw e
                      end
                 else Enrich.Ok None) = Enrich.Ok translator).
    { destruct (Enrich.autoTranslate options); [|now eexists].
      destruct (Hkey eq_refl) as (c & k & ->). now eexists. }
    destruct Htranslator as [translator ->].
    pose proof (enrich_loop_length tokenizer dictionary translator
                  (Enrich.autoTranslateReplace options) cards
                  ([], translations, log1 ++ log2)) as Hlen.
    destruct (fold_left _ cards _) as [[enriched st'] log3].
    eexists. split; [reflexivity|]. cbn [Enrich.jsonWritten Enrich.tsvWritten fst snd].
    repeat split. exact Hlen.
  - intros card st tokenizer dictionary translator replace t Hpick Ht.
    now apply resolveCard_hint.
Qed.

(** Card 5 with no hint, force-replace on and a service that rejects the
    call: the literal fallback stays and the warning names subtitle 7. *)
Lemma translator_failure_keeps_result_witness :
  let r := Enrich.resolveCard Samples.card5 Samples.wholeSentence ∅
             (Enrich.emptyState None) (Some Samples.rejectingTranslator) true in
  Enrich.finalTranslation r = Enrich.priorTranslation r
  /\ Enrich.finalTranslation r = lit "猫"
  /\ (Enrich.enrichCard Samples.card5 Samples.wholeSentence ∅
        (Enrich.emptyState None) (Some Samples.rejectingTranslator) true).2
     = [lit "DeepL translation failed for subtitle 7: Quota exceeded"].
Proof.
  cbv zeta.
  pose proof (proj1 translator_failure_keeps_result
                Samples.card5 (Enrich.emptyState None) Samples.wholeSentence ∅
                true (Some (lit "key")) Samples.quotaExceeded (lit "default")
                None Samples.rejectingTranslator (lit "Quota exceeded")
                eq_refl eq_refl)
    as (Hfinal & _ & _ & Hprior & Hwarn & _).
  cbv zeta in Hfinal, Hprior, Hwarn.
  split; [exact Hfinal|]. split.
  - rewrite Hfinal. exact (f_equal fst Hprior).
  - apply Hwarn; [reflexivity|discriminate].
Defined.

(** ** Frame of the enrichment *)

(** C8. [enrichCard] returns the card it was given with [translation] and
    [tokens] replaced: every other declared field and every extra property
    is the input's. *)
Theorem enrichCard_frame
    (card : Enrich.CardRecord) (tokenizer : Enrich.KuromojiTokenizer)
    (dictionary : gmap jsstring Enrich.DictionaryEntry)
    (st : Enrich.TranslationState) (translator : option Enrich.TranslatorFn)
    (replace : bool) :
  let enriched :=
    (Enrich.enrichCard card tokenizer dictionary st translator replace).1.1 in
  Enrich.id enriched = Enrich.id card
  /\ Enrich.subtitleId enriched = Enrich.subtitleId card
  /\ Enrich.sentence enriched = Enrich.sentence card
  /\ Enrich.romaji enriched = Enrich.romaji card
  /\ Enrich.furigana enriched = Enrich.furigana card
  /\ Enrich.startTime enriched = Enrich.startTime card
  /\ Enrich.endTime enriched = Enrich.endTime card
  /\ Enrich.startMs enriched = Enrich.startMs card
  /\ Enrich.endMs enriched = Enrich.endMs card
  /\ Enrich.extra enriched = Enrich.extra card.
Proof. cbv zeta. unfold Enrich.enrichCard. repeat split. Qed.

(** ** Translation cache *)

Section Cache.

Import Enrich Spec.

Implicit Types (m keyed : list (jsstring * TranslationEntry)).

Lemma mapGet_mapSet key entry m key' :
  mapGet key' (mapSet key entry m)
  = if bool_decide (key = key') then Some entry else mapGet key' m.
Proof.
  induction m as [|[k e] rest IH]; cbn [mapSet mapGet].
  - reflexivity.
  - repeat (case_bool_decide; cbn [mapGet]); try congruence.
Qed.

Lemma mapSet_keys key entry m :
  map fst (mapSet key entry m)
  = if bool_decide (key ∈ map fst m) then map fst m else map fst m ++ [key].
Proof.
  induction m as [|[k e] rest IH]; cbn [mapSet map fst].
  - case_bool_decide as H; [now apply not_elem_of_nil in H|reflexivity].
  - destruct (decide (k = key)) as [->|Hk].
    + rewrite (bool_decide_true (key = key)) by reflexivity.
      now rewrite bool_decide_true by (apply elem_of_cons; now left).
    + rewrite (bool_decide_false (k = key)) by assumption.
      cbn [map fst]. rewrite IH.
      rewrite (bool_decide_ext (key ∈ k :: map fst rest)
                 (key ∈ map fst rest))
        by (rewrite elem_of_cons; intuition congruence).
      now case_bool_decide.
Qed.

Lemma lastWith_snoc key keyed k e :
  lastWith key (keyed ++ [(k, e)])
  = if bool_decide (k = key) then Some e else lastWith key keyed.
Proof.
  induction keyed as [|[k0 e0] rest IH]; cbn [app lastWith].
  - reflexivity.
  - rewrite IH. now case_bool_decide.
Qed.

Lemma distinctKeys_elem_of key keys : key ∈ distinctKeys keys <-> key ∈ keys.
Proof.
  induction keys as [|k rest IH]; cbn [distinctKeys]; [tauto|].
  rewrite !elem_of_cons, <- IH, !list_elem_of_In, filter_In, negb_true_iff,
    bool_decide_eq_false.
  destruct (decide (key = k)); intuition congruence.
Qed.

Lemma distinctKeys_snoc keys key :
  distinctKeys (keys ++ [key])
  = if bool_decide (key ∈ keys) then distinctKeys keys
    else distinctKeys keys ++ [key].
Proof.
  induction keys as [|k rest IH]; cbn [app distinctKeys].
  - case_bool_decide as H; [now apply not_elem_of_nil in H|reflexivity].
  - rewrite IH.
    destruct (decide (key = k)) as [->|Hk].
    + rewrite (bool_decide_true (k ∈ k :: rest)) by (apply elem_of_cons; now left).
      case_bool_decide; [reflexivity|].
      rewrite List.filter_app. cbn [List.filter].
      rewrite bool_decide_true by reflexivity.
      cbn [negb]. now rewrite app_nil_r.
    + rewrite (bool_decide_ext (key ∈ k :: rest) (key ∈ rest))
        by (rewrite elem_of_cons; intuition congruence).
      case_bool_decide; [reflexivity|].
      rewrite List.filter_app. cbn [List.filter].
      now rewrite bool_decide_false by congruence.
Qed.

Lemma distinctKeys_NoDup keys : NoDup (distinctKeys keys).
Proof.
  induction keys as [|k rest IH]; cbn [distinctKeys]; constructor.
  - rewrite list_elem_of_In, filter_In, negb_true_iff, bool_decide_eq_false.
    tauto.
  - apply NoDup_ListNoDup, List.NoDup_filter, NoDup_ListNoDup, IH.
Qed.

(** Filing the keyed entries one after the other keeps one slot per key, in
    the order of first occurrence, holding the last entry filed. *)
Lemma file_all keyed :
  let m := fold_left (fun m kv => mapSet kv.1 kv.2 m) keyed [] in
  map fst m = distinctKeys (map fst keyed)
  /\ forall key, mapGet key m = lastWith key keyed.
Proof.
  induction keyed as [|[k e] rest IH] using rev_ind; [now split|].
  cbv zeta in *. rewrite fold_left_app. cbn [fold_left fst snd].
  destruct IH as [Hkeys Hget]. split.
  - rewrite mapSet_keys, Hkeys, map_app. cbn [map fst].
    rewrite distinctKeys_snoc.
    rewrite (bool_decide_ext _ _ (distinctKeys_elem_of k (map fst rest))).
    reflexivity.
  - intros key. now rewrite mapGet_mapSet, lastWith_snoc, Hget.
Qed.

Lemma values_by_key m :
  NoDup (map fst m) ->
  omap (fun key => mapGet key m) (map fst m) = map snd m.
Proof.
  induction m as [|[k e] rest IH]; [reflexivity|].
  cbn [map fst snd]. intros Hnodup.
  apply NoDup_cons in Hnodup as [Hk Hrest].
  cbn [omap list_omap mapGet]. rewrite bool_decide_true by reflexivity.
  f_equal. rewrite <- (IH Hrest).
  clear IH Hrest. induction (map fst rest) as [|k' ks IHks]; [reflexivity|].
  cbn [omap list_omap mapGet].
  rewrite not_elem_of_cons in Hk. destruct Hk as [Hne Hk].
  rewrite bool_decide_false by congruence.
  now rewrite (IHks Hk).
Qed.

Lemma omap_pointwise {A B} (f g : A -> option B) (l : list A) :
  (forall x, f x = g x) -> omap f l = omap g l.
Proof.
  intros H. induction l as [|x l IH]; [reflexivity|].
  cbn [omap list_omap]. now rewrite H, IH.
Qed.

(** The loop of [put] files the entries under the keys of [keysFrom]. *)
Lemma put_all entries : forall m n,
  (fold_left put entries (m, n)).1
  = fold_left (fun m kv => mapSet kv.1 kv.2 m) (keysFrom n entries) m.
Proof.
  induction entries as [|e rest IH]; intros m n; [reflexivity|].
  cbn [fold_left keysFrom fst snd]. unfold put at 2. cbn [fst snd].
  destruct (entryKey e n) as [key counter]. apply IH.
Qed.

Lemma merge_by_key existing additions :
  mergeTranslationEntries existing additions
  = mergedByKey (existing ++ additions).
Proof.
  unfold mergeTranslationEntries, mergedByKey. cbv zeta.
  rewrite <- fold_left_app, put_all.
  destruct (file_all (keysFrom 0 (existing ++ additions))) as [Hkeys Hget].
  cbv zeta in Hkeys, Hget.
  rewrite <- values_by_key by (rewrite Hkeys; apply distinctKeys_NoDup).
  rewrite Hkeys. now apply omap_pointwise.
Qed.

(** *** The keys *)

Lemma keysFrom_entries entries : forall n, map snd (keysFrom n entries) = entries.
Proof.
  induction entries as [|e rest IH]; intros n; [reflexivity|].
  cbn [keysFrom map snd]. now rewrite IH.
Qed.

Lemma entryKey_counter e n :
  (entryKey e n).2 = if anonymous e then S n else n.
Proof.
  unfold entryKey, anonymous.
  destruct (entrySubtitleId e), (entryId e), (entrySentence e) as [[|c s]|];
    reflexivity.
Qed.

Lemma keysFrom_lookup entries : forall n i e,
  entries !! i = Some e ->
  keysFrom n entries !! i
  = Some ((entryKey e (n + anonymousBefore i entries)).1, e).
Proof.
  induction entries as [|x rest IH]; intros n i e Hi; [discriminate|].
  destruct i as [|i].
  - injection Hi as ->. unfold anonymousBefore. cbn. now rewrite Nat.add_0_r.
  - cbn [keysFrom]. cbn in Hi |- *. rewrite (IH _ _ _ Hi).
    rewrite entryKey_counter. unfold anonymousBefore. cbn [take List.filter].
    destruct (anonymous x); cbn [length]; rewrite ?Nat.add_succ_r;
      reflexivity.
Qed.

Lemma anonymousBefore_grows entries : forall i j e,
  (i < j)%nat -> entries !! i = Some e -> anonymous e = true ->
  (anonymousBefore i entries < anonymousBefore j entries)%nat.
Proof.
  unfold anonymousBefore.
  induction entries as [|x rest IH]; intros i j e Hij Hi He; [discriminate|].
  destruct j as [|j]; [lia|]. destruct i as [|i].
  - injection Hi as ->. cbn [take List.filter]. rewrite He. cbn. lia.
  - cbn in Hi. specialize (IH i j e ltac:(lia) Hi He).
    cbn [take List.filter]. destruct (anonymous x); cbn [length]; lia.
Qed.

Lemma units_inj s1 s2 : units s1 = units s2 -> s1 = s2.
Proof.
  unfold units. intros H.
  rewrite <- (string_of_list_ascii_of_string s1),
          <- (string_of_list_ascii_of_string s2).
  f_equal. revert H.
  generalize (list_ascii_of_string s1) (list_ascii_of_string s2).
  induction l as [|a l IH]; intros [|b l']; try discriminate; [reflexivity|].
  cbn [map]. intros [= Hab Hl]. f_equal; [|now apply IH].
  rewrite <- (ascii_N_embedding a), <- (ascii_N_embedding b). now f_equal.
Qed.

Lemma stringOfInt_inj z1 z2 : stringOfInt z1 = stringOfInt z2 -> z1 = z2.
Proof. intros H. apply units_inj in H. now apply pretty_Z_inj in H. Qed.

Lemma entryKey_shape e n :
  match entrySubtitleId e, entryId e, entrySentence e with
  | Some sid, _, _ => (entryKey e n).1 = lit "subtitleId:" ++ stringOfId sid
  | None, Some i, _ => (entryKey e n).1 = lit "id:" ++ stringOfId i
  | None, None, Some (c :: s) => (entryKey e n).1 = lit "sentence:" ++ c :: s
  | None, None, _ =>
      (entryKey e n).1 = lit "anon:" ++ stringOfInt (Z.of_nat n)
  end.
Proof.
  unfold entryKey.
  destruct (entrySubtitleId e), (entryId e), (entrySentence e) as [[|c s]|];
    reflexivity.
Qed.

Lemma anonymous_key_apart e n e' n' :
  anonymous e = true -> n <> n' -> (entryKey e n).1 <> (entryKey e' n').1.
Proof.
  intros He Hn.
  pose proof (entryKey_shape e n) as H. pose proof (entryKey_shape e' n') as H'.
  unfold anonymous in He.
  destruct (entrySubtitleId e), (entryId e), (entrySentence e) as [[|c s]|];
    try discriminate He;
    (rewrite H;
     destruct (entrySubtitleId e'), (entryId e'),
       (entrySentence e') as [[|c' s']|];
     rewrite H'; try (intros [=]; fail);
     intros Heq; apply app_inv_head, stringOfInt_inj in Heq; lia).
Qed.

End Cache.

(** C3. The persisted merge files every entry, initial ones first and
    additions after them, under one key: its [subtitleId] if it has one, else
    its [id], else its non-empty sentence, else a numbered key of its own
    that no other entry shares. What is written holds one entry per key, the
    last one filed under it, in the order in which the keys first occur. *)
Theorem merge_keeps_last_entry_per_key
    (existing additions : list Enrich.TranslationEntry) :
  let entries := existing ++ additions in
  let keyed := Spec.keysFrom 0 entries in
  map snd keyed = entries
  /\ (forall i k e,
        keyed !! i = Some (k, e) ->
        match Enrich.entrySubtitleId e, Enrich.entryId e,
              Enrich.entrySentence e with
        | Some sid, _, _ => k = lit "subtitleId:" ++ Enrich.stringOfId sid
        | None, Some id, _ => k = lit "id:" ++ Enrich.stringOfId id
        | None, None, Some (c :: s) => k = lit "sentence:" ++ c :: s
        | None, None, _ =>
            k = lit "anon:"
                ++ stringOfInt (Z.of_nat (Spec.anonymousBefore i entries))
        end)
  /\ (forall i j k e k' e',
        keyed !! i = Some (k, e) -> keyed !! j = Some (k', e') ->
        i <> j -> Spec.anonymous e = true -> k <> k')
  /\ Enrich.mergeTranslationEntries existing additions
     = Spec.mergedByKey entries
  /\ (forall st path,
        Enrich.initialEntries st = existing ->
        Enrich.addedEntries st = additions ->
        (Enrich.persistTranslations st path).1 = Spec.mergedByKey entries).
Proof.
  cbv zeta.
  assert (Hlookup : forall i k e,
             Spec.keysFrom 0 (existing ++ additions) !! i = Some (k, e) ->
             (existing ++ additions) !! i = Some e
             /\ k = (Enrich.entryKey e
                       (Spec.anonymousBefore i (existing ++ additions))).1).
  { intros i k e Hi.
    assert (He : (existing ++ additions) !! i = Some e).
    { rewrite <- (keysFrom_entries (existing ++ additions) 0).
      change (map snd ?l) with (snd <$> l).
      now rewrite list_lookup_fmap, Hi. }
    split; [exact He|].
    rewrite (keysFrom_lookup _ 0 _ _ He) in Hi. now injection Hi as <-. }
  split; [apply keysFrom_entries|]. split; [|split; [|split]].
  - intros i k e Hi. destruct (Hlookup i k e Hi) as [_ ->].
    apply entryKey_shape.
  - intros i j k e k' e' Hi Hj Hij He.
    destruct (Hlookup i k e Hi) as [Hei ->].
    destruct (Hlookup j k' e' Hj) as [Hej ->].
    destruct (Spec.anonymous e') eqn:He'.
    + apply anonymous_key_apart; [exact He|].
      destruct (Nat.lt_total i j) as [Hlt|[Heq|Hlt]]; [|contradiction|].
      * pose proof (anonymousBefore_grows _ _ _ _ Hlt Hei He). lia.
      * pose proof (anonymousBefore_grows _ _ _ _ Hlt Hej He'). lia.
    + intros Heq. pose proof (entryKey_shape e
                   (Spec.anonymousBefore i (existing ++ additions))) as H.
      pose proof (entryKey_shape e'
                   (Spec.anonymousBefore j (existing ++ additions))) as H'.
      unfold Spec.anonymous in He, He'.
      destruct (Enrich.entrySubtitleId e), (Enrich.entryId e),
        (Enrich.entrySentence e) as [[|c s]|]; try discriminate He;
        (destruct (Enrich.entrySubtitleId e'), (Enrich.entryId e'),
           (Enrich.entrySentence e') as [[|c' s']|]; try discriminate He';
         rewrite H, H' in Heq; discriminate Heq).
  - apply merge_by_key.
  - intros st path <- <-. apply merge_by_key.
Qed.

(** Two initial entries and one addition: the addition shares the key
    [subtitleId:7] with the first entry and replaces it in its place. *)
Lemma merge_keeps_last_entry_per_key_witness :
  let first := {| Enrich.entryId := Some (Enrich.IdNumber (Int 1));
                  Enrich.entrySubtitleId := Some (Enrich.IdNumber (Int 7));
                  Enrich.entrySentence := None;
                  Enrich.entryTranslation := lit "old" |} in
  let second := {| Enrich.entryId := None;
                   Enrich.entrySubtitleId := None;
                   Enrich.entrySentence := None;
                   Enrich.entryTranslation := lit "anonymous" |} in
  let third := {| Enrich.entryId := Some (Enrich.IdNumber (Int 9));
                  Enrich.entrySubtitleId := Some (Enrich.IdString (lit "7"));
                  Enrich.entrySentence := Some (lit "猫");
                  Enrich.entryTranslation := lit "new" |} in
  (Enrich.persistTranslations
     {| Enrich.byId := ∅; Enrich.bySubtitleId := ∅; Enrich.bySentence := ∅;
        Enrich.addedEntries := [third];
        Enrich.initialEntries := [first; second];
        Enrich.sourcePath := None |} (lit "cache.json")).1
  = [third; second].
Proof.
  cbv zeta.
  refine (eq_trans
            (proj2 (proj2 (proj2 (proj2
               (merge_keeps_last_entry_per_key _ _)))) _ _ eq_refl eq_refl) _).
  vm_compute. reflexivity.
Defined.

(** ** Keys of the translation hints *)

Section HintKeys.

Import Enrich Spec.

Lemma normalizeKey_absent value :
  given value = false -> normalizeKey (Some value) = None.
Proof. destruct value as [| | |[|c s]| |]; try discriminate; reflexivity. Qed.

Lemma normalizeKey_parsed value :
  given value = true -> finiteNumber value = false ->
  normalizeKey (Some value)
  = Some (match parseInt (toString value) with
          | NaN => IdString (toString value)
          | parsed => IdNumber parsed
          end).
Proof.
  destruct value as [| |n|[|c s]| |]; try discriminate; try reflexivity.
  cbn [given finiteNumber normalizeKey]. intros _ Hn.
  unfold normalizeNumeric. now rewrite Hn.
Qed.

Lemma normalizeKey_number n :
  isFinite n = true -> normalizeKey (Some (JNumber n)) = Some (IdNumber n).
Proof.
  intros Hn. cbn [normalizeKey]. unfold normalizeNumeric. now rewrite Hn.
Qed.

Lemma registerEntry_accepted st fields raw :
  getField (lit "translation") fields = Some (JString raw) ->
  trim raw <> [] ->
  let st' := registerEntry st (JObject fields) in
  byId st'
  = match normalizeKey (getField (lit "id") fields) with
    | Some i => <[stringOfId i := trim raw]> (byId st)
    | None => byId st
    end
  /\ bySubtitleId st'
     = match normalizeKey (getField (lit "subtitleId") fields) with
       | Some i => <[stringOfId i := trim raw]> (bySubtitleId st)
       | None => bySubtitleId st
       end.
Proof.
  intros Htranslation Hraw. cbv zeta.
  unfold registerEntry, sanitizeTranslationEntry.
  rewrite Htranslation, (proj2 (nonEmpty_true _) Hraw).
  cbn [entryId entrySubtitleId entrySentence entryTranslation byId
       bySubtitleId].
  split; reflexivity.
Qed.

Lemma registerEntry_dropped st entryLike :
  hasTranslation entryLike = false -> registerEntry st entryLike = st.
Proof.
  unfold hasTranslation, registerEntry, sanitizeTranslationEntry.
  destruct entryLike as [| | | | |fields]; try reflexivity.
  destruct (getField _ fields) as [[| | |raw| |]|]; try reflexivity.
  now intros ->.
Qed.

End HintKeys.

(** C10, as the code has it. A value of [id] or [subtitleId] that is
    [null], [undefined] or the empty string is no key, and the entry is not
    indexed under it. Any other value that is not a finite number is turned
    into a string and read by [parseInt]: without a digit the hint is indexed
    under the string itself, otherwise under the string of the number
    [parseInt] returns, the double nearest to the integer read. A finite
    number is kept as it is and indexed under its own string, so the number
    5.9 goes under [5.9]. An entry whose [translation] is missing, not a
    string, or blank changes no index. The hint keys [05], [5.9] and [5abc]
    all index under [5] and match the card with [id] 5; the key
    [9007199254740993] indexes under [9007199254740992], a 1 followed by 21
    zeros under [1e+21], and 320 digits under [Infinity]. *)
Theorem hint_keys_normalized :
  (Enrich.normalizeKey None = None
   /\ forall value,
        Spec.given value = false -> Enrich.normalizeKey (Some value) = None)
  /\ (forall value,
        Spec.given value = true -> Spec.finiteNumber value = false ->
        Enrich.normalizeKey (Some value)
        = Some (match parseInt (toString value) with
                | NaN => Enrich.IdString (toString value)
                | parsed => Enrich.IdNumber parsed
                end))
  /\ (forall n, isFinite n = true ->
                Enrich.normalizeKey (Some (JNumber n))
                = Some (Enrich.IdNumber n))
  /\ (forall st fields raw,
        getField (lit "translation") fields = Some (JString raw) ->
        trim raw <> [] ->
        let st' := Enrich.registerEntry st (JObject fields) in
        Enrich.byId st'
        = match Enrich.normalizeKey (getField (lit "id") fields) with
          | Some i => <[Enrich.stringOfId i := trim raw]> (Enrich.byId st)
          | None => Enrich.byId st
          end
        /\ Enrich.bySubtitleId st'
           = match Enrich.normalizeKey (getField (lit "subtitleId") fields) with
             | Some i =>
                 <[Enrich.stringOfId i := trim raw]> (Enrich.bySubtitleId st)
             | None => Enrich.bySubtitleId st
             end)
  /\ (forall st entryLike,
        Spec.hasTranslation entryLike = false ->
        Enrich.registerEntry st entryLike = st)
  /\ (forall key, In key ["05"; "5.9"; "5abc"; " 5"]%string ->
        Enrich.byId (Samples.keyedHint key) !! lit "5" = Some (lit "Hello")
        /\ Enrich.pickTranslation Samples.card5 (Samples.keyedHint key)
           = Some (lit "Hello"))
  /\ Enrich.byId (Samples.keyedHint "9007199254740993")
     = {[ lit "9007199254740992" := lit "Hello" ]}
  /\ Enrich.byId (Samples.keyedHint "1000000000000000000000")
     = {[ lit "1e+21" := lit "Hello" ]}
  /\ Enrich.byId
       (Enrich.registerEntry (Enrich.emptyState None)
          (JObject [(lit "id", JString (repeat 57 320));
                    (lit "translation", JString (lit "Hello"))]))
     = {[ lit "Infinity" := lit "Hello" ]}
  /\ Enrich.byId (Samples.keyedHint "") = ∅
  /\ Enrich.byId (Samples.keyedHint "abc") = {[ lit "abc" := lit "Hello" ]}.
Proof.
  split; [split; [reflexivity|exact normalizeKey_absent]|].
  split; [exact normalizeKey_parsed|].
  split; [exact normalizeKey_number|].
  split; [exact registerEntry_accepted|].
  split; [exact registerEntry_dropped|].
  split.
  { intros key [<-|[<-|[<-|[<-|[]]]]]; split; vm_compute; reflexivity. }
  repeat split; vm_compute; reflexivity.
Qed.

(** The hint [{ "id": "5abc", "subtitleId": 7.5, "translation": " Hi " }]
    goes under [5] by id and under [7.5] by subtitle. *)
Lemma hint_keys_normalized_witness :
  let st' :=
    Enrich.registerEntry (Enrich.emptyState None)
      (JObject [(lit "id", JString (lit "5abc"));
                (lit "subtitleId", JNumber (Frac false 7 (lit "5")));
                (lit "translation", JString (lit " Hi "))]) in
  Enrich.byId st' !! lit "5" = Some (lit "Hi")
  /\ Enrich.bySubtitleId st' !! lit "7.5" = Some (lit "Hi").
Proof.
  cbv zeta.
  destruct (proj1 (proj2 (proj2 (proj2 hint_keys_normalized)))
              (Enrich.emptyState None)
              [(lit "id", JString (lit "5abc"));
               (lit "subtitleId", JNumber (Frac false 7 (lit "5")));
               (lit "translation", JString (lit " Hi "))]
              (lit " Hi ") eq_refl ltac:(discriminate)) as [Hid Hsub].
  rewrite Hid, Hsub. split; vm_compute; reflexivity.
Defined.

(** C10, as stated, fails for a hint whose [id] is the number 5.9: its
    [parseInt] is 5, yet it is indexed under [5.9] and not under [5], and
    the card with [id] 5 does not match it. *)
Lemma fraction_id_not_truncated :
  parseInt (toString (JNumber (Frac false 5 (lit "9")))) = Int 5
  /\ Enrich.byId Samples.fractionHint !! lit "5" = None
  /\ Enrich.byId Samples.fractionHint !! lit "5.9" = Some (lit "Hello")
  /\ Enrich.pickTranslation Samples.card5 Samples.fractionHint = None.
Proof. repeat split; vm_compute; reflexivity. Qed.

(** ** Worked scenarios *)

(** A numbered block with its time range and one line of text. *)
Example scenario_greeting :
  ParseSubs.parseSrt (lit "1
00:00:01,000 --> 00:00:02,500
こんにちは")
  = [ {| ParseSubs.index := 1; ParseSubs.rawId := 1;
         ParseSubs.start := Some (lit "00:00:01,000");
         ParseSubs.end_ := Some (lit "00:00:02,500");
         ParseSubs.startMs := Some 1000%Z; ParseSubs.endMs := Some 2500%Z;
         ParseSubs.text := lit "こんにちは" |} ].
Proof. vm_compute. reflexivity. Qed.

(** Two blocks that both declare the number 1: the cards are numbered 1 and
    2 and both keep [subtitleId] 1. *)
Example scenario_repeated_number :
  map (fun card => (ParseSubs.id card, ParseSubs.subtitleId card))
    (ParseSubs.buildCards (ParseSubs.parseSrt (lit "1
first

1
second")))
  = [(1, 1); (2, 1)]%Z.
Proof. vm_compute. reflexivity. Qed.

(** A block without a number and without a range: the number is the
    position, and the first line is text. *)
Example scenario_text_only :
  map (fun e => (ParseSubs.rawId e, ParseSubs.start e, ParseSubs.text e))
    (ParseSubs.parseSrt (lit "7
seven

no number here
second line"))
  = [(7%Z, None, lit "seven"); (2%Z, None, lit "no number here second line")].
Proof. vm_compute. reflexivity. Qed.

(** With an empty dictionary and no hint the literal fallback is the
    surface form. *)
Example scenario_literal_fallback :
  let card := {| Enrich.id := Int 1; Enrich.subtitleId := Some (Int 1);
                 Enrich.sentence := Some (lit "猫");
                 Enrich.translation := Some [];
                 Enrich.romaji := Some []; Enrich.furigana := Some [];
                 Enrich.startTime := None; Enrich.endTime := None;
                 Enrich.startMs := None; Enrich.endMs := None;
                 Enrich.tokens := None; Enrich.extra := [] |} in
  Enrich.translation
    (Enrich.enrichCard card Samples.wholeSentence ∅ (Enrich.emptyState None)
       None true).1.1 = Some (lit "猫").
Proof. vm_compute. reflexivity. Qed.

(** The same card when the service rejects every call: the run completes,
    the card keeps the literal fallback and both files are written. *)
Example scenario_service_down :
  let card := {| Enrich.id := Int 1; Enrich.subtitleId := Some (Int 1);
                 Enrich.sentence := Some (lit "猫");
                 Enrich.translation := Some [];
                 Enrich.romaji := Some []; Enrich.furigana := Some [];
                 Enrich.startTime := None; Enrich.endTime := None;
                 Enrich.startMs := None; Enrich.endMs := None;
                 Enrich.tokens := None; Enrich.extra := [] |} in
  let options := {| Enrich.inputPath := lit "cards.json";
                    Enrich.dictPath := lit "dict.json";
                    Enrich.translationPath := None;
                    Enrich.translationSavePath := None;
                    Enrich.outputJsonPath := lit "cards.json";
                    Enrich.tsvPath := lit "cards.tsv";
                    Enrich.writeTsv := true;
                    Enrich.autoTranslate := true;
                    Enrich.autoTranslateReplace := true;
                    Enrich.deeplFormality := lit "default";
                    Enrich.deeplGlossaryId := None |} in
  let env := {| Enrich.kuromojiBuild := Enrich.Ok Samples.wholeSentence;
                Enrich.dictionaryFile := Some [];
                Enrich.translationFile := None;
                Enrich.cardsFile := Enrich.Ok [card];
                Enrich.DEEPL_API_KEY := Some (lit "key");
                Enrich.translateText := Samples.quotaExceeded |} in
  match Enrich.main options env with
  | Enrich.Ok out =>
      map Enrich.translation (Enrich.jsonWritten out).2 = [Some (lit "猫")]
      /\ Enrich.tsvWritten out
         = Some (lit "cards.tsv", lit "猫" ++ [TAB] ++ lit "猫")
      /\ Enrich.console out
         = [lit "DeepL translation failed for subtitle 1: Quota exceeded";
            lit "Enriched JSON written to cards.json";
            lit "TSV output written to cards.tsv"]
  | Enrich.Throw _ => False
  end.
Proof. vm_compute. repeat split. Qed.

(** * Further properties *)

(** ** Numbers *)

Section Numbers.

Local Open Scope Z_scope.

(** Below 2^53 an integer is its own double. *)
Lemma nearestDouble_safe z : Z.abs z < 2 ^ 53 -> nearestDouble z = Some z.
Proof.
  intros Hz. unfold nearestDouble. cbv zeta.
  destruct (Z.ltb_spec (Z.abs z) (2 ^ 53)); [reflexivity|lia].
Qed.

(** A significand of 53 bits with its exponent is a double as it stands. *)
Lemma nearestDouble_exact q e :
  2 ^ 52 <= q < 2 ^ 53 -> 0 < e -> q * 2 ^ e < 2 ^ 1024 ->
  nearestDouble (q * 2 ^ e) = Some (q * 2 ^ e).
Proof.
  intros Hq He Hmax. unfold nearestDouble. cbv zeta.
  assert (Hpow : 0 < 2 ^ e) by (apply Z.pow_pos_nonneg; lia).
  assert (Habs : Z.abs (q * 2 ^ e) = q * 2 ^ e) by (apply Z.abs_eq; nia).
  rewrite Habs.
  assert (Hlog : Z.log2 (q * 2 ^ e) = 52 + e).
  { apply Z.log2_unique; [lia|].
    rewrite Z.pow_add_r by lia. replace (Z.succ (52 + e)) with (53 + e) by lia.
    rewrite Z.pow_add_r by lia. nia. }
  destruct (Z.ltb_spec (q * 2 ^ e) (2 ^ 53)) as [Hsmall|_].
  { exfalso.
    assert (2 <= 2 ^ e)
      by (change 2 with (2 ^ 1) at 1; apply Z.pow_le_mono_r; lia).
    nia. }
  rewrite Hlog. replace (52 + e - 52) with e by lia.
  rewrite Z.shiftr_div_pow2, Z.div_mul by lia.
  rewrite !Z.shiftl_mul_pow2 by lia. rewrite Z.sub_diag.
  assert (Hhalf : 0 < 1 * 2 ^ (e - 1))
    by (rewrite Z.mul_1_l; apply Z.pow_pos_nonneg; lia).
  destruct (Z.ltb_spec (1 * 2 ^ (e - 1)) 0); [lia|].
  destruct (Z.eqb_spec 0 (1 * 2 ^ (e - 1))); [lia|].
  cbn [orb andb].
  destruct (Z.leb_spec (2 ^ 1024) (q * 2 ^ e)); [lia|].
  f_equal. rewrite Z.sgn_pos by nia. lia.
Qed.

(** What rounding does from 2^53 on: the result is [q * 2^e] with a
    significand [q] of 53 bits, or 2^53 itself after a carry. *)
Lemma nearestDouble_shape z d :
  2 ^ 53 <= Z.abs z -> nearestDouble z = Some d ->
  exists q e, 2 ^ 52 <= q <= 2 ^ 53 /\ 0 < e /\ q * 2 ^ e < 2 ^ 1024
              /\ d = Z.sgn z * (q * 2 ^ e) /\ (Z.sgn z = 1 \/ Z.sgn z = -1).
Proof.
  intros Hbig. unfold nearestDouble. cbv zeta.
  destruct (Z.ltb_spec (Z.abs z) (2 ^ 53)) as [Hsmall|_]; [lia|].
  set (a := Z.abs z) in *.
  set (e := Z.log2 a - 52).
  set (q := Z.shiftr a e).
  set (r := a - Z.shiftl q e).
  set (q' := if (Z.shiftl 1 (e - 1) <? r)
                || ((r =? Z.shiftl 1 (e - 1)) && Z.odd q)
             then q + 1 else q).
  destruct (Z.leb_spec (2 ^ 1024) (Z.shiftl q' e)) as [|Hmax]; [discriminate|].
  intros [= <-].
  assert (Ha : 0 < a) by lia.
  assert (He : 0 < e).
  { unfold e. assert (53 <= Z.log2 a); [|lia].
    apply Z.log2_le_pow2; lia. }
  assert (Hpow : 0 < 2 ^ e) by (apply Z.pow_pos_nonneg; lia).
  assert (Hq : 2 ^ 52 <= q < 2 ^ 53).
  { unfold q. rewrite Z.shiftr_div_pow2 by lia.
    destruct (Z.log2_spec a Ha) as [Hlo Hhi].
    replace (Z.log2 a) with (52 + e) in Hlo by (unfold e; lia).
    replace (Z.succ (Z.log2 a)) with (53 + e) in Hhi by (unfold e; lia).
    rewrite Z.pow_add_r in Hlo, Hhi by lia.
    split.
    - apply Z.div_le_lower_bound; lia.
    - apply Z.div_lt_upper_bound; lia. }
  assert (Hq' : q' = q \/ q' = q + 1) by (unfold q'; destruct (_ || _); auto).
  rewrite Z.shiftl_mul_pow2 in * by lia.
  exists q', e. repeat split; try lia.
Qed.

(** Rounding twice is rounding once: what [nearestDouble] returns is a
    double. *)
Lemma nearestDouble_idempotent z d :
  nearestDouble z = Some d -> nearestDouble d = Some d.
Proof.
  intros Hz.
  destruct (Z.lt_ge_cases (Z.abs z) (2 ^ 53)) as [Hsmall|Hbig].
  { rewrite nearestDouble_safe in Hz by exact Hsmall.
    injection Hz as <-. now apply nearestDouble_safe. }
  destruct (nearestDouble_shape z d Hbig Hz)
    as (q & e & Hq & He & Hmax & -> & Hsgn).
  assert (Hexact : nearestDouble (q * 2 ^ e) = Some (q * 2 ^ e)).
  { destruct (Z.eq_dec q (2 ^ 53)) as [Htop|Htop].
    - rewrite Htop. replace (2 ^ 53 * 2 ^ e) with (2 ^ 52 * 2 ^ (e + 1))
        by (rewrite Z.pow_add_r by lia; lia).
      apply nearestDouble_exact; [lia|lia|].
      rewrite Z.pow_add_r by lia. rewrite Htop in Hmax. lia.
    - apply nearestDouble_exact; [lia|lia|exact Hmax]. }
  destruct Hsgn as [-> | ->].
  - now rewrite Z.mul_1_l.
  - replace (-1 * (q * 2 ^ e)) with (- (q * 2 ^ e)) by lia.
    revert Hexact. unfold nearestDouble. cbv zeta.
    rewrite Z.abs_opp, Z.sgn_opp.
    destruct (Z.abs (q * 2 ^ e) <? 2 ^ 53); [intros _; reflexivity|].
    destruct (_ <=? _); [discriminate|].
    intros [= H]. f_equal. lia.
Qed.

Lemma nearestDouble_big z d :
  2 ^ 53 <= Z.abs z -> nearestDouble z = Some d -> 2 ^ 53 <= Z.abs d.
Proof.
  intros Hbig Hz.
  destruct (nearestDouble_shape z d Hbig Hz)
    as (q & e & Hq & He & Hmax & -> & Hsgn).
  assert (Hpow : 2 <= 2 ^ e)
    by (change 2 with (2 ^ 1) at 1; apply Z.pow_le_mono_r; lia).
  destruct Hsgn as [-> | ->]; nia.
Qed.

(** [parseInt] returns [NaN], an infinity or an integer that is a double, of
    which [Number.isFinite] holds. *)
Lemma parseInt_double s d :
  parseInt s = Int d -> nearestDouble d = Some d /\ isFinite (Int d) = true.
Proof.
  unfold parseInt.
  destruct (match trimStart s with
            | [] => (false, trimStart s)
            | c :: r =>
                if (c =? 45)%N then (true, r)
                else if (c =? 43)%N then (false, r) else (false, trimStart s)
            end) as [negative body].
  destruct (takeDigits body) as [|c ds]; [discriminate|].
  unfold fromInteger.
  destruct (nearestDouble _) as [rounded|] eqn:E; [|discriminate].
  intros [= <-]. apply nearestDouble_idempotent in E.
  split; [exact E|]. unfold isFinite. rewrite E.
  apply bool_decide_eq_true. eauto.
Qed.

(** Below 2^53 the shortest decimal of an integer is the integer. *)
Lemma shortestFrom_safe d : 0 <= d < 2 ^ 53 -> forall p, shortestFrom p d = d.
Proof.
  intros Hd. induction p as [|p IH]; [reflexivity|].
  cbn [shortestFrom]. cbv zeta.
  set (unit := 10 ^ Z.of_nat (S p)).
  assert (Hunit : 0 < unit) by (apply Z.pow_pos_nonneg; lia).
  assert (Hlo : 0 <= d / unit * unit <= d).
  { pose proof (Z.mul_div_le d unit Hunit).
    pose proof (Z.div_pos d unit ltac:(lia) Hunit). nia. }
  assert (Hhi : d < d / unit * unit + unit).
  { pose proof (Z.mod_pos_bound d unit Hunit).
    pose proof (Z.div_mod d unit ltac:(lia)). nia. }
  rewrite (nearestDouble_safe (d / unit * unit)) by lia.
  rewrite (bool_decide_false (nearestDouble (d / unit * unit + unit) = Some d)).
  2:{ destruct (Z.lt_ge_cases (d / unit * unit + unit) (2 ^ 53)) as [Hs|Hb].
      - rewrite nearestDouble_safe by lia. intros [= H]. lia.
      - intros H. apply nearestDouble_big in H; lia. }
  rewrite andb_false_r.
  case_bool_decide as Heq; [now injection Heq|exact IH].
Qed.

(** Below 2^53 [String] prints the decimal digits of an integer. *)
Lemma stringOfNumber_safe z :
  Z.abs z < 2 ^ 53 -> stringOfNumber (Int z) = stringOfInt z.
Proof.
  intros Hz. unfold stringOfNumber. rewrite (nearestDouble_safe z Hz).
  unfold stringOfDouble. cbv zeta.
  rewrite shortestFrom_safe by lia.
  destruct (Z.ltb_spec (Z.abs z) (10 ^ 21)) as [_|Hbig]; [|lia].
  destruct z as [|p|p]; reflexivity.
Qed.

End Numbers.

(** ** Subtitle parser: what it accepts *)

Section ParserFacts.

Import ParseSubs Spec Laws.
Local Open Scope N_scope.

Lemma splitChar_nonempty c s : splitChar c s <> [].
Proof.
  destruct s as [|d r]; simpl; [discriminate|].
  destruct (d =? c); [discriminate|]. now destruct (splitChar c r).
Qed.

(** No piece of [s.split(c)] holds [c], and the pieces keep what holds of
    every code unit of [s]. *)
Lemma splitChar_pieces (P : N -> Prop) c s :
  Forall P s -> Forall (Forall (fun d => P d /\ d <> c)) (splitChar c s).
Proof.
  induction 1 as [|d r Hd Hr IH]; simpl; [repeat constructor|].
  destruct (N.eqb_spec d c) as [->|Hne].
  - constructor; [constructor|exact IH].
  - pose proof (splitChar_nonempty c r) as Hnil.
    destruct (splitChar c r) as [|p ps]; [contradiction|].
    inversion IH; subst. constructor; [|assumption].
    constructor; [split|]; assumption.
Qed.

Lemma splitChar_whole c s :
  Forall (fun d => d <> c) s -> splitChar c s = [s].
Proof.
  induction 1 as [|d r Hd _ IH]; simpl; [reflexivity|].
  destruct (N.eqb_spec d c); [contradiction|]. now rewrite IH.
Qed.

Lemma splitChar_cut c a b :
  Forall (fun d => d <> c) a -> splitChar c (a ++ c :: b) = a :: splitChar c b.
Proof.
  induction 1 as [|d r Hd _ IH]; simpl.
  - now rewrite N.eqb_refl.
  - destruct (N.eqb_spec d c); [contradiction|]. now rewrite IH.
Qed.

Lemma removeAll_clear c s : Forall (fun d => d <> c) (removeAll c s).
Proof.
  unfold removeAll. induction s as [|d r IH]; simpl; [constructor|].
  destruct (N.eqb_spec d c); simpl; [exact IH|now constructor].
Qed.

Lemma removeAll_Forall (P : N -> Prop) c s :
  Forall P s -> Forall P (removeAll c s).
Proof.
  unfold removeAll. induction 1 as [|d r Hd _ IH]; simpl; [constructor|].
  destruct (d =? c); simpl; [exact IH|now constructor].
Qed.

Lemma removeAll_fixed c s : Forall (fun d => d <> c) s -> removeAll c s = s.
Proof.
  unfold removeAll. induction 1 as [|d r Hd _ IH]; simpl; [reflexivity|].
  destruct (N.eqb_spec d c); [contradiction|]. simpl. now rewrite IH.
Qed.

Lemma trim_trimmed s : trimmed (trim s).
Proof. split; [apply trim_headKept|apply trim_lastKept]. Qed.

Lemma trimmed_fixed s : trimmed s -> trim s = s.
Proof. intros [H1 H2]. now apply trim_fixed. Qed.

Lemma splitStrFrom_nonempty sep s : forall skip, splitStrFrom sep skip s <> [].
Proof.
  induction s as [|d r IH]; intros skip; simpl; [discriminate|].
  destruct skip; [|apply IH].
  destruct (startsWith sep (d :: r)); [discriminate|].
  specialize (IH O). now destruct (splitStrFrom sep 0 r).
Qed.

(** A string that holds the separator splits into two pieces at least. *)
Lemma splitStr_two sep s :
  sep <> [] -> includes sep s = true -> (2 <= length (splitStr sep s))%nat.
Proof.
  intros Hsep. unfold splitStr. induction s as [|d r IH].
  - simpl. rewrite orb_false_r. now destruct sep.
  - cbn [includes splitStrFrom].
    destruct (startsWith sep (d :: r)) eqn:E.
    + intros _.
      destruct (splitStrFrom sep (length sep - 1) r) eqn:Er;
        [now apply splitStrFrom_nonempty in Er|].
      simpl. lia.
    + simpl. intros H. specialize (IH H).
      destruct (splitStrFrom sep 0 r); simpl in *; lia.
Qed.

Lemma headKept_app a b : a <> [] -> headKept a -> headKept (a ++ b).
Proof. now destruct a. Qed.

(** Joining trimmed, non-empty lines with single spaces gives a trimmed,
    non-empty text. *)
Lemma join_trimmed parts :
  parts <> [] -> Forall (fun p => p <> [] /\ trimmed p) parts ->
  join [SP] parts <> [] /\ trimmed (join [SP] parts).
Proof.
  induction parts as [|p ps IH]; [contradiction|].
  intros _ Hall. inversion Hall as [|? ? [Hp [Hhead Hlast]] Hps]; subst.
  destruct ps as [|q ps]; [now repeat split|].
  destruct (IH ltac:(discriminate) Hps) as [Hne [_ Hjlast]].
  change (join [SP] (p :: q :: ps)) with (p ++ [SP] ++ join [SP] (q :: ps)).
  split; [now destruct p|]. split.
  - now apply headKept_app.
  - rewrite rev_app_distr, rev_app_distr, <- app_assoc.
    apply headKept_app; [|exact Hjlast].
    intros Hnil. apply Hne. rewrite <- (rev_involutive (join _ _)), Hnil.
    reflexivity.
Qed.

Lemma join_Forall (P : N -> Prop) sep parts :
  Forall P sep -> Forall (Forall P) parts -> Forall P (join sep parts).
Proof.
  intros Hsep. induction 1 as [|p ps Hp Hps IH]; [constructor|].
  destruct ps as [|q ps]; [exact Hp|].
  change (join sep (p :: q :: ps)) with (p ++ sep ++ join sep (q :: ps)).
  rewrite !Forall_app. auto.
Qed.

(** The lines kept as text: not empty, trimmed, free of line breaks. *)
Lemma textLines_kept lines k :
  Forall (Forall (fun c => True /\ c <> LF)) lines ->
  Forall (fun p => (p <> [] /\ trimmed p)
                   /\ Forall (fun c => c <> LF /\ c <> CR) p)
    (List.filter nonEmpty
       (map (fun line => trim (removeAll CR line)) (drop k lines))).
Proof.
  intros Hlines.
  assert (Hdrop : Forall (Forall (fun c => True /\ c <> LF)) (drop k lines)).
  { clear -Hlines. revert k. induction Hlines; intros [|k]; simpl; auto. }
  clear Hlines. induction Hdrop as [|line rest Hline _ IH]; [constructor|].
  simpl. destruct (nonEmpty _) eqn:E; [|exact IH].
  constructor; [|exact IH]. split; [split|].
  - now apply nonEmpty_true.
  - apply trim_trimmed.
  - apply trim_Forall.
    pose proof (removeAll_clear CR line) as H1.
    pose proof (removeAll_Forall _ CR line Hline) as H2.
    rewrite Forall_forall in *. intros c Hc. split; [apply H2|apply H1]; exact Hc.
Qed.

(** A turn of the loop leaves the entries alone or appends a well-formed
    entry. *)
Lemma parseBlock_entry entries block :
  parseBlock entries block = entries
  \/ exists e, parseBlock entries block = entries ++ [e] /\ wellFormedEntry e.
Proof.
  pose (P := fun result : list SubtitleEntry =>
               result = entries
               \/ exists e, result = entries ++ [e] /\ wellFormedEntry e).
  enough (H : P (parseBlock entries block)) by exact H.
  unfold parseBlock.
  pose proof (splitChar_pieces (fun _ => True) LF block
                ltac:(apply Forall_forall; auto)) as Hlines.
  destruct (findIndex _ (splitChar LF block)) as [first|]; [|now left].
  assert (Hclose : forall rawId start end_ k,
             match start, end_ with
             | None, None => True
             | Some s, Some t => trimmed s /\ trimmed t
             | _, _ => False
             end ->
             P match List.filter nonEmpty
                       (map (fun line => trim (removeAll CR line))
                          (drop k (splitChar LF block))) with
               | [] => entries
               | _ :: _ =>
                   entries ++
                   [ {| index := (Z.of_nat (length entries) + 1)%Z;
                        rawId := rawId; start := start; end_ := end_;
                        startMs := timecodeToMs start;
                        endMs := timecodeToMs end_;
                        text :=
                          join [SP]
                            (List.filter nonEmpty
                               (map (fun line => trim (removeAll CR line))
                                  (drop k (splitChar LF block)))) |} ]
               end).
  { intros rawId start end_ k Htimes.
    pose proof (textLines_kept _ k Hlines) as Hkept.
    destruct (List.filter nonEmpty _) as [|t ts]; [now left|].
    right. eexists. split; [reflexivity|].
    apply Forall_and_inv in Hkept as [Hparts Hchars].
    destruct (join_trimmed (t :: ts) ltac:(discriminate) Hparts) as [Hne Htrim].
    unfold wellFormedEntry.
    cbn [ParseSubs.text ParseSubs.start ParseSubs.end_ ParseSubs.startMs
         ParseSubs.endMs].
    repeat split; try assumption; try apply Htrim.
    apply join_Forall; [|exact Hchars].
    repeat constructor; discriminate. }
  assert (Hrange : forall rawId k,
             P (let '(start, end_, cursor) :=
                  match splitChar LF block !! k with
                  | Some line =>
                      if includes ARROW line
                      then (map trim (splitStr ARROW line) !! 0%nat,
                            map trim (splitStr ARROW line) !! 1%nat, S k)
                      else (None, None, k)
                  | None => (None, None, k)
                  end in
                match List.filter nonEmpty
                        (map (fun line => trim (removeAll CR line))
                           (drop cursor (splitChar LF block))) with
                | [] => entries
                | _ :: _ =>
                    entries ++
                    [ {| index := (Z.of_nat (length entries) + 1)%Z;
                         rawId := rawId; start := start; end_ := end_;
                         startMs := timecodeToMs start;
                         endMs := timecodeToMs end_;
                         text :=
                           join [SP]
                             (List.filter nonEmpty
                                (map (fun line => trim (removeAll CR line))
                                   (drop cursor (splitChar LF block)))) |} ]
                end)).
  { intros rawId k.
    destruct (splitChar LF block !! k) as [line|]; [|now apply Hclose].
    destruct (includes ARROW line) eqn:Hinc; [|now apply Hclose].
    apply splitStr_two in Hinc; [|discriminate].
    destruct (splitStr ARROW line) as [|s [|t parts]]; simpl in Hinc; try lia.
    apply Hclose. cbn. split; apply trim_trimmed. }
  destruct (parseInt _) as [declared| | |]; cbv zeta;
    try destruct (isFinite (Int declared)); apply Hrange.
Qed.

Lemma parse_blocks_wellFormed blocks : forall entries,
  Forall wellFormedEntry entries ->
  Forall wellFormedEntry (fold_left parseBlock blocks entries).
Proof.
  induction blocks as [|block blocks IH]; intros entries Hentries;
    [exact Hentries|].
  cbn [fold_left]. apply IH.
  destruct (parseBlock_entry entries block) as [->|(e & -> & He)];
    [exact Hentries|].
  apply Forall_app. split; [exact Hentries|now constructor].
Qed.

End ParserFacts.

(** X1. Every entry [parseSrt] produces has a text that is not empty, holds
    no line feed and no carriage return and has no white space at either
    end; its [startMs] and [endMs] are the codec's values of its [start] and
    [end]; and [start] and [end] are both [null] or both trimmed strings. *)
Theorem parseSrt_entries_wellFormed (content : jsstring) :
  Forall Laws.wellFormedEntry (ParseSubs.parseSrt content).
Proof. apply parse_blocks_wellFormed. constructor. Qed.

(** X26. Whatever the file holds, the entries the parser returns carry the
    indexes 1, 2, ... in order, and the card builder returns one card per
    entry, with the ids 1, 2, ... in order; each card copies the [rawId] of
    its entry into [subtitleId], the text into [sentence] and the four time
    fields, and starts with an empty translation, romaji and furigana. *)
Theorem entries_and_cards_numbered (content : jsstring) :
  let entries := ParseSubs.parseSrt content in
  let cards := ParseSubs.buildCards entries in
  map ParseSubs.index entries = Spec.oneTo (length entries)
  /\ length cards = length entries
  /\ map ParseSubs.id cards = Spec.oneTo (length entries)
  /\ Forall2 Spec.carries entries cards.
Proof.
  cbv zeta.
  pose proof (parse_blocks_numbering (ParseSubs.splitBlocks content) []
                eq_refl) as Hidx.
  destruct (buildCardsFrom_numbering (ParseSubs.parseSrt content) O)
    as [Hid Hcarry].
  cbv zeta in Hidx.
  fold (ParseSubs.parseSrt content) in Hidx.
  fold (ParseSubs.buildCards (ParseSubs.parseSrt content)) in Hid, Hcarry.
  split; [exact Hidx|]. split; [|split; [exact Hid|exact Hcarry]].
  symmetry. exact (Forall2_length _ _ _ Hcarry).
Qed.

(** ** Timecode codec: range *)

Section TimecodeRange.

Import ParseSubs.
Local Open Scope N_scope.

Lemma matchTimecode_Some s m :
  matchTimecode s = Some m ->
  exists pre post, s = pre ++ post /\ timecodeAt post = Some m.
Proof.
  induction s as [|c r IH]; [discriminate|].
  cbn [matchTimecode]. destruct (timecodeAt (c :: r)) as [m'|] eqn:E.
  - intros [= <-]. now exists [], (c :: r).
  - intros H. destruct (IH H) as (pre & post & -> & Hm).
    now exists (c :: pre), post.
Qed.

Lemma isDigit_value c : isDigit c = true -> (0 <= Z.of_N (c - 48) <= 9)%Z.
Proof.
  unfold isDigit. rewrite andb_true_iff, !N.leb_le. lia.
Qed.

Lemma timecodeAt_range s hh mm ss ms :
  timecodeAt s = Some (hh, mm, ss, ms) ->
  (0 <= digitsValue hh <= 99 /\ 0 <= digitsValue mm <= 99
   /\ 0 <= digitsValue ss <= 99 /\ 0 <= digitsValue ms <= 999)%Z.
Proof.
  unfold timecodeAt.
  destruct s as [|h1 [|h2 [|c1 [|m1 [|m2 [|c2 [|s1 [|s2 [|c3 [|f1 [|f2
    [|f3 r]]]]]]]]]]]]; try discriminate.
  destruct (forallb isDigit _ && _ && _ && _) eqn:E; [|discriminate].
  intros [= <- <- <- <-].
  rewrite !andb_true_iff in E. destruct E as [[[E _] _] _].
  cbn [forallb] in E. rewrite !andb_true_iff in E.
  destruct E as (H1 & H2 & H3 & H4 & H5 & H6 & H7 & H8 & H9 & _).
  apply isDigit_value in H1, H2, H3, H4, H5, H6, H7, H8, H9.
  unfold digitsValue. cbn [fold_left]. lia.
Qed.

End TimecodeRange.

(** X2. Whatever text it is given, the codec answers [null] or a number of
    milliseconds between 0 and 362439999, the value of [99:99:99,999]:
    minutes and seconds above 59 are taken as written. *)
Theorem timecodeToMs_range (timecode : option jsstring) (ms : Z) :
  ParseSubs.timecodeToMs timecode = Some ms -> (0 <= ms <= 362439999)%Z.
Proof.
  unfold ParseSubs.timecodeToMs.
  destruct timecode as [[|c r]|]; try discriminate.
  destruct (ParseSubs.matchTimecode (c :: r)) as [[[[hh mm] ss] f]|] eqn:E;
    [|discriminate].
  apply matchTimecode_Some in E as (pre & post & _ & E).
  apply timecodeAt_range in E. intros [= <-]. lia.
Qed.

Lemma timecodeToMs_range_witness :
  (0 <= 359999999 <= 362439999)%Z
  /\ ParseSubs.timecodeToMs (Some (lit "99:59:59,999")) = Some 359999999%Z.
Proof.
  split; [|reflexivity].
  exact (timecodeToMs_range (Some (lit "99:59:59,999")) 359999999 eq_refl).
Defined.

(** ** Subtitle parser: line endings and blank input *)

Section LineEndings.

Import ParseSubs Laws.
Local Open Scope N_scope.

Lemma replaceCRLF_withCRLF s :
  Forall (fun c => c <> CR) s -> replaceCRLF (withCRLF s) = replaceCRLF s.
Proof.
  unfold withCRLF. induction 1 as [|c r Hc _ IH]; [reflexivity|].
  cbn [flat_map]. destruct (N.eqb_spec c LF) as [->|Hlf].
  - cbn [app replaceCRLF]. cbn. now rewrite IH.
  - cbn [app replaceCRLF].
    destruct (N.eqb_spec c CR); [contradiction|]. now rewrite IH.
Qed.

Lemma replaceCRLF_Forall (P : N -> Prop) s :
  Forall P s -> Forall P (replaceCRLF s).
Proof.
  enough (H : (Forall P s -> Forall P (replaceCRLF s))
              /\ forall a, Forall P (a :: s) -> Forall P (replaceCRLF (a :: s)))
    by apply H.
  induction s as [|c r [IH1 IH2]].
  - split; [auto|]. intros a Ha. simpl. now destruct (a =? CR).
  - split; [apply IH2|]. intros a Ha.
    inversion Ha as [|? ? Hpa Hcr]; subst.
    change (replaceCRLF (a :: c :: r)) with
      (if a =? CR
       then if c =? LF then LF :: replaceCRLF r else a :: replaceCRLF (c :: r)
       else a :: replaceCRLF (c :: r)).
    destruct (a =? CR); [destruct (N.eqb_spec c LF) as [->|]|].
    + inversion Hcr; subst. constructor; [assumption|now apply IH1].
    + constructor; [assumption|now apply IH2].
    + constructor; [assumption|now apply IH2].
Qed.

Lemma splitNewlineRunsFrom_Forall (P : N -> Prop) s : forall inrun cur,
  Forall P cur -> Forall P s ->
  Forall (Forall P) (splitNewlineRunsFrom inrun cur s).
Proof.
  induction s as [|c r IH]; intros inrun cur Hcur Hs.
  - simpl. constructor; [now apply Forall_rev|constructor].
  - inversion Hs as [|? ? Hc Hr]; subst. cbn [splitNewlineRunsFrom].
    assert (Hnext : Forall (Forall P) (splitNewlineRunsFrom false (c :: cur) r))
      by (apply IH; [now constructor|assumption]).
    destruct (c =? LF); [|exact Hnext].
    destruct inrun; [now apply IH|].
    destruct r as [|d r']; [exact Hnext|].
    destruct (d =? LF); [|exact Hnext].
    constructor; [now apply Forall_rev|]. apply IH; [constructor|assumption].
Qed.

Lemma trim_blank s : Forall (fun c => isWhiteSpace c = true) s -> trim s = [].
Proof.
  intros H. unfold trim.
  replace (trimStart s) with (@nil N); [reflexivity|].
  induction H as [|c r Hc _ IH]; [reflexivity|]. simpl. now rewrite Hc.
Qed.

Lemma findIndex_none {A} (pred : A -> bool) l :
  Forall (fun x => pred x = false) l -> findIndex pred l = None.
Proof.
  induction 1 as [|x r Hx _ IH]; [reflexivity|]. simpl. now rewrite Hx, IH.
Qed.

Lemma parseBlock_blank entries block :
  Forall (fun c => isWhiteSpace c = true) block ->
  parseBlock entries block = entries.
Proof.
  intros H. unfold parseBlock. rewrite findIndex_none; [reflexivity|].
  pose proof (splitChar_pieces _ LF block H) as Hlines.
  eapply Forall_impl; [exact Hlines|]. intros line Hline. cbv beta.
  rewrite trim_blank; [reflexivity|].
  eapply Forall_impl; [exact Hline|]. now intros c [Hc _].
Qed.

End LineEndings.

(** X3. A byte-order mark in front of the file does not change what is
    parsed, and neither do Windows line endings: a text without carriage
    returns gives the same entries when each of its line feeds is preceded by
    one. *)
Theorem parseSrt_line_endings (content : jsstring) :
  ParseSubs.parseSrt (BOM :: content) = ParseSubs.parseSrt content
  /\ (Forall (fun c => c <> CR) content ->
      ParseSubs.parseSrt (Laws.withCRLF content) = ParseSubs.parseSrt content).
Proof.
  unfold ParseSubs.parseSrt, ParseSubs.splitBlocks. split.
  - reflexivity.
  - intros H. now rewrite replaceCRLF_withCRLF.
Qed.

Lemma parseSrt_line_endings_witness :
  ParseSubs.parseSrt (Laws.withCRLF (lit "1
00:00:01,000 --> 00:00:02,500
one

2
two"))
  = ParseSubs.parseSrt (lit "1
00:00:01,000 --> 00:00:02,500
one

2
two").
Proof.
  apply (proj2 (parseSrt_line_endings _)).
  apply (bool_decide_unpack _). vm_compute. exact I.
Defined.

(** X4. A file that holds nothing but white space (empty, blank lines,
    spaces, a lone byte-order mark) gives no entry. *)
Theorem parseSrt_blank (content : jsstring) :
  Forall (fun c => isWhiteSpace c = true) content ->
  ParseSubs.parseSrt content = [].
Proof.
  intros H. unfold ParseSubs.parseSrt, ParseSubs.splitBlocks.
  assert (Hblocks : Forall (Forall (fun c => isWhiteSpace c = true))
                      (splitNewlineRuns (removeAll BOM (replaceCRLF content)))).
  { apply splitNewlineRunsFrom_Forall; [constructor|].
    apply removeAll_Forall, replaceCRLF_Forall, H. }
  induction Hblocks as [|block blocks Hblock _ IH]; [reflexivity|].
  cbn [fold_left]. now rewrite parseBlock_blank.
Qed.

Lemma parseSrt_blank_witness :
  ParseSubs.parseSrt (BOM :: lit "
  

	
") = [].
Proof.
  apply parseSrt_blank. apply (bool_decide_unpack _). vm_compute. exact I.
Defined.

(** ** Subtitle parser: captions in the usual form *)

Section PlainCaptions.

Import ParseSubs Spec Laws.
Local Open Scope N_scope.

Lemma startsWith_app p b : startsWith p (p ++ b) = true.
Proof. induction p as [|a p IH]; simpl; [reflexivity|]. now rewrite N.eqb_refl. Qed.

Lemma includes_middle p a b : includes p (a ++ p ++ b) = true.
Proof.
  induction a as [|c a IH].
  - destruct (p ++ b) eqn:E; simpl.
    + destruct p; [reflexivity|discriminate].
    + rewrite <- E, startsWith_app. reflexivity.
  - cbn [app includes]. rewrite IH. apply orb_true_r.
Qed.

Lemma splitStrFrom_skip sep l b :
  splitStrFrom sep (length l) (l ++ b) = splitStrFrom sep 0 b.
Proof. induction l as [|c l IH]; [reflexivity|]. exact IH. Qed.

(** A piece that does not hold the first code unit of the separator ends at
    the separator's first occurrence after it. *)
Lemma splitStr_cut h sep' a b :
  Forall (fun c => c <> h) a ->
  splitStr (h :: sep') (a ++ (h :: sep') ++ b) = a :: splitStr (h :: sep') b.
Proof.
  unfold splitStr. induction 1 as [|c a Hc _ IH].
  - cbn [app splitStrFrom startsWith]. rewrite N.eqb_refl, startsWith_app.
    cbn [andb length Nat.sub]. rewrite Nat.sub_0_r.
    now rewrite splitStrFrom_skip.
  - cbn [app splitStrFrom startsWith].
    destruct (N.eqb_spec h c) as [->|_]; [contradiction|].
    cbn [andb]. cbn [app] in IH. now rewrite IH.
Qed.

Lemma splitStr_whole h sep' a :
  Forall (fun c => c <> h) a -> splitStr (h :: sep') a = [a].
Proof.
  unfold splitStr. induction 1 as [|c a Hc _ IH]; [reflexivity|].
  cbn [splitStrFrom startsWith].
  destruct (N.eqb_spec h c) as [->|_]; [contradiction|].
  cbn [andb]. now rewrite IH.
Qed.

Lemma trim_space_after s : trimmed s -> trim (s ++ [SP]) = s.
Proof.
  intros [Hhead Hlast]. unfold trim.
  destruct s as [|c r]; [reflexivity|].
  rewrite (trimStart_fixed ((c :: r) ++ [SP])) by exact Hhead.
  unfold trimEnd. rewrite rev_app_distr. cbn [rev app].
  change (trimStart (SP :: (rev r ++ [c]))) with (trimStart (rev (c :: r))).
  rewrite (trimStart_fixed _ Hlast). apply rev_involutive.
Qed.

Lemma trim_space_before s : trimmed s -> trim (SP :: s) = s.
Proof.
  intros H. change (trim (SP :: s)) with (trim s). now apply trimmed_fixed.
Qed.

Lemma takeDigits_all ds :
  Forall (fun d => isDigit d = true) ds -> takeDigits ds = ds.
Proof. induction 1 as [|d r Hd _ IH]; simpl; [reflexivity|]. now rewrite Hd, IH. Qed.

Lemma isDigit_not_space d :
  isDigit d = true ->
  isWhiteSpace d = false /\ d <> LF /\ d <> 45 /\ d <> 43.
Proof.
  unfold isDigit. rewrite andb_true_iff, !N.leb_le. intros [H1 H2].
  assert (Hd : d = 48 \/ d = 49 \/ d = 50 \/ d = 51 \/ d = 52 \/ d = 53
               \/ d = 54 \/ d = 55 \/ d = 56 \/ d = 57) by lia.
  repeat (destruct Hd as [->|Hd]); try subst d; repeat split; discriminate.
Qed.

Lemma digitsValue_nonneg ds : (0 <= digitsValue ds)%Z.
Proof.
  unfold digitsValue.
  enough (H : forall acc, (0 <= acc)%Z ->
                (0 <= fold_left (fun a c => (a * 10 + Z.of_N (c - 48))%Z)
                        ds acc)%Z) by (apply H; lia).
  induction ds as [|d ds IH]; intros acc Hacc; [exact Hacc|].
  cbn [fold_left]. apply IH. lia.
Qed.

(** The digits of a caption number are read back as the number. *)
Lemma parseInt_digits ds :
  ds <> [] -> Forall (fun d => isDigit d = true) ds ->
  (digitsValue ds < 2 ^ 53)%Z ->
  trim ds = ds /\ parseInt ds = Int (digitsValue ds)
  /\ isFinite (Int (digitsValue ds)) = true.
Proof.
  intros Hne Hds Hsafe.
  assert (Hdouble : nearestDouble (digitsValue ds) = Some (digitsValue ds)).
  { apply nearestDouble_safe. pose proof (digitsValue_nonneg ds). lia. }
  assert (Htrimmed : trimmed ds).
  { split.
    - destruct Hds as [|d r Hd _]; [exact I|]. now apply isDigit_not_space.
    - apply Forall_rev in Hds.
      destruct Hds as [|d r Hd _]; [exact I|]. now apply isDigit_not_space.  }
  split; [now apply trimmed_fixed|].
  unfold parseInt. rewrite (trimStart_fixed ds (proj1 Htrimmed)).
  destruct ds as [|d r]; [contradiction|].
  inversion Hds as [|? ? Hd Hr]; subst.
  destruct (isDigit_not_space d Hd) as (_ & _ & H45 & H43).
  destruct (N.eqb_spec d 45); [contradiction|].
  destruct (N.eqb_spec d 43); [contradiction|].
  rewrite (takeDigits_all (d :: r) Hds).
  split; [unfold fromInteger; now rewrite Hdouble|].
  unfold isFinite. rewrite Hdouble. apply bool_decide_eq_true. eauto.
Qed.

Lemma captionBlock_layout number start end_ text :
  captionBlock number start end_ text
  = number ++ LF :: ((start ++ [SP]) ++ ARROW ++ SP :: end_) ++ LF :: text.
Proof.
  unfold captionBlock, ARROW. change (lit " --> ") with [SP; 45; 45; 62; SP].
  cbn [app]. rewrite <- !app_assoc. reflexivity.
Qed.

Lemma caption_lines c :
  plainCaption c ->
  splitChar LF (captionBlock (captionNumber c) (captionStart c)
                  (captionEnd c) (captionText c))
  = [captionNumber c;
     (captionStart c ++ [SP]) ++ ARROW ++ SP :: captionEnd c;
     captionText c].
Proof.
  intros (_ & Hds & _ & _ & _ & Htimes & _ & _ & Htext).
  apply Forall_app in Htimes as [Hstart Hend].
  rewrite captionBlock_layout, splitChar_cut.
  2:{ eapply Forall_impl; [exact Hds|]. intros d Hd.
      now apply isDigit_not_space in Hd. }
  f_equal. rewrite splitChar_cut.
  2:{ rewrite !Forall_app. repeat split.
      - eapply Forall_impl; [exact Hstart|]. simpl; tauto.
      - repeat constructor; discriminate.
      - repeat constructor; discriminate.
      - constructor; [discriminate|].
        eapply Forall_impl; [exact Hend|]. simpl; tauto. }
  f_equal. apply splitChar_whole.
  eapply Forall_impl; [exact Htext|]. simpl; tauto.
Qed.

Lemma caption_range_parts c :
  plainCaption c ->
  includes ARROW ((captionStart c ++ [SP]) ++ ARROW ++ SP :: captionEnd c)
  = true
  /\ map trim (splitStr ARROW
                 ((captionStart c ++ [SP]) ++ ARROW ++ SP :: captionEnd c))
     = [captionStart c; captionEnd c].
Proof.
  intros (_ & _ & _ & Hs & He & Htimes & _).
  apply Forall_app in Htimes as [Hstart Hend].
  split; [apply includes_middle|].
  unfold ARROW at 1 2.
  rewrite splitStr_cut.
  2:{ rewrite Forall_app. split.
      - eapply Forall_impl; [exact Hstart|]. unfold HYPHEN; simpl; tauto.
      - repeat constructor; discriminate. }
  rewrite splitStr_whole.
  2:{ constructor; [discriminate|].
      eapply Forall_impl; [exact Hend|]. unfold HYPHEN; simpl; tauto. }
  cbn [map]. now rewrite trim_space_after, trim_space_before.
Qed.

(** A caption in the usual form is read as it stands. *)
Lemma parseBlock_caption entries c :
  plainCaption c ->
  parseBlock entries
    (captionBlock (captionNumber c) (captionStart c) (captionEnd c)
       (captionText c))
  = entries ++ [entryOf (length entries) c].
Proof.
  intros Hc.
  pose proof Hc as (Hne & Hds & Hsafe & _ & _ & _ & Htne & Htrim & Htext).
  destruct (parseInt_digits _ Hne Hds Hsafe) as (Hnum & Hparse & Hfinite).
  destruct (caption_range_parts c Hc) as [Hinc Hparts].
  unfold parseBlock. rewrite (caption_lines c Hc).
  cbn [findIndex]. rewrite Hnum.
  rewrite (proj2 (nonEmpty_true _) Hne). cbn [nth]. rewrite Hnum, Hparse.
  cbv beta iota zeta. rewrite Hfinite. cbv beta iota zeta.
  change ([captionNumber c;
           (captionStart c ++ [SP]) ++ ARROW ++ SP :: captionEnd c;
           captionText c] !! 1%nat)
    with (Some ((captionStart c ++ [SP]) ++ ARROW ++ SP :: captionEnd c)).
  cbv beta iota zeta. rewrite Hinc, Hparts.
  cbn [drop map lookup list_lookup].
  rewrite removeAll_fixed
    by (eapply Forall_impl; [exact Htext|]; simpl; tauto).
  rewrite (trimmed_fixed _ Htrim).
  cbn [List.filter]. rewrite (proj2 (nonEmpty_true _) Htne).
  reflexivity.
Qed.

Lemma hasNewlineRun_none s :
  Forall (fun c => c <> LF) s -> hasNewlineRun s = false.
Proof.
  induction 1 as [|c r Hc _ IH]; [reflexivity|].
  cbn [hasNewlineRun]. rewrite IH.
  now destruct (N.eqb_spec c LF).
Qed.

Lemma hasNewlineRun_line a b :
  Forall (fun c => c <> LF) a -> head b <> Some LF ->
  hasNewlineRun b = false -> hasNewlineRun (a ++ LF :: b) = false.
Proof.
  intros Ha Hhead Hb. induction Ha as [|c r Hc _ IH].
  - cbn [app hasNewlineRun]. rewrite Hb.
    destruct b as [|d b']; [reflexivity|].
    destruct (N.eqb_spec d LF) as [->|_]; [now destruct Hhead|reflexivity].
  - cbn [app hasNewlineRun]. rewrite IH.
    now destruct (N.eqb_spec c LF).
Qed.

Lemma replaceCRLF_fixed s : Forall (fun c => c <> CR) s -> replaceCRLF s = s.
Proof.
  induction 1 as [|c r Hc _ IH]; [reflexivity|].
  cbn [replaceCRLF]. destruct (N.eqb_spec c CR); [contradiction|].
  now rewrite IH.
Qed.

Lemma head_not_LF a b :
  a <> [] -> Forall (fun d => d <> LF) a -> head (a ++ b) <> Some LF.
Proof.
  intros Hne Ha. destruct Ha as [|d r Hd _]; [contradiction|].
  cbn. congruence.
Qed.

Lemma last_not_LF a :
  a <> [] -> Forall (fun d => d <> LF) a -> last a <> Some LF.
Proof.
  intros Hne Ha. induction Ha as [|d r Hd Hr IH]; [contradiction|].
  destruct r as [|d' r']; [cbn; congruence|].
  apply IH. discriminate.
Qed.

(** What the block of a caption in the usual form is made of. *)
Lemma caption_block_shape c :
  plainCaption c ->
  let block := captionBlock (captionNumber c) (captionStart c) (captionEnd c)
                 (captionText c) in
  Forall (fun d => d <> CR /\ d <> BOM) block
  /\ hasNewlineRun block = false
  /\ head block <> Some LF /\ last block <> Some LF /\ block <> [].
Proof.
  intros (Hne & Hds & _ & _ & _ & Htimes & Htne & _ & Htext). cbv zeta.
  apply Forall_app in Htimes as [Hstart Hend].
  assert (Hnum : Forall (fun d => d <> LF /\ d <> CR /\ d <> BOM)
                   (captionNumber c)).
  { eapply Forall_impl; [exact Hds|]. intros d Hd.
    unfold isDigit in Hd. rewrite andb_true_iff, !N.leb_le in Hd.
    unfold LF, CR, BOM. lia. }
  assert (Hrange : Forall (fun d => d <> LF /\ d <> CR /\ d <> BOM)
                     ((captionStart c ++ [SP]) ++ ARROW
                      ++ SP :: captionEnd c)).
  { rewrite !Forall_app. repeat split.
    - eapply Forall_impl; [exact Hstart|]. simpl; tauto.
    - constructor; [|constructor]. unfold SP, LF, CR, BOM. lia.
    - unfold ARROW. repeat constructor; unfold LF, CR, BOM; lia.
    - constructor; [unfold SP, LF, CR, BOM; lia|].
      eapply Forall_impl; [exact Hend|]. simpl; tauto. }
  assert (Hrne : (captionStart c ++ [SP]) ++ ARROW ++ SP :: captionEnd c <> [])
    by (destruct (captionStart c); discriminate).
  rewrite captionBlock_layout. repeat split.
  - rewrite Forall_app. split; [eapply Forall_impl; [exact Hnum|]; simpl; tauto|].
    constructor; [unfold LF, CR, BOM; lia|].
    rewrite Forall_app. split; [eapply Forall_impl; [exact Hrange|]; simpl; tauto|].
    constructor; [unfold LF, CR, BOM; lia|].
    eapply Forall_impl; [exact Htext|]. simpl; tauto.
  - apply hasNewlineRun_line.
    + eapply Forall_impl; [exact Hnum|]. simpl; tauto.
    + apply head_not_LF; [exact Hrne|].
      eapply Forall_impl; [exact Hrange|]. simpl; tauto.
    + apply hasNewlineRun_line.
      * eapply Forall_impl; [exact Hrange|]. simpl; tauto.
      * rewrite <- (app_nil_r (captionText c)).
        apply head_not_LF; [exact Htne|].
        eapply Forall_impl; [exact Htext|]. simpl; tauto.
      * apply hasNewlineRun_none.
        eapply Forall_impl; [exact Htext|]. simpl; tauto.
  - apply head_not_LF; [exact Hne|].
    eapply Forall_impl; [exact Hnum|]. simpl; tauto.
  - rewrite last_app.
    change (LF :: ?r ++ LF :: captionText c)
      with ((LF :: r) ++ [LF] ++ captionText c).
    rewrite !last_app.
    pose proof (last_not_LF _ Htne
                  ltac:(eapply Forall_impl; [exact Htext|]; simpl; tauto)) as Hl.
    destruct (last (captionText c)) eqn:El; [exact Hl|].
    apply last_None in El. contradiction.
  - destruct (captionNumber c); [contradiction|discriminate].
Qed.

(** Blocks without an empty line inside, joined by one empty line, are
    split back into themselves. *)
Lemma splitNewlineRuns_join blocks :
  blocks <> [] ->
  Forall (fun b => hasNewlineRun b = false
                   /\ head b <> Some LF /\ last b <> Some LF /\ b <> [])
    blocks ->
  splitNewlineRuns (join [LF; LF] blocks) = blocks.
Proof.
  induction blocks as [|b bs IH]; [contradiction|].
  intros _ Hall. inversion Hall as [|? ? (Hrun & Hhead & Hlast & Hne) Hbs]; subst.
  destruct bs as [|b' bs].
  - unfold splitNewlineRuns. now rewrite splitNewlineRunsFrom_whole.
  - change (join [LF; LF] (b :: b' :: bs))
      with (b ++ LF :: LF :: join [LF; LF] (b' :: bs)).
    unfold splitNewlineRuns.
    rewrite splitNewlineRunsFrom_piece by assumption.
    cbn [rev app]. f_equal.
    change (LF :: join [LF; LF] (b' :: bs))
      with (repeat LF 1 ++ join [LF; LF] (b' :: bs)).
    rewrite splitNewlineRunsFrom_run.
    + apply IH; [discriminate|exact Hbs].
    + inversion Hbs as [|? ? (_ & Hhead' & _ & Hne') _]; subst.
      destruct b' as [|d r]; [contradiction|].
      destruct bs; exact Hhead'.
Qed.

Lemma parse_captions cs : forall entries,
  Forall plainCaption cs ->
  fold_left parseBlock
    (map (fun c => captionBlock (captionNumber c) (captionStart c)
                     (captionEnd c) (captionText c)) cs) entries
  = entries ++ entriesFrom (length entries) cs.
Proof.
  induction cs as [|c cs IH]; intros entries Hall.
  - simpl. now rewrite app_nil_r.
  - inversion Hall as [|? ? Hc Hcs]; subst.
    cbn [map fold_left entriesFrom].
    rewrite (parseBlock_caption entries c Hc), (IH _ Hcs).
    rewrite length_app, Nat.add_1_r, <- app_assoc. reflexivity.
Qed.

End PlainCaptions.

(** X5. A file of captions in the usual form (a number of digits below
    2^53, a line [start --> end] whose timecodes hold no hyphen, one line of
    text, one empty line between captions) is read back caption by caption:
    the n-th entry has index n, the number as [rawId], the two timecodes as
    written and the text line as [text]. *)
Theorem parseSrt_renderSrt (captions : list Laws.Caption) :
  Forall Laws.plainCaption captions ->
  ParseSubs.parseSrt (Laws.renderSrt captions) = Laws.entriesFrom 0 captions.
Proof.
  intros Hall. destruct captions as [|c cs]; [reflexivity|].
  unfold ParseSubs.parseSrt, ParseSubs.splitBlocks, Laws.renderSrt.
  set (blocks := map _ (c :: cs)).
  assert (Hshape : Forall (fun b =>
                     Forall (fun d => d <> CR /\ d <> BOM) b
                     /\ Spec.hasNewlineRun b = false
                     /\ head b <> Some LF /\ last b <> Some LF /\ b <> [])
                     blocks).
  { subst blocks. apply Forall_map.
    eapply Forall_impl; [exact Hall|]. intros x Hx.
    exact (caption_block_shape x Hx). }
  assert (Hchars : Forall (fun d => d <> CR /\ d <> BOM)
                     (join [LF; LF] blocks)).
  { apply join_Forall;
      [constructor; [split; discriminate|];
       constructor; [split; discriminate|constructor]|].
    eapply Forall_impl; [exact Hshape|]. simpl; tauto. }
  rewrite replaceCRLF_fixed
    by (eapply Forall_impl; [exact Hchars|]; simpl; tauto).
  rewrite removeAll_fixed
    by (eapply Forall_impl; [exact Hchars|]; simpl; tauto).
  rewrite splitNewlineRuns_join.
  - subst blocks. now rewrite parse_captions.
  - subst blocks. discriminate.
  - eapply Forall_impl; [exact Hshape|]. simpl; tauto.
Qed.

Lemma parseSrt_renderSrt_witness :
  ParseSubs.parseSrt
    (Laws.renderSrt
       [ {| Laws.captionNumber := lit "1";
            Laws.captionStart := lit "00:00:01,000";
            Laws.captionEnd := lit "00:00:02,500";
            Laws.captionText := lit "こんにちは" |};
         {| Laws.captionNumber := lit "1";
            Laws.captionStart := lit "00:00:03,000";
            Laws.captionEnd := lit "00:00:04,000";
            Laws.captionText := lit "again" |} ])
  = [ {| ParseSubs.index := 1; ParseSubs.rawId := 1;
         ParseSubs.start := Some (lit "00:00:01,000");
         ParseSubs.end_ := Some (lit "00:00:02,500");
         ParseSubs.startMs := Some 1000%Z; ParseSubs.endMs := Some 2500%Z;
         ParseSubs.text := lit "こんにちは" |};
      {| ParseSubs.index := 2; ParseSubs.rawId := 1;
         ParseSubs.start := Some (lit "00:00:03,000");
         ParseSubs.end_ := Some (lit "00:00:04,000");
         ParseSubs.startMs := Some 3000%Z; ParseSubs.endMs := Some 4000%Z;
         ParseSubs.text := lit "again" |} ].
Proof.
  refine (eq_trans (parseSrt_renderSrt _ _) _); [|vm_compute; reflexivity].
  constructor; [|constructor; [|constructor]];
    (unfold Laws.plainCaption, Laws.trimmed;
     cbn [Laws.captionNumber Laws.captionStart Laws.captionEnd
          Laws.captionText];
     repeat apply conj;
     first [ apply (bool_decide_unpack _); vm_compute; exact I
           | vm_compute; first [discriminate | reflexivity | exact I] ]).
Defined.

(** ** Tabular export *)

Section Tsv.

Import Laws.
Local Open Scope N_scope.




End Tsv.



(** ** Lexical enricher *)

Section Lexical.

Import Enrich Laws.
Local Open Scope N_scope.

Lemma hiragana_kept c :
  (12449 <=? c) && (c <=? 12534) = true ->
  (12449 <=? c - 96) && (c - 96 <=? 12534) = false.
Proof.
  rewrite andb_true_iff, !N.leb_le. intros [H1 H2].
  apply andb_false_iff. left. apply N.leb_gt. lia.
Qed.

Lemma katakanaToHiragana_clear text :
  Forall (fun c => negb ((12449 <=? c) && (c <=? 12534)) = true)
    (katakanaToHiragana text).
Proof.
  unfold katakanaToHiragana. apply Forall_map, Forall_forall. intros c _.
  cbv beta.
  destruct ((12449 <=? c) && (c <=? 12534)) eqn:E.
  - now rewrite hiragana_kept.
  - now rewrite E.
Qed.

Lemma katakanaToHiragana_fixed text :
  Forall (fun c => negb ((12449 <=? c) && (c <=? 12534)) = true) text ->
  katakanaToHiragana text = text.
Proof.
  unfold katakanaToHiragana.
  induction 1 as [|c r Hc _ IH]; [reflexivity|].
  cbn [map]. rewrite IH. apply negb_true_iff in Hc. now rewrite Hc.
Qed.

Lemma join_infix sep parts p :
  In p parts -> exists pre post, join sep parts = pre ++ p ++ post.
Proof.
  induction parts as [|q ps IH]; [contradiction|].
  intros [->|Hin].
  - destruct ps as [|q' ps'].
    + exists [], []. cbn. now rewrite app_nil_r.
    + exists [], (sep ++ join sep (q' :: ps')). reflexivity.
  - destruct (IH Hin) as (pre & post & Heq).
    destruct ps as [|q' ps']; [contradiction|].
    exists (q ++ sep ++ pre), post.
    change (join sep (q :: q' :: ps')) with (q ++ sep ++ join sep (q' :: ps')).
    rewrite Heq, <- !app_assoc. reflexivity.
Qed.


End Lexical.

(** X7. Turning katakana into hiragana a second time changes nothing, and
    the result has as many code units as the reading. *)
Theorem katakanaToHiragana_idempotent (text : jsstring) :
  Enrich.katakanaToHiragana (Enrich.katakanaToHiragana text)
  = Enrich.katakanaToHiragana text
  /\ length (Enrich.katakanaToHiragana text) = length text.
Proof.
  split.
  - apply katakanaToHiragana_fixed, katakanaToHiragana_clear.
  - unfold Enrich.katakanaToHiragana. apply length_map.
Qed.

(** X8. The literal translation of an empty breakdown is empty; otherwise
    it holds, for every token, the token's first gloss when that gloss is not
    empty and the token's surface form when it is or when the dictionary
    gave nothing. *)
Theorem buildLiteralTranslation_pieces (tokens : list Enrich.TokenBreakdown) :
  (tokens = [] -> Enrich.buildLiteralTranslation tokens = [])
  /\ (forall token, In token tokens ->
        exists pre post,
          Enrich.buildLiteralTranslation tokens
          = pre ++ Laws.literalPiece token ++ post)
  /\ (forall token, In token tokens -> Enrich.meanings token = None ->
        exists pre post,
          Enrich.buildLiteralTranslation tokens
          = pre ++ Enrich.surface token ++ post).
Proof.
  assert (Hpiece : forall token, In token tokens ->
             exists pre post,
               Enrich.buildLiteralTranslation tokens
               = pre ++ Laws.literalPiece token ++ post).
  { intros token Hin. unfold Enrich.buildLiteralTranslation.
    destruct tokens as [|t ts]; [contradiction|].
    apply join_infix.
    change (In (Laws.literalPiece token) (map Laws.literalPiece (t :: ts))).
    now apply in_map. }
  split; [now intros ->|]. split; [exact Hpiece|].
  intros token Hin Hnone. destruct (Hpiece token Hin) as (pre & post & H).
  exists pre, post. rewrite H. unfold Laws.literalPiece. now rewrite Hnone.
Qed.

Lemma buildLiteralTranslation_pieces_witness :
  exists pre post,
    Enrich.buildLiteralTranslation
      [ {| Enrich.surface := lit "猫"; Enrich.lemma := lit "猫";
           Enrich.tokenReading := None; Enrich.tokenPos := lit "noun";
           Enrich.meanings := None |};
        {| Enrich.surface := lit "だ"; Enrich.lemma := lit "だ";
           Enrich.tokenReading := None; Enrich.tokenPos := [];
           Enrich.meanings := Some [lit "is"] |} ]
    = pre ++ lit "猫" ++ post.
Proof.
  apply (proj2 (proj2 (buildLiteralTranslation_pieces _))
           {| Enrich.surface := lit "猫"; Enrich.lemma := lit "猫";
              Enrich.tokenReading := None; Enrich.tokenPos := lit "noun";
              Enrich.meanings := None |});
    [now left|reflexivity].
Defined.


(** ** Dictionary *)

Section Dictionary.

Import Enrich Laws.

Lemma loadDictionary_fold entries :
  forall (m : gmap jsstring DictionaryEntry) key,
  fold_left (fun m entry => <[entryLemma entry := entry]> m) entries m !! key
  = match lastEntry key entries with
    | Some e => Some e
    | None => m !! key
    end.
Proof.
  induction entries as [|e rest IH]; intros m key; [reflexivity|].
  cbn [fold_left lastEntry]. rewrite IH.
  destruct (lastEntry key rest); [reflexivity|].
  case_bool_decide as Hk.
  - rewrite <- Hk. apply lookup_insert_eq.
  - now apply lookup_insert_ne.
Qed.

End Dictionary.

(** X10. A dictionary file is looked up by exact lemma, and of several
    entries with the same lemma the last one counts; a lemma the file does not
    hold has no entry. A missing file gives the empty dictionary and one
    warning. *)
Theorem loadDictionary_last_wins
    (dictPath : jsstring) (entries : list Enrich.DictionaryEntry)
    (key : jsstring) :
  (Enrich.loadDictionary dictPath (Some entries)).1 !! key
  = Laws.lastEntry key entries
  /\ (Enrich.loadDictionary dictPath (Some entries)).2 = []
  /\ (Enrich.loadDictionary dictPath None).1 !! key = None
  /\ length (Enrich.loadDictionary dictPath None).2 = 1%nat
  /\ (~ In key (map Enrich.entryLemma entries) ->
      (Enrich.loadDictionary dictPath (Some entries)).1 !! key = None).
Proof.
  assert (H : (Enrich.loadDictionary dictPath (Some entries)).1 !! key
              = Laws.lastEntry key entries).
  { cbn [Enrich.loadDictionary fst]. rewrite loadDictionary_fold.
    now destruct (Laws.lastEntry key entries). }
  repeat split; try assumption; try reflexivity.
  intros Hnot. rewrite H. clear H.
  induction entries as [|e rest IH]; [reflexivity|].
  cbn [Laws.lastEntry]. rewrite IH by (intros Hin; apply Hnot; now right).
  rewrite bool_decide_false; [reflexivity|].
  intros Heq. apply Hnot. now left.
Qed.

Lemma loadDictionary_last_wins_witness :
  (Enrich.loadDictionary (lit "dict.json")
     (Some [ {| Enrich.entryLemma := lit "猫"; Enrich.entryReading := None;
                Enrich.entryPos := None;
                Enrich.entryMeanings := Some [lit "cat"] |} ])).1
  !! lit "犬" = None.
Proof.
  apply (proj2 (proj2 (proj2 (proj2 (loadDictionary_last_wins _ _ _))))).
  vm_compute. intros [H|[]]. discriminate H.
Defined.

(** ** Translation resolver: the hint state *)

Section HintState.

Import Enrich Spec Laws.

Lemma resolveCard_prior_source card tokenizer dictionary st translator replace :
  priorSource (resolveCard card tokenizer dictionary st translator replace)
  <> SrcDeepl.
Proof.
  pose proof (resolveCard_prior card tokenizer dictionary st translator replace)
    as (_ & Hprior & _). cbv zeta in Hprior.
  apply (f_equal snd) in Hprior. cbn [snd] in Hprior. rewrite Hprior.
  destruct (truthy _); [discriminate|].
  destruct (nonEmpty _ && _); discriminate.
Qed.

(** The service's text is the result exactly when it was registered. *)
Lemma resolveCard_deepl card tokenizer dictionary st translator replace :
  let r := resolveCard card tokenizer dictionary st translator replace in
  (translationSource r = SrcDeepl ->
   finalTranslation r <> []
   /\ translationsAfter r
      = registerGeneratedTranslation st card (finalTranslation r))
  /\ (translationSource r <> SrcDeepl ->
      translationsAfter r = st
      /\ finalTranslation r = priorTranslation r).
Proof.
  cbv zeta.
  pose proof (resolveCard_final card tokenizer dictionary st translator replace)
    as Hfinal.
  pose proof (resolveCard_prior_source card tokenizer dictionary st translator
                replace) as Hprior.
  cbv zeta in Hfinal.
  destruct (if shouldAutoTranslate _ then translator else None)
    as [translate|].
  - destruct (translate card) as [[[|c g]|] warnings];
      injection Hfinal as Hf Hs Hst Hw; rewrite Hf, Hs, Hst;
      split; intros H; try contradiction; try (now split); try discriminate.
  - injection Hfinal as Hf Hs Hst Hw. rewrite Hf, Hs, Hst.
    split; intros H; [contradiction|now split].
Qed.

Lemma pickTranslation_by_id card st t :
  byId st !! stringOfNumber (id card) = Some t ->
  pickTranslation card st = Some t.
Proof. intros H. unfold pickTranslation. now rewrite H. Qed.

Lemma pickTranslation_by_sentence card st t :
  byId st !! stringOfNumber (id card) = None ->
  subtitleId card ≫= (fun sid => bySubtitleId st !! stringOfNumber sid) = None ->
  trim (default [] (sentence card)) <> [] ->
  bySentence st !! trim (default [] (sentence card)) = Some t ->
  pickTranslation card st = Some t.
Proof.
  intros H1 H2 H3 H4. unfold pickTranslation.
  rewrite H1, H2. now rewrite (proj2 (nonEmpty_true _) H3).
Qed.

End HintState.

(** X11. Once the service's text has become a card's translation, it is a
    hint: resolving that card again, or any card with the same [id], gives
    the same text as a hint without calling the translator, whatever
    translator and options are then in force; and so does a card with the
    same trimmed sentence for which the indices by id and by subtitle hold
    nothing. *)
Theorem generated_translation_reused
    (card : Enrich.CardRecord) (tokenizer : Enrich.KuromojiTokenizer)
    (dictionary : gmap jsstring Enrich.DictionaryEntry)
    (st : Enrich.TranslationState) (translator : option Enrich.TranslatorFn)
    (replace : bool) :
  let r := Enrich.resolveCard card tokenizer dictionary st translator replace in
  let st' := Enrich.translationsAfter r in
  Enrich.translationSource r = Enrich.SrcDeepl ->
  forall card' tokenizer' dictionary' translator' replace',
    (stringOfNumber (Enrich.id card') = stringOfNumber (Enrich.id card)
     \/ (Enrich.byId st' !! stringOfNumber (Enrich.id card') = None
         /\ Enrich.subtitleId card' ≫=
              (fun sid => Enrich.bySubtitleId st' !! stringOfNumber sid) = None
         /\ trim (default [] (Enrich.sentence card')) <> []
         /\ trim (default [] (Enrich.sentence card'))
            = trim (default [] (Enrich.sentence card)))) ->
    let r' := Enrich.resolveCard card' tokenizer' dictionary' st' translator'
                replace' in
    Enrich.finalTranslation r' = Enrich.finalTranslation r
    /\ Enrich.translationSource r' = Enrich.SrcHint
    /\ Enrich.translationsAfter r' = st'
    /\ Enrich.warned r' = [].
Proof.
  cbv zeta. intros Hsrc card' tokenizer' dictionary' translator' replace' Hsame.
  destruct (proj1 (resolveCard_deepl card tokenizer dictionary st translator
                     replace) Hsrc) as [Hne Hst].
  apply resolveCard_hint; [|exact Hne].
  destruct Hsame as [Hid|(Hnoid & Hnosub & Hsentence & Hsame)].
  - apply pickTranslation_by_id. rewrite Hst, Hid.
    cbn [Enrich.registerGeneratedTranslation Enrich.byId].
    apply lookup_insert_eq.
  - apply pickTranslation_by_sentence; try assumption.
    rewrite Hst. cbn [Enrich.registerGeneratedTranslation Enrich.bySentence].
    rewrite Hsame in Hsentence |- *.
    destruct (trim (default [] (Enrich.sentence card))) as [|c s];
      [contradiction|].
    apply lookup_insert_eq.
Qed.

Lemma generated_translation_reused_witness :
  let r := Enrich.resolveCard Samples.card5 Samples.wholeSentence ∅
             (Enrich.emptyState None) (Some MoreSamples.catTranslator) true in
  let r' := Enrich.resolveCard Samples.card5 Samples.wholeSentence ∅
              (Enrich.translationsAfter r) None false in
  Enrich.finalTranslation r = lit "A cat."
  /\ Enrich.finalTranslation r' = lit "A cat."
  /\ Enrich.translationSource r' = Enrich.SrcHint.
Proof.
  cbv zeta. split; [vm_compute; reflexivity|].
  assert (Hsrc : Enrich.translationSource
                   (Enrich.resolveCard Samples.card5 Samples.wholeSentence ∅
                      (Enrich.emptyState None)
                      (Some MoreSamples.catTranslator) true)
                 = Enrich.SrcDeepl) by (vm_compute; reflexivity).
  destruct (generated_translation_reused _ _ _ _ _ _ Hsrc Samples.card5
              Samples.wholeSentence ∅ None false (or_introl eq_refl))
    as (H1 & H2 & _).
  split; [|exact H2]. rewrite H1. vm_compute. reflexivity.
Defined.

Section StateFrame.

Import Enrich Spec Laws.

Lemma resolveCard_without_translator card tokenizer dictionary st replace :
  let r := resolveCard card tokenizer dictionary st None replace in
  translationsAfter r = st /\ warned r = []
  /\ finalTranslation r = priorTranslation r.
Proof.
  cbv zeta.
  pose proof (resolveCard_final card tokenizer dictionary st None replace)
    as Hfinal. cbv zeta in Hfinal.
  destruct (shouldAutoTranslate _); injection Hfinal as -> _ -> ->;
    now repeat split.
Qed.




End StateFrame.

(** X12. Resolving a card leaves the loaded entries and the source path of
    the hint state alone, appends at most one entry to the added ones, and
    changes no hint but those under the card's own [id], [subtitleId] and
    trimmed sentence; without a translator, and whenever the result does not
    come from the service, the state is not changed at all. *)
Theorem resolveCard_state_frame
    (card : Enrich.CardRecord) (tokenizer : Enrich.KuromojiTokenizer)
    (dictionary : gmap jsstring Enrich.DictionaryEntry)
    (st : Enrich.TranslationState) (translator : option Enrich.TranslatorFn)
    (replace : bool) :
  let r := Enrich.resolveCard card tokenizer dictionary st translator replace in
  let st' := Enrich.translationsAfter r in
  Enrich.initialEntries st' = Enrich.initialEntries st
  /\ Enrich.sourcePath st' = Enrich.sourcePath st
  /\ (exists added, Enrich.addedEntries st' = Enrich.addedEntries st ++ added
                    /\ (length added <= 1)%nat)
  /\ (forall k, k <> stringOfNumber (Enrich.id card) ->
                Enrich.byId st' !! k = Enrich.byId st !! k)
  /\ (forall k, (forall sid, Enrich.subtitleId card = Some sid ->
                             k <> stringOfNumber sid) ->
                Enrich.bySubtitleId st' !! k = Enrich.bySubtitleId st !! k)
  /\ (forall k, k <> trim (default [] (Enrich.sentence card)) ->
                Enrich.bySentence st' !! k = Enrich.bySentence st !! k)
  /\ (Enrich.translationSource r <> Enrich.SrcDeepl -> st' = st)
  /\ (translator = None -> st' = st /\ Enrich.warned r = []).
Proof.
  cbv zeta.
  destruct (resolveCard_deepl card tokenizer dictionary st translator replace)
    as [Hdeepl Hother]. cbv zeta in Hdeepl, Hother.
  assert (Hnone : translator = None ->
            Enrich.translationsAfter
              (Enrich.resolveCard card tokenizer dictionary st translator
                 replace) = st
            /\ Enrich.warned
                 (Enrich.resolveCard card tokenizer dictionary st translator
                    replace) = []).
  { intros ->.
    destruct (resolveCard_without_translator card tokenizer dictionary st
                replace) as (H1 & H2 & _). now split. }
  destruct (Enrich.translationSource
              (Enrich.resolveCard card tokenizer dictionary st translator
                 replace)) eqn:Hsrc.
  1-3: destruct Hother as [-> _]; [discriminate|];
    repeat split; try reflexivity; try (apply Hnone; assumption);
    exists []; rewrite app_nil_r; split; [reflexivity|simpl; lia].
  destruct (Hdeepl eq_refl) as [_ Hst].
  split; [now rewrite Hst|]. split; [now rewrite Hst|].
  split.
  { rewrite Hst. unfold Enrich.registerGeneratedTranslation.
    cbn [Enrich.addedEntries].
    destruct (Enrich.sanitizeTranslationEntry _) as [e|].
    - exists [e]. split; [reflexivity|simpl; lia].
    - exists []. rewrite app_nil_r. split; [reflexivity|simpl; lia]. }
  split.
  { intros k Hk. rewrite Hst. cbn [Enrich.registerGeneratedTranslation Enrich.byId].
    now apply lookup_insert_ne. }
  split.
  { intros k Hk. rewrite Hst.
    cbn [Enrich.registerGeneratedTranslation Enrich.bySubtitleId].
    destruct (Enrich.subtitleId card) as [sid|]; [|reflexivity].
    apply lookup_insert_ne. intros Heq. now apply (Hk sid). }
  split.
  { intros k Hk. rewrite Hst.
    cbn [Enrich.registerGeneratedTranslation Enrich.bySentence].
    destruct (trim (default [] (Enrich.sentence card))) as [|c s];
      [reflexivity|]. now apply lookup_insert_ne. }
  split; [intros H; now destruct H|exact Hnone].
Qed.

Lemma resolveCard_state_frame_witness :
  let r := Enrich.resolveCard Samples.card5 Samples.wholeSentence ∅
             Samples.helloState (Some MoreSamples.catTranslator) true in
  Enrich.byId (Enrich.translationsAfter r) !! lit "6"
  = Enrich.byId Samples.helloState !! lit "6".
Proof.
  cbv zeta.
  apply (proj1 (proj2 (proj2 (proj2
           (resolveCard_state_frame Samples.card5 Samples.wholeSentence ∅
              Samples.helloState (Some MoreSamples.catTranslator) true))))).
  vm_compute. discriminate.
Defined.

(** ** The run *)





(** ** Translation cache: merging again *)

Section MergeAgain.

Import Enrich Spec Laws.

Implicit Types (m keyed : list (jsstring * TranslationEntry)).

Lemma distinctKeys_fixed keys : NoDup keys -> distinctKeys keys = keys.
Proof.
  induction 1 as [|k rest Hk _ IH]; [reflexivity|].
  cbn [distinctKeys]. rewrite IH. f_equal.
  clear IH. induction rest as [|k' rest IH]; [reflexivity|].
  apply not_elem_of_cons in Hk as [Hne Hk].
  cbn [List.filter]. rewrite bool_decide_false by congruence.
  cbn [negb]. now rewrite IH.
Qed.

Lemma lastWith_mapGet m :
  NoDup (map fst m) -> forall key, lastWith key m = mapGet key m.
Proof.
  induction m as [|[k e] rest IH]; [reflexivity|].
  cbn [map fst]. intros Hnodup key.
  apply NoDup_cons in Hnodup as [Hk Hrest].
  cbn [lastWith mapGet]. rewrite (IH Hrest).
  case_bool_decide as Heq; [|now destruct (mapGet key rest)].
  subst key.
  assert (Hnone : mapGet k rest = None).
  { clear -Hk. induction rest as [|[k' e'] rest IH]; [reflexivity|].
    cbn [map fst] in Hk. apply not_elem_of_cons in Hk as [Hne Hk].
    cbn [mapGet]. rewrite bool_decide_false by congruence. now apply IH. }
  now rewrite Hnone.
Qed.

(** Entries whose keys are all different are merged into themselves. *)
Lemma mergedByKey_fixed entries :
  NoDup (map fst (keysFrom 0 entries)) -> mergedByKey entries = entries.
Proof.
  intros Hnodup. unfold mergedByKey. cbv zeta.
  rewrite (distinctKeys_fixed _ Hnodup).
  rewrite (omap_pointwise _ (fun key => mapGet key (keysFrom 0 entries)))
    by (intros key; now apply lastWith_mapGet).
  rewrite values_by_key by exact Hnodup.
  apply keysFrom_entries.
Qed.

Lemma stableKey_key e n :
  anonymous e = false -> stableKey e = Some (entryKey e n).1.
Proof.
  unfold stableKey, anonymous, entryKey.
  destruct (entrySubtitleId e), (entryId e), (entrySentence e) as [[|c s]|];
    try discriminate; reflexivity.
Qed.

(** Where the keys of a keyed list come from. *)
Lemma keysFrom_keys entries : forall n k,
  k ∈ map fst (keysFrom n entries) ->
  (exists e, e ∈ entries /\ stableKey e = Some k)
  \/ (exists e j, anonymous e = true /\ (n <= j)%nat /\ k = (entryKey e j).1).
Proof.
  induction entries as [|e rest IH]; intros n k Hk.
  - now apply elem_of_nil in Hk.
  - cbn [keysFrom map fst] in Hk. apply elem_of_cons in Hk as [->|Hk].
    + destruct (anonymous e) eqn:He.
      * right. exists e, n. auto.
      * left. exists e. split; [apply elem_of_cons; now left|].
        now apply stableKey_key.
    + apply IH in Hk as [(e' & Hin & Hs)|(e' & j & Ha & Hj & ->)].
      * left. exists e'. split; [apply elem_of_cons; now right|exact Hs].
      * right. exists e', j. repeat split; try assumption.
        rewrite entryKey_counter in Hj. destruct (anonymous e); lia.
Qed.

Lemma stableKey_not_anonymous e e' j k :
  stableKey e = Some k -> anonymous e' = true -> k <> (entryKey e' j).1.
Proof.
  unfold stableKey. destruct (anonymous e) eqn:He; [discriminate|].
  intros [= <-] He' Heq. symmetry in Heq. revert Heq.
  rewrite (f_equal (fun o => default [] o)
             (eq_trans (eq_sym (stableKey_key e 0 He))
                (stableKey_key e (S j) He)) : (entryKey e 0).1 = _).
  apply (anonymous_key_apart e' j e (S j) He'). lia.
Qed.

Lemma keysFrom_NoDup entries : forall n,
  NoDup (omap stableKey entries) -> NoDup (map fst (keysFrom n entries)).
Proof.
  induction entries as [|e rest IH]; intros n Hnodup; [constructor|].
  cbn [keysFrom map fst]. cbn [omap list_omap] in Hnodup.
  destruct (anonymous e) eqn:He.
  - unfold stableKey in Hnodup at 1. rewrite He in Hnodup.
    constructor; [|now apply IH].
    intros Hin. apply keysFrom_keys in Hin
      as [(e' & _ & Hs)|(e' & j & Ha & Hj & Heq)].
    + now apply (stableKey_not_anonymous e' e n _ Hs He).
    + rewrite entryKey_counter, He in Hj.
      revert Heq. apply anonymous_key_apart; [exact He|lia].
  - rewrite (stableKey_key e n He) in Hnodup.
    apply NoDup_cons in Hnodup as [Hk Hrest].
    constructor; [|now apply IH].
    intros Hin. apply keysFrom_keys in Hin
      as [(e' & Hin & Hs)|(e' & j & Ha & _ & Heq)].
    + apply Hk. apply list_elem_of_omap. eauto.
    + exact (stableKey_not_anonymous e e' j _ (stableKey_key e n He) Ha Heq).
Qed.

Lemma lastWith_elem key keyed e :
  lastWith key keyed = Some e -> (key, e) ∈ keyed.
Proof.
  induction keyed as [|[k e'] rest IH]; [discriminate|].
  cbn [lastWith]. destruct (lastWith key rest) as [later|].
  - intros [= <-]. apply elem_of_cons. right. now apply IH.
  - case_bool_decide as Hk; [|discriminate].
    intros [= <-]. subst k. apply elem_of_cons. now left.
Qed.

Lemma keysFrom_pair entries : forall n k e,
  (k, e) ∈ keysFrom n entries -> exists j, k = (entryKey e j).1.
Proof.
  induction entries as [|x rest IH]; intros n k e Hin.
  - now apply elem_of_nil in Hin.
  - cbn [keysFrom] in Hin. apply elem_of_cons in Hin as [[= -> ->]|Hin].
    + now exists n.
    + now apply IH in Hin.
Qed.

Lemma omap_NoDup_partial (g : jsstring -> option jsstring) keys :
  NoDup keys -> (forall k y, g k = Some y -> y = k) -> NoDup (omap g keys).
Proof.
  intros Hnodup Hg. induction Hnodup as [|k rest Hk _ IH]; [constructor|].
  cbn [omap list_omap]. destruct (g k) as [y|] eqn:E; [|exact IH].
  apply Hg in E as ->. constructor; [|exact IH].
  intros Hin. apply list_elem_of_omap in Hin as (k' & Hk' & E').
  apply Hg in E' as <-. contradiction.
Qed.

Lemma omap_omap {A B C} (f : A -> option B) (g : B -> option C) (l : list A) :
  omap g (omap f l) = omap (fun x => f x ≫= g) l.
Proof.
  induction l as [|x l IH]; [reflexivity|].
  cbn [omap list_omap]. destruct (f x) as [y|]; cbn; [|exact IH].
  cbn [omap list_omap]. now rewrite IH.
Qed.

(** The merged entries have keys that are all different. *)
Lemma mergedByKey_NoDup entries :
  NoDup (map fst (keysFrom 0 (mergedByKey entries))).
Proof.
  apply keysFrom_NoDup. unfold mergedByKey. cbv zeta.
  rewrite omap_omap. apply omap_NoDup_partial; [apply distinctKeys_NoDup|].
  intros k y Hy.
  destruct (lastWith k (keysFrom 0 entries)) as [e|] eqn:E; [|discriminate].
  cbn in Hy. apply lastWith_elem, keysFrom_pair in E as [j ->].
  unfold stableKey in Hy. destruct (anonymous e) eqn:He; [discriminate|].
  injection Hy as <-.
  pose proof (stableKey_key e 0 He) as H0.
  pose proof (stableKey_key e j He) as Hj.
  congruence.
Qed.

End MergeAgain.

(** X15. Merging is idempotent: the merged cache, merged again with nothing
    added, is unchanged; and a list of entries whose keys are all different
    is merged into itself. *)
Theorem mergeTranslationEntries_idempotent
    (existing additions : list Enrich.TranslationEntry) :
  Enrich.mergeTranslationEntries
    (Enrich.mergeTranslationEntries existing additions) []
  = Enrich.mergeTranslationEntries existing additions
  /\ (NoDup (map fst (Spec.keysFrom 0 existing)) ->
      Enrich.mergeTranslationEntries existing [] = existing).
Proof.
  split.
  - rewrite (merge_by_key existing additions), merge_by_key, app_nil_r.
    apply mergedByKey_fixed, mergedByKey_NoDup.
  - intros H. rewrite merge_by_key, app_nil_r. now apply mergedByKey_fixed.
Qed.

Lemma mergeTranslationEntries_idempotent_witness :
  Enrich.mergeTranslationEntries
    (Enrich.mergeTranslationEntries
       [MoreSamples.catEntry] [MoreSamples.dogEntry; MoreSamples.catEntry]) []
  = Enrich.mergeTranslationEntries
      [MoreSamples.catEntry] [MoreSamples.dogEntry; MoreSamples.catEntry]
  /\ Enrich.mergeTranslationEntries
       [MoreSamples.catEntry; MoreSamples.dogEntry] []
     = [MoreSamples.catEntry; MoreSamples.dogEntry].
Proof.
  split.
  - apply (mergeTranslationEntries_idempotent
             [MoreSamples.catEntry] [MoreSamples.dogEntry; MoreSamples.catEntry]).
  - apply (mergeTranslationEntries_idempotent
             [MoreSamples.catEntry; MoreSamples.dogEntry] []).
    apply (bool_decide_unpack _). vm_compute. exact I.
Defined.

Section CacheReload.

Import Enrich Laws.

Lemma normalizeKey_normal field :
  kept (normalizeKey field) -> normalKey (normalizeKey field).
Proof.
  assert (Hn : forall value,
             kept (Some (normalizeNumeric value)) ->
             normalKey (Some (normalizeNumeric value))).
  { intros value. unfold normalizeNumeric.
    assert (Hvia : kept (Some match parseInt (toString value) with
                              | NaN => IdString (toString value)
                              | parsed => IdNumber parsed
                              end) ->
                   normalKey (Some match parseInt (toString value) with
                                   | NaN => IdString (toString value)
                                   | parsed => IdNumber parsed
                                   end)).
    { destruct (parseInt (toString value)) eqn:E; cbn [kept normalKey];
        try (intros H; exact H).
      intros H. split; [exact H|exact E]. }
    destruct value as [| |n| | |]; try exact Hvia.
    destruct (isFinite n) eqn:En; [|exact Hvia]. intros _. exact En. }
  destruct field as [[| | |[|c s]| |]|]; cbn [normalizeKey]; intros H;
    try exact I; now apply Hn.
Qed.

Lemma normalizeKey_idJson v : normalKey v -> normalizeKey (Some (idJson v)) = v.
Proof.
  destruct v as [[n|s]|]; cbn [normalKey idJson]; [| |reflexivity].
  - intros Hn. rewrite Hn. cbn [normalizeKey normalizeNumeric].
    now rewrite Hn.
  - intros [Hs Hp]. destruct s as [|c s]; [congruence|].
    cbn [normalizeKey normalizeNumeric toString]. now rewrite Hp.
Qed.

Lemma entryJson_fields e :
  let fields := match entryJson e with JObject fields => fields | _ => [] end in
  getField (lit "id") fields = Some (idJson (entryId e))
  /\ getField (lit "subtitleId") fields = Some (idJson (entrySubtitleId e))
  /\ getField (lit "sentence") fields
     = Some (optJson JString (entrySentence e))
  /\ getField (lit "translation") fields = Some (JString (entryTranslation e)).
Proof. repeat split. Qed.

(** An entry in sanitized form, written to the cache and read back, is
    accepted as it is. *)
Lemma sanitized_reload e :
  sanitized e -> sanitizeTranslationEntry (entryJson e) = Some e.
Proof.
  intros (Ht & Htrim & Hs & Hid & Hsid).
  destruct (entryJson_fields e) as (Fid & Fsid & Fs & Ft).
  unfold sanitizeTranslationEntry. unfold entryJson in *.
  rewrite Ft, Fid, Fsid, Fs. cbv zeta.
  rewrite (trimmed_fixed _ Htrim).
  rewrite (proj2 (nonEmpty_true _) Ht).
  rewrite (normalizeKey_idJson _ Hid), (normalizeKey_idJson _ Hsid).
  destruct e as [i sid [s|] t];
    cbn [entryId entrySubtitleId entrySentence entryTranslation optJson]
      in *; [|reflexivity].
  destruct Hs as [Hs Hstrim].
  rewrite (trimmed_fixed _ Hstrim), (proj2 (nonEmpty_true _) Hs). reflexivity.
Qed.

(** What the sanitizer returns is in sanitized form when the cache file
    keeps its identifiers. *)
Lemma sanitize_sanitized entryLike e :
  sanitizeTranslationEntry entryLike = Some e ->
  kept (entryId e) -> kept (entrySubtitleId e) ->
  sanitized e.
Proof.
  unfold sanitizeTranslationEntry.
  destruct entryLike as [| | | | |maybe]; try discriminate.
  destruct (getField (lit "translation") maybe) as [[| | |raw| |]|];
    try discriminate.
  cbv zeta. destruct (nonEmpty (trim raw)) eqn:Hraw; [|discriminate].
  intros [= <-]. cbn [entryId entrySubtitleId entrySentence entryTranslation].
  intros Hid Hsid. unfold sanitized.
  cbn [entryId entrySubtitleId entrySentence entryTranslation].
  split; [now apply nonEmpty_true|]. split; [apply trim_trimmed|].
  split; [|split; now apply normalizeKey_normal].
  destruct (getField (lit "sentence") maybe) as [[| | |s| |]|]; try exact I.
  destruct (nonEmpty (trim s)) eqn:Hs; [|exact I].
  split; [now apply nonEmpty_true|apply trim_trimmed].
Qed.

Lemma loadTranslationHints_array path items :
  loadTranslationHints (Some path) (Some (JArray items))
  = (fold_left registerEntry items (emptyState (Some path)), []).
Proof. reflexivity. Qed.

Lemma registerEntry_fold_path items : forall st,
  sourcePath (fold_left registerEntry items st) = sourcePath st.
Proof.
  induction items as [|item items IH]; intros st; [reflexivity|].
  cbn [fold_left]. rewrite IH. unfold registerEntry.
  now destruct (sanitizeTranslationEntry item).
Qed.

Lemma registerEntry_fold_initial entries : forall st,
  Forall sanitized entries ->
  initialEntries (fold_left registerEntry (map entryJson entries) st)
  = initialEntries st ++ entries
  /\ addedEntries (fold_left registerEntry (map entryJson entries) st)
     = addedEntries st.
Proof.
  induction entries as [|e rest IH]; intros st Hall.
  - cbn. now rewrite app_nil_r.
  - apply Forall_cons in Hall as [He Hrest].
    cbn [map fold_left]. destruct (IH (registerEntry st (entryJson e)) Hrest)
      as [-> ->].
    unfold registerEntry. rewrite (sanitized_reload e He).
    cbn [initialEntries addedEntries]. now rewrite <- app_assoc.
Qed.

End CacheReload.

(** X16. An entry the sanitizer has accepted, written to the cache file and
    read back, is accepted again and unchanged, provided the file keeps its
    identifiers: neither is an infinity, which is written as [null], or the
    empty string, which is read as no key. *)
Theorem sanitizeTranslationEntry_reload
    (entryLike : json) (e : Enrich.TranslationEntry) :
  Enrich.sanitizeTranslationEntry entryLike = Some e ->
  Laws.kept (Enrich.entryId e) ->
  Laws.kept (Enrich.entrySubtitleId e) ->
  Enrich.sanitizeTranslationEntry (Laws.entryJson e) = Some e.
Proof.
  intros Hs Hid Hsid. apply sanitized_reload.
  exact (sanitize_sanitized entryLike e Hs Hid Hsid).
Qed.

Lemma sanitizeTranslationEntry_reload_witness :
  Enrich.sanitizeTranslationEntry (Laws.entryJson MoreSamples.catEntry)
  = Some MoreSamples.catEntry.
Proof.
  apply (sanitizeTranslationEntry_reload
           (JObject [(lit "translation", JString (lit " A cat. "));
                     (lit "sentence", JString (lit "猫 "));
                     (lit "subtitleId", JString (lit "7th"));
                     (lit "id", JNumber (Int 5))])).
  - vm_compute. reflexivity.
  - reflexivity.
  - reflexivity.
Defined.

(** X17. A cache file that holds sanitized entries is loaded as it was
    written: the entries loaded are the entries of the file, in the same
    order; nothing counts as added and nothing is reported. *)
Theorem loadTranslationHints_reload
    (path : jsstring) (entries : list Enrich.TranslationEntry) :
  Forall Laws.sanitized entries ->
  exists st,
    Enrich.loadTranslationHints (Some path)
      (Some (JArray (map Laws.entryJson entries))) = (st, [])
    /\ Enrich.initialEntries st = entries
    /\ Enrich.addedEntries st = []
    /\ Enrich.sourcePath st = Some path.
Proof.
  intros Hall. eexists. split; [apply loadTranslationHints_array|].
  destruct (registerEntry_fold_initial entries
              (Enrich.emptyState (Some path)) Hall) as [Hi Ha].
  split; [exact Hi|]. split; [exact Ha|].
  apply registerEntry_fold_path.
Qed.

Lemma loadTranslationHints_reload_witness :
  exists st,
    Enrich.loadTranslationHints (Some (lit "cache.json"))
      (Some (JArray (map Laws.entryJson
                       [MoreSamples.catEntry; MoreSamples.dogEntry])))
    = (st, [])
    /\ Enrich.initialEntries st = [MoreSamples.catEntry; MoreSamples.dogEntry]
    /\ Enrich.addedEntries st = []
    /\ Enrich.sourcePath st = Some (lit "cache.json").
Proof.
  apply (loadTranslationHints_reload (lit "cache.json")
           [MoreSamples.catEntry; MoreSamples.dogEntry]).
  repeat constructor; vm_compute; congruence.
Defined.

Section Translator.

Import Enrich.

Lemma createDeepLTranslator_Ok authKey service formality glossaryId translate :
  createDeepLTranslator authKey service formality glossaryId = Ok translate ->
  forall card,
    translate card
    = let sentence := trim (default [] (sentence card)) in
      if nonEmpty sentence then
        match service sentence (Spec.formalityOption formality) glossaryId with
        | Ok response =>
            (match response with
             | ManyResults rs => trim <$> (head rs ≫= resultText)
             | OneResult r => trim <$> (r ≫= resultText)
             end, [])
        | Throw message => (None, [Spec.failureWarning card message])
        end
      else (None, []).
Proof.
  unfold createDeepLTranslator.
  destruct authKey as [[|c key]|]; try discriminate.
  intros [= <-] card. reflexivity.
Qed.

Lemma formalityOption_cases formality :
  Spec.formalityOption formality
  ∈ [None; Some (lit "more"); Some (lit "less")].
Proof.
  unfold Spec.formalityOption, normalizeDeepLFormality.
  repeat case_bool_decide; subst;
    try (exfalso; congruence);
    first [ apply elem_of_cons; left; reflexivity
          | apply elem_of_cons; right; apply elem_of_cons; left; congruence
          | apply elem_of_cons; right; apply elem_of_cons; right;
            apply elem_of_cons; left; congruence ].
Qed.

End Translator.

(** X18. What a translator built by [createDeepLTranslator] answers: nothing,
    without a warning, for a card whose sentence is blank; a text without
    surrounding white space, and then no warning; never more than one
    warning, and then no text. *)
Theorem createDeepLTranslator_answers
    (authKey : option jsstring) (service : Enrich.TranslateText)
    (formality : jsstring) (glossaryId : option jsstring)
    (translate : Enrich.TranslatorFn) (card : Enrich.CardRecord) :
  Enrich.createDeepLTranslator authKey service formality glossaryId
  = Enrich.Ok translate ->
  (trim (default [] (Enrich.sentence card)) = [] -> translate card = (None, []))
  /\ (forall text, (translate card).1 = Some text ->
        trim text = text /\ (translate card).2 = [])
  /\ ((translate card).2 = []
      \/ exists message,
           service (trim (default [] (Enrich.sentence card)))
             (Spec.formalityOption formality) glossaryId
           = Enrich.Throw message
           /\ translate card = (None, [Spec.failureWarning card message])).
Proof.
  intros Hok. rewrite (createDeepLTranslator_Ok _ _ _ _ _ Hok card). cbv zeta.
  destruct (trim (default [] (Enrich.sentence card))) as [|c s] eqn:Es.
  - cbn [nonEmpty fst snd]. split; [reflexivity|].
    split; [discriminate|now left].
  - cbn [nonEmpty fst snd]. split; [discriminate|].
    destruct (service (c :: s) (Spec.formalityOption formality) glossaryId)
      as [response|message] eqn:Er.
    + split; [|now left]. intros text Htext. split; [|reflexivity].
      cbn [fst] in Htext.
      assert (H : exists raw, text = trim raw).
      { destruct response as [r|rs];
          [destruct (r ≫= Enrich.resultText) as [raw|]
          |destruct (head rs ≫= Enrich.resultText) as [raw|]];
          cbn [fmap option_fmap option_map] in Htext; try discriminate;
          injection Htext as <-; eauto. }
      destruct H as [raw ->]. apply trim_idempotent.
    + split; [discriminate|]. right. now exists message.
Qed.

Lemma createDeepLTranslator_answers_witness :
  (trim (default [] (Enrich.sentence Samples.card5)) = [] ->
   MoreSamples.catTranslator Samples.card5 = (None, []))
  /\ (forall text, (MoreSamples.catTranslator Samples.card5).1 = Some text ->
        trim text = text /\ (MoreSamples.catTranslator Samples.card5).2 = [])
  /\ ((MoreSamples.catTranslator Samples.card5).2 = []
      \/ exists message,
           MoreSamples.alwaysCat
             (trim (default [] (Enrich.sentence Samples.card5)))
             (Spec.formalityOption (lit "prefer_more")) None
           = Enrich.Throw message
           /\ MoreSamples.catTranslator Samples.card5
              = (None, [Spec.failureWarning Samples.card5 message])).
Proof.
  apply (createDeepLTranslator_answers (Some (lit "key")) MoreSamples.alwaysCat
           (lit "prefer_more") None MoreSamples.catTranslator Samples.card5).
  reflexivity.
Defined.

(** X19. The translator consults the service only with a sentence that is
    not empty and has no surrounding white space, with no formality or one
    of [more] and [less], and with the glossary it was built with: two
    services that agree on these calls give translators that agree on every
    card. *)
Theorem createDeepLTranslator_queries
    (authKey : option jsstring) (service service' : Enrich.TranslateText)
    (formality : jsstring) (glossaryId : option jsstring)
    (translate translate' : Enrich.TranslatorFn) :
  Enrich.createDeepLTranslator authKey service formality glossaryId
  = Enrich.Ok translate ->
  Enrich.createDeepLTranslator authKey service' formality glossaryId
  = Enrich.Ok translate' ->
  (forall text option,
      text <> [] -> Laws.trimmed text ->
      option ∈ [None; Some (lit "more"); Some (lit "less")] ->
      service text option glossaryId = service' text option glossaryId) ->
  forall card, translate card = translate' card.
Proof.
  intros Hok Hok' Hagree card.
  rewrite (createDeepLTranslator_Ok _ _ _ _ _ Hok card).
  rewrite (createDeepLTranslator_Ok _ _ _ _ _ Hok' card). cbv zeta.
  destruct (nonEmpty (trim (default [] (Enrich.sentence card)))) eqn:Es;
    [|reflexivity].
  rewrite Hagree; [reflexivity| | |].
  - now apply nonEmpty_true.
  - apply trim_trimmed.
  - apply formalityOption_cases.
Qed.

Lemma createDeepLTranslator_queries_witness :
  MoreSamples.catTranslator Samples.card5
  = MoreSamples.strictTranslator Samples.card5.
Proof.
  apply (createDeepLTranslator_queries (Some (lit "key"))
           MoreSamples.alwaysCat MoreSamples.strictCat
           (lit "prefer_more") None
           MoreSamples.catTranslator MoreSamples.strictTranslator).
  - reflexivity.
  - reflexivity.
  - intros [|c text] option Htext _ _; [congruence|reflexivity].
Defined.

(** ** The command line of [parseSubs] *)

Section ParseSubsOptions.

Import ParseSubs ParseSubsCli Laws.
Import Enrich (Ok, Throw).

Variable node : Node.

(** The bound on the turns of the loop never cuts it short: any two
    bounds that cover the tokens left give the same result. *)
Lemma parseLoop_turns tokens : forall turns turns' i opts,
  (length tokens <= i + turns)%nat ->
  (length tokens <= i + turns')%nat ->
  parseLoop node turns tokens i opts = parseLoop node turns' tokens i opts.
Proof.
  induction turns as [|turns IH]; intros [|turns'] i opts Hlen Hlen';
    cbn [parseLoop]; try reflexivity;
    try (rewrite lookup_ge_None_2 by lia; reflexivity).
  destruct (tokens !! i) as [token|]; [|reflexivity].
  repeat case_bool_decide;
    try destruct (requirePathArgument tokens (S i) _);
    try reflexivity; apply IH; lia.
Qed.

Lemma parseLoop_optionsFrom tokens : forall turns i opts result,
  optionsFrom node tokens opts ->
  parseLoop node turns tokens i opts = Ok result ->
  optionsFrom node tokens result.
Proof.
  induction turns as [|turns IH]; intros i opts result Hopts.
  - now intros [= <-].
  - cbn [parseLoop]. destruct (tokens !! i) as [token|] eqn:Ei;
      [|now intros [= <-]].
    apply list_elem_of_lookup_2 in Ei.
    destruct Hopts as (Hj & Ht & Hjp & Htp).
    repeat case_bool_decide; subst; try discriminate;
      try (unfold requirePathArgument;
           destruct (tokens !! S i) as [path|] eqn:Ep; [|discriminate];
           apply list_elem_of_lookup_2 in Ep);
      apply IH; unfold optionsFrom;
      cbn [jsonPath tsvPath writeJson writeTsv];
      (split; [|split; [|split]]); try assumption;
      try (intros _; assumption);
      intros p [= <-]; eauto.
Qed.


Lemma switch_cases (token : jsstring) :
  token = lit "--no-json" \/ token = lit "--no-tsv" ->
  bool_decide (token = lit "--json") = false
  /\ bool_decide (token = lit "--tsv") = false.
Proof.
  intros [->| ->]; split; apply bool_decide_eq_false; intros H;
    apply (f_equal (fun s => length s)) in H; vm_compute in H; discriminate.
Qed.

Lemma parseLoop_switches tokens :
  Forall (fun token => token = lit "--no-json" \/ token = lit "--no-tsv")
    tokens ->
  forall turns i opts,
    (length tokens <= i + turns)%nat ->
    parseLoop node turns tokens i opts
    = Ok {| jsonPath := jsonPath opts; tsvPath := tsvPath opts;
            writeJson :=
              writeJson opts
              && negb (bool_decide (lit "--no-json" ∈ drop i tokens));
            writeTsv :=
              writeTsv opts
              && negb (bool_decide (lit "--no-tsv" ∈ drop i tokens)) |}.
Proof.
  intros Hall. induction turns as [|turns IH]; intros i opts Hlen.
  - rewrite drop_ge by lia. cbn [parseLoop].
    rewrite !bool_decide_false by apply not_elem_of_nil.
    destruct opts as [j t [] []]; reflexivity.
  - cbn [parseLoop]. destruct (tokens !! i) as [token|] eqn:Ei.
    + rewrite (drop_S _ _ _ Ei).
      pose proof (proj1 (Forall_lookup _ _) Hall i token Ei) as Hswitch.
      destruct (switch_cases token Hswitch) as [-> ->].
      destruct Hswitch as [->| ->].
      * rewrite bool_decide_true by reflexivity.
        rewrite IH by lia. cbn [jsonPath tsvPath writeJson writeTsv].
        rewrite (bool_decide_true (_ ∈ _ :: _))
          by (apply elem_of_cons; now left).
        rewrite andb_false_r. do 2 f_equal.
        rewrite (bool_decide_ext (lit "--no-tsv" ∈ lit "--no-json" :: _)
                   (lit "--no-tsv" ∈ drop (S i) tokens)); [reflexivity|].
        rewrite elem_of_cons. split; [intros [H|H]; [|exact H]|now right].
        apply (f_equal (fun s => length s)) in H. vm_compute in H.
        discriminate.
      * rewrite (bool_decide_false (lit "--no-tsv" = lit "--no-json")).
        2:{ intros H. apply (f_equal (fun s => length s)) in H.
            vm_compute in H. discriminate. }
        rewrite bool_decide_true by reflexivity.
        rewrite IH by lia. cbn [jsonPath tsvPath writeJson writeTsv].
        rewrite (bool_decide_true (lit "--no-tsv" ∈ lit "--no-tsv" :: _))
          by (apply elem_of_cons; now left).
        rewrite andb_false_r. do 2 f_equal.
        rewrite (bool_decide_ext (lit "--no-json" ∈ lit "--no-tsv" :: _)
                   (lit "--no-json" ∈ drop (S i) tokens)); [reflexivity|].
        rewrite elem_of_cons. split; [intros [H|H]; [|exact H]|now right].
        apply (f_equal (fun s => length s)) in H. vm_compute in H.
        discriminate.
    + apply lookup_ge_None_1 in Ei. rewrite drop_ge by lia.
      rewrite !bool_decide_false by apply not_elem_of_nil.
      destruct opts as [j t [] []]; reflexivity.
Qed.

End ParseSubsOptions.

(** X20. Options the parser accepts: at least one of the two outputs is
    enabled; an output is disabled only if its switch is among the tokens; a
    path is set only if its flag is among the tokens, and it is the resolved
    form of one of the tokens. *)
Theorem parseOptions_accepted
    (node : ParseSubsCli.Node) (tokens : list jsstring)
    (opts : ParseSubsCli.CliOptions) :
  ParseSubsCli.parseOptions node tokens = Enrich.Ok opts ->
  (ParseSubsCli.writeJson opts = true \/ ParseSubsCli.writeTsv opts = true)
  /\ Laws.optionsFrom node tokens opts.
Proof.
  unfold ParseSubsCli.parseOptions.
  destruct (ParseSubsCli.parseLoop node _ tokens 0 _) as [result|e] eqn:E;
    [|discriminate].
  destruct (negb (ParseSubsCli.writeJson result)
            && negb (ParseSubsCli.writeTsv result)) eqn:Hw; [discriminate|].
  intros [= <-]. split.
  - destruct (ParseSubsCli.writeJson result), (ParseSubsCli.writeTsv result);
      auto; discriminate.
  - eapply parseLoop_optionsFrom; [|exact E].
    unfold Laws.optionsFrom. cbn. repeat split; discriminate.
Qed.

(** X21. On switches alone, neither their order nor their repetition
    matters: the options are rejected when both switches occur, and else
    disable the output whose switch occurs. *)
Theorem parseOptions_switches
    (node : ParseSubsCli.Node) (tokens : list jsstring) :
  Forall (fun token => token = lit "--no-json" \/ token = lit "--no-tsv")
    tokens ->
  ParseSubsCli.parseOptions node tokens
  = if bool_decide (lit "--no-json" ∈ tokens)
       && bool_decide (lit "--no-tsv" ∈ tokens)
    then Enrich.Throw
           (lit "At least one output (JSON or TSV) must be enabled.")
    else Enrich.Ok
           {| ParseSubsCli.jsonPath := None; ParseSubsCli.tsvPath := None;
              ParseSubsCli.writeJson :=
                negb (bool_decide (lit "--no-json" ∈ tokens));
              ParseSubsCli.writeTsv :=
                negb (bool_decide (lit "--no-tsv" ∈ tokens)) |}.
Proof.
  intros Hall. unfold ParseSubsCli.parseOptions.
  rewrite (parseLoop_switches node tokens Hall) by lia.
  cbn [ParseSubsCli.jsonPath ParseSubsCli.tsvPath ParseSubsCli.writeJson
       ParseSubsCli.writeTsv drop andb].
  now rewrite !negb_involutive.
Qed.


Lemma parseOptions_accepted_witness :
  let opts :=
    {| ParseSubsCli.jsonPath := Some (lit "/work/out.json");
       ParseSubsCli.tsvPath := None;
       ParseSubsCli.writeJson := true; ParseSubsCli.writeTsv := false |} in
  (ParseSubsCli.writeJson opts = true \/ ParseSubsCli.writeTsv opts = true)
  /\ Laws.optionsFrom MoreSamples.machine
       [lit "--json"; lit "out.json"; lit "--no-tsv"] opts.
Proof.
  apply (parseOptions_accepted MoreSamples.machine
           [lit "--json"; lit "out.json"; lit "--no-tsv"]).
  vm_compute. reflexivity.
Defined.

Lemma parseOptions_switches_witness :
  ParseSubsCli.parseOptions MoreSamples.machine
    [lit "--no-tsv"; lit "--no-tsv"]
  = Enrich.Ok
      {| ParseSubsCli.jsonPath := None; ParseSubsCli.tsvPath := None;
         ParseSubsCli.writeJson := true; ParseSubsCli.writeTsv := false |}.
Proof.
  refine (eq_trans (parseOptions_switches MoreSamples.machine
                      [lit "--no-tsv"; lit "--no-tsv"] _) _).
  - apply (bool_decide_unpack _). vm_compute. exact I.
  - vm_compute. reflexivity.
Defined.

(** ** The run of [parseSubs] *)

Section ParseSubsRun.

Import ParseSubs ParseSubsCli.
Import Enrich (Ok, Throw).

Variable node : Node.


(** The directories [defaultOutPath] has made: those made before, and at
    most the directory [cards] beside a directory [raw], when it does not
    exist yet. *)
Lemma defaultOutPath_made before input suffix :
  let cardsDir :=
    resolveIn node (dirname node (dirname node input)) (lit "cards") in
  (defaultOutPath node before input suffix).2 = before
  \/ ((defaultOutPath node before input suffix).2 = before ++ [cardsDir]
      /\ (cardsDir ∉ before)
      /\ existsSync node cardsDir = false
      /\ map lowerLatin (basename node (dirname node input)) = lit "raw").
Proof.
  unfold defaultOutPath. cbv zeta.
  case_bool_decide as Hraw; [|now left].
  destruct (existsSync node _) eqn:He; [now left|].
  case_bool_decide as Hin; [now left|].
  right. cbn. auto.
Qed.

End ParseSubsRun.


(** X23. A run of [parseSubs] makes at most one directory: the directory
    [cards] beside the directory [raw] that holds the input, when it does
    not exist yet and an output goes to its default path. *)
Theorem main_makes_cards_directory
    (node : ParseSubsCli.Node) (args : list jsstring) :
  let out := ParseSubsCli.main node args in
  ParseSubsCli.made out = []
  \/ exists first tokens options,
       args = first :: tokens
       /\ ParseSubsCli.parseOptions node tokens = Enrich.Ok options
       /\ (ParseSubsCli.writeJson options = true
              /\ ParseSubsCli.jsonPath options = None
           \/ ParseSubsCli.writeTsv options = true
              /\ ParseSubsCli.tsvPath options = None)
       /\ let input := ParseSubsCli.resolve node first in
          let cardsDir :=
            ParseSubsCli.resolveIn node
              (ParseSubsCli.dirname node (ParseSubsCli.dirname node input))
              (lit "cards") in
          ParseSubsCli.made out = [cardsDir]
          /\ ParseSubsCli.existsSync node cardsDir = false
          /\ map ParseSubsCli.lowerLatin
               (ParseSubsCli.basename node (ParseSubsCli.dirname node input))
             = lit "raw".
Proof.
  cbv zeta. unfold ParseSubsCli.main.
  destruct args as [|first tokens]; [now left|].
  destruct (ParseSubsCli.helpRequested (first :: tokens)); [now left|].
  destruct (ParseSubsCli.parseOptions node tokens) as [options|message] eqn:Ho;
    [|now left].
  destruct (ParseSubsCli.readFileSync node _) as [content|trace];
    [|now left].
  destruct (ParseSubs.parseSrt content) as [|entry entries]; [now left|].
  set (input := ParseSubsCli.resolve node first).
  destruct (ParseSubsCli.writeJson options) eqn:Hj,
           (ParseSubsCli.writeTsv options) eqn:Ht;
    destruct (ParseSubsCli.jsonPath options) as [jp|] eqn:Hjp,
             (ParseSubsCli.tsvPath options) as [tp|] eqn:Htp;
    try (now left).
  all: try match goal with
           | |- context [ParseSubsCli.defaultOutPath _ [] _
                           (lit ".cards.json")] =>
               pose proof (defaultOutPath_made node [] input
                             (lit ".cards.json")) as Hjson;
               cbv zeta in Hjson;
               destruct (ParseSubsCli.defaultOutPath node [] input
                           (lit ".cards.json")) as [path1 made1];
               cbn [snd] in Hjson;
               destruct Hjson as [->|(-> & _ & Hex & Hraw)]
           end.
  all: try match goal with
           | |- context [ParseSubsCli.defaultOutPath _ ?before _
                           (lit ".cards.tsv")] =>
               pose proof (defaultOutPath_made node before input
                             (lit ".cards.tsv")) as Htsv;
               cbv zeta in Htsv;
               destruct (ParseSubsCli.defaultOutPath node before input
                           (lit ".cards.tsv")) as [path2 made2];
               cbn [snd] in Htsv;
               destruct Htsv as [->|(-> & Hnot & Hex' & Hraw')]
           end.
  all: cbn [ParseSubsCli.made app]; try (now left).
  all: try (exfalso; apply Hnot; apply elem_of_cons; now left).
  all: right; exists first, tokens, options;
    (split; [reflexivity|]); (split; [exact Ho|]);
    (split; [tauto|]); auto.
Qed.

(** ** The command line of [enrichCards] *)

Section EnrichOptions.

Import Enrich EnrichCli Laws.

Variable node : ParseSubsCli.Node.
Variable scriptDir : jsstring.

(** A property of the options that every case of the [switch] keeps, given
    that its flag is among the arguments, holds when the loop ends. *)
Lemma parseLoop_invariant (P : CliOptions -> Prop) cliArgs :
  (forall o v, lit "--dict" ∈ cliArgs -> P o -> P (setDictPath v o)) ->
  (forall o v, lit "--translations" ∈ cliArgs -> P o ->
               P (setTranslationPath (Some v) o)) ->
  (forall o v, lit "--translations-out" ∈ cliArgs -> P o ->
               P (setTranslationSavePath (Some v) o)) ->
  (forall o v, lit "--out" ∈ cliArgs -> P o -> P (setOutputJsonPath v o)) ->
  (forall o v, lit "--tsv" ∈ cliArgs -> P o -> P (setTsvPath v o)) ->
  (forall o, lit "--no-tsv" ∈ cliArgs -> P o -> P (setWriteTsv false o)) ->
  (forall o, lit "--auto-translate" ∈ cliArgs
             \/ lit "--deepl-translate" ∈ cliArgs ->
             P o -> P (setAutoTranslate true o)) ->
  (forall o, lit "--auto-translate-keep" ∈ cliArgs -> P o ->
             P (setAutoTranslateReplace false o)) ->
  (forall o v, lit "--deepl-formality" ∈ cliArgs -> P o ->
               P (setDeeplFormality v o)) ->
  (forall o v, lit "--deepl-glossary" ∈ cliArgs -> P o ->
               P (setDeeplGlossaryId (Some v) o)) ->
  forall turns i opts result,
    P opts -> parseLoop node turns cliArgs i opts = Ok result -> P result.
Proof.
  intros H1 H2 H3 H4 H5 H6 H7 H8 H9 H10.
  induction turns as [|turns IH]; intros i opts result HP.
  - now intros [= <-].
  - cbn [parseLoop]. destruct (cliArgs !! i) as [token|] eqn:Ei;
      [|now intros [= <-]].
    apply list_elem_of_lookup_2 in Ei. cbv zeta. unfold withNext, ensureNext.
    repeat case_bool_decide; subst; cbn [orb];
      try (destruct (cliArgs !! S i) as [value|]; [|discriminate]);
      try discriminate; apply IH; auto.
Qed.

(** The bound on the turns of the loop never cuts it short. *)
Lemma cliLoop_turns cliArgs : forall turns turns' i opts,
  (length cliArgs <= i + turns)%nat ->
  (length cliArgs <= i + turns')%nat ->
  parseLoop node turns cliArgs i opts = parseLoop node turns' cliArgs i opts.
Proof.
  induction turns as [|turns IH]; intros [|turns'] i opts Hlen Hlen';
    cbn [parseLoop]; try reflexivity;
    try (rewrite lookup_ge_None_2 by lia; reflexivity).
  destruct (cliArgs !! i) as [token|]; [|reflexivity].
  cbv zeta. unfold withNext.
  repeat case_bool_decide; cbn [orb];
    try destruct (ensureNext cliArgs (S i) _);
    try reflexivity; apply IH; lia.
Qed.

Lemma parseLoop_readFrom first cliArgs turns i opts result :
  readFrom node scriptDir first cliArgs opts ->
  parseLoop node turns cliArgs i opts = Ok result ->
  readFrom node scriptDir first cliArgs result.
Proof.
  apply parseLoop_invariant; clear; unfold readFrom, settingsFrom;
    intros o; intros;
    match goal with
    | HP : _ /\ _ |- _ =>
        destruct HP as ((A1 & A2 & A3 & A4 & A5 & A6) & B1 & B2 & B3 & B4 & B5)
    end;
    unfold setDictPath, setTranslationPath, setTranslationSavePath,
      setOutputJsonPath, setTsvPath, setWriteTsv, setAutoTranslate,
      setAutoTranslateReplace, setDeeplFormality, setDeeplGlossaryId;
    cbn [inputPath dictPath translationPath translationSavePath
         outputJsonPath tsvPath writeTsv autoTranslate autoTranslateReplace
         deeplFormality deeplGlossaryId];
    (split; [split; [|split; [|split; [|split; [|split]]]]
            |split; [|split; [|split; [|split]]]]);
    first [assumption | intros _; assumption].
Qed.

Lemma readFrom_start first cliArgs :
  readFrom node scriptDir first cliArgs
    {| inputPath := ParseSubsCli.resolve node first;
       dictPath := resolveDefaultDict node scriptDir;
       translationPath := None;
       translationSavePath := None;
       outputJsonPath := [];
       tsvPath := [];
       writeTsv := true;
       autoTranslate := false;
       autoTranslateReplace := true;
       deeplFormality := lit "default";
       deeplGlossaryId := None |}.
Proof.
  unfold readFrom, settingsFrom.
  cbn [inputPath dictPath translationPath translationSavePath
       outputJsonPath tsvPath writeTsv autoTranslate autoTranslateReplace
       deeplFormality deeplGlossaryId].
  (split; [split; [|split; [|split; [|split; [|split]]]]
          |split; [|split; [|split; [|split]]]]);
    first [reflexivity | intros H; exfalso; congruence].
Qed.

(** The fields [settle] leaves as they are. *)
Lemma settle_kept opts :
  inputPath (settle node opts) = inputPath opts
  /\ dictPath (settle node opts) = dictPath opts
  /\ translationPath (settle node opts) = translationPath opts
  /\ writeTsv (settle node opts) = writeTsv opts
  /\ autoTranslate (settle node opts) = autoTranslate opts
  /\ autoTranslateReplace (settle node opts) = autoTranslateReplace opts
  /\ deeplFormality (settle node opts) = deeplFormality opts
  /\ deeplGlossaryId (settle node opts) = deeplGlossaryId opts
  /\ outputJsonPath (settle node opts)
     = ParseSubsCli.resolve node (orElse (outputJsonPath opts) (inputPath opts))
  /\ translationSavePath (settle node opts)
     = if negb (truthy (translationSavePath opts))
          && truthy (translationPath opts)
       then translationPath opts else translationSavePath opts.
Proof.
  unfold settle. cbv zeta.
  unfold setTranslationSavePath, setTsvPath, setOutputJsonPath.
  cbn [inputPath dictPath translationPath translationSavePath
       outputJsonPath tsvPath writeTsv autoTranslate autoTranslateReplace
       deeplFormality deeplGlossaryId].
  destruct (writeTsv opts);
    cbn [inputPath dictPath translationPath translationSavePath
         outputJsonPath tsvPath writeTsv autoTranslate autoTranslateReplace
         deeplFormality deeplGlossaryId];
    destruct (negb (truthy (translationSavePath opts))
              && truthy (translationPath opts));
    cbn [inputPath dictPath translationPath translationSavePath
         outputJsonPath tsvPath writeTsv autoTranslate autoTranslateReplace
         deeplFormality deeplGlossaryId];
    repeat split.
Qed.

End EnrichOptions.

(** X24. Options the parser of [enrichCards] accepts: the input is the
    first argument, resolved; a setting differs from its default only if its
    flag is among the arguments; without [--out] the enriched cards go to
    the input file; without [--translations] and [--translations-out] no
    cache is to be saved; and hints read from a file are saved somewhere. *)
Theorem parseOptions_settled
    (node : ParseSubsCli.Node) (scriptDir : jsstring)
    (cliArgs : list jsstring) (opts : Enrich.CliOptions) :
  EnrichCli.parseOptions node scriptDir cliArgs = Enrich.Ok opts ->
  exists first rest,
    cliArgs = first :: rest
    /\ Enrich.inputPath opts = ParseSubsCli.resolve node first
    /\ Laws.settingsFrom cliArgs opts
    /\ (lit "--dict" ∉ cliArgs ->
        Enrich.dictPath opts = EnrichCli.resolveDefaultDict node scriptDir)
    /\ (lit "--out" ∉ cliArgs ->
        Enrich.outputJsonPath opts
        = ParseSubsCli.resolve node (ParseSubsCli.resolve node first))
    /\ (lit "--translations" ∉ cliArgs ->
        lit "--translations-out" ∉ cliArgs ->
        Enrich.translationSavePath opts = None)
    /\ (Enrich.truthy (Enrich.translationPath opts) = true ->
        Enrich.truthy (Enrich.translationSavePath opts) = true).
Proof.
  unfold EnrichCli.parseOptions.
  destruct cliArgs as [|first rest]; [discriminate|].
  destruct (EnrichCli.parseLoop node _ _ 1 _) as [result|e] eqn:E;
    [|discriminate].
  intros [= <-]. exists first, rest. split; [reflexivity|].
  apply (parseLoop_readFrom node scriptDir first) in E;
    [|apply readFrom_start].
  destruct E as ((A1 & A2 & A3 & A4 & A5 & A6) & B1 & B2 & B3 & B4 & B5).
  destruct (settle_kept node result)
    as (K1 & K2 & K3 & K4 & K5 & K6 & K7 & K8 & K9 & K10).
  split; [congruence|].
  split.
  { unfold Laws.settingsFrom. rewrite K3, K4, K5, K6, K7, K8.
    exact (conj A1 (conj A2 (conj A3 (conj A4 (conj A5 A6))))). }
  split.
  { intros Hno. rewrite K2.
    destruct (decide (Enrich.dictPath result
                      = EnrichCli.resolveDefaultDict node scriptDir));
      [assumption|]. exfalso. auto. }
  split.
  { intros Hno. rewrite K9, B1.
    destruct (Enrich.outputJsonPath result) as [|c s] eqn:Eout;
      [reflexivity|]. exfalso. apply Hno, B3. discriminate. }
  split.
  { intros Hno1 Hno2. rewrite K10.
    destruct (Enrich.translationSavePath result) as [s|] eqn:Es;
      [exfalso; apply Hno2, B5; discriminate|].
    destruct (Enrich.translationPath result) as [p|] eqn:Ep;
      [exfalso; apply Hno1, A4; discriminate|].
    reflexivity. }
  rewrite K3, K10. intros Hp. rewrite Hp, andb_true_r.
  destruct (Enrich.truthy (Enrich.translationSavePath result)) eqn:Hs;
    cbn [negb]; assumption.
Qed.

Lemma parseOptions_settled_witness :
  exists first rest,
    [lit "cards.json"; lit "--translations"; lit "hints.json"; lit "--no-tsv"]
    = first :: rest
    /\ Enrich.inputPath
         {| Enrich.inputPath := lit "/work/cards.json";
            Enrich.dictPath := lit "/work/scripts/../data/japanese-mini-dict.json";
            Enrich.translationPath := Some (lit "/work/hints.json");
            Enrich.translationSavePath := Some (lit "/work/hints.json");
            Enrich.outputJsonPath := lit "/work/cards.json";
            Enrich.tsvPath := lit "/work/cards.tsv";
            Enrich.writeTsv := false; Enrich.autoTranslate := false;
            Enrich.autoTranslateReplace := true;
            Enrich.deeplFormality := lit "default";
            Enrich.deeplGlossaryId := None |}
       = ParseSubsCli.resolve MoreSamples.machine first.
Proof.
  destruct (parseOptions_settled MoreSamples.machine (lit "/work/scripts")
              [lit "cards.json"; lit "--translations"; lit "hints.json";
               lit "--no-tsv"]
              {| Enrich.inputPath := lit "/work/cards.json";
                 Enrich.dictPath :=
                   lit "/work/scripts/../data/japanese-mini-dict.json";
                 Enrich.translationPath := Some (lit "/work/hints.json");
                 Enrich.translationSavePath := Some (lit "/work/hints.json");
                 Enrich.outputJsonPath := lit "/work/cards.json";
                 Enrich.tsvPath := lit "/work/cards.tsv";
                 Enrich.writeTsv := false; Enrich.autoTranslate := false;
                 Enrich.autoTranslateReplace := true;
                 Enrich.deeplFormality := lit "default";
                 Enrich.deeplGlossaryId := None |})
    as (first & rest & Hargs & Hinput & _).
  - vm_compute. reflexivity.
  - exists first, rest. split; assumption.
Defined.

(** ** From the command line to the files *)

Section EnrichRun.

Import Enrich.


End EnrichRun.



(** ** The episode identifier of [scaffoldEpisode] *)

Section EpisodeId.

Import Scaffold.

Lemma forallb_all (f : N -> bool) text :
  forallb f text = true <-> Forall (fun c => f c = true) text.
Proof.
  induction text as [|c text IH]; [split; [constructor|reflexivity]|].
  cbn [forallb]. rewrite andb_true_iff, IH. split.
  - intros [Hc Hrest]. now constructor.
  - intros H. apply Forall_cons in H. exact H.
Qed.

Lemma padStart2_digits text :
  Forall (fun c => isDigit c = true) text ->
  Forall (fun c => isDigit c = true) (padStart2 text)
  /\ digitsValue (padStart2 text) = digitsValue text.
Proof.
  intros Hall. destruct text as [|c [|d rest]]; cbn [padStart2].
  - split; [repeat constructor|reflexivity].
  - split; [constructor; [reflexivity|exact Hall]|].
    unfold digitsValue. cbn [fold_left]. reflexivity.
  - split; [exact Hall|reflexivity].
Qed.

Lemma lowerLatin_kept c :
  isAlphanumeric c = true ->
  (isDigit (ParseSubsCli.lowerLatin c) = true
   \/ (97 <= ParseSubsCli.lowerLatin c <= 122)).
Proof.
  unfold isAlphanumeric, isDigit, ParseSubsCli.lowerLatin. intros H.
  destruct (N.leb_spec 65 c), (N.leb_spec c 90); cbn [andb];
    destruct (N.leb_spec 48 c), (N.leb_spec c 57); cbn [andb orb] in *;
    destruct (N.leb_spec 97 c), (N.leb_spec c 122); cbn [andb orb] in *;
    try discriminate;
    repeat match goal with
           | |- context [N.leb ?a ?b] => destruct (N.leb_spec a b)
           end; cbn [andb]; auto; lia.
Qed.

End EpisodeId.

(** X27. The episode identifier holds nothing but digits and the letters a
    to z, whatever the argument; an argument made of digits keeps its value
    and gets at least two digits. *)
Theorem formatEpisodeId_shape (value : option jsstring) :
  Forall (fun c => isDigit c = true \/ (97 <= c <= 122))
    (Scaffold.formatEpisodeId value)
  /\ (forall text,
        value = Some text -> text <> [] ->
        Forall (fun c => isDigit c = true) text ->
        digitsValue (Scaffold.formatEpisodeId value) = digitsValue text
        /\ (2 <= length (Scaffold.formatEpisodeId value))%nat
        /\ (length text <= length (Scaffold.formatEpisodeId value))%nat).
Proof.
  split.
  - unfold Scaffold.formatEpisodeId.
    destruct value as [[|c text]|];
      try (repeat constructor; left; reflexivity).
    destruct (forallb isDigit (c :: text)) eqn:Hdigits.
    + apply forallb_all in Hdigits.
      destruct (padStart2_digits (c :: text) Hdigits) as [Hall _].
      eapply Forall_impl; [exact Hall|]. cbv beta. auto.
    + apply Forall_map. apply Forall_forall. intros d Hd.
      apply list_elem_of_In, filter_In in Hd as [_ Hd].
      now apply lowerLatin_kept.
  - intros text -> Hne Hall. unfold Scaffold.formatEpisodeId.
    destruct text as [|c text]; [contradiction|].
    rewrite (proj2 (forallb_all isDigit (c :: text)) Hall).
    destruct (padStart2_digits (c :: text) Hall) as [_ Hvalue].
    split; [exact Hvalue|].
    destruct text as [|d rest]; cbn [Scaffold.padStart2 length]; lia.
Qed.

Lemma formatEpisodeId_shape_witness :
  digitsValue (Scaffold.formatEpisodeId (Some (lit "7"))) = 7%Z
  /\ (2 <= length (Scaffold.formatEpisodeId (Some (lit "7"))))%nat.
Proof.
  destruct (proj2 (formatEpisodeId_shape (Some (lit "7"))) (lit "7") eq_refl)
    as (Hvalue & Hlen & _).
  - discriminate.
  - repeat constructor.
  - split; [rewrite Hvalue; reflexivity|exact Hlen].
Defined.

(** ** More worked scenarios *)

(** Numbers as [String] prints them: the digits below 2^53, the shortest
    decimal of the double from there on, the exponent form from 10^21 on;
    and numbers as [parseInt] reads them. *)
Example scenario_numbers :
  map (fun z => stringOfNumber (Int z))
    [5; -5; 2 ^ 53 + 1; 2 ^ 64; 10 ^ 21; 2 ^ 70; 10 ^ 23; - 10 ^ 400]%Z
  = [lit "5"; lit "-5"; lit "9007199254740992"; lit "18446744073709552000";
     lit "1e+21"; lit "1.1805916207174113e+21"; lit "1e+23";
     lit "-Infinity"]
  /\ parseInt (lit "9007199254740993") = Int 9007199254740992
  /\ parseInt (lit " -12abc") = Int (-12)
  /\ parseInt (lit "abc") = NaN
  /\ parseInt (repeat 57 320) = Infinity false.
Proof. repeat split; vm_compute; reflexivity. Qed.

(** A line of 320 digits is no caption number: [Number.isFinite] fails on
    the infinity read from it, and the line is kept as the text. *)
Example scenario_endless_number :
  map (fun e => (ParseSubs.index e, ParseSubs.rawId e, ParseSubs.text e))
    (ParseSubs.parseSrt (repeat 57 320))
  = [(1%Z, 1%Z, repeat 57 320)].
Proof. vm_compute. reflexivity. Qed.

(** [parseSubs ep1/raw/ep1.ja.srt] on a machine where the directory [cards]
    does not exist yet: both outputs go to it, and it is made once. *)
Example scenario_parse_run :
  let out :=
    ParseSubsCli.main MoreSamples.machine [lit "ep1/raw/ep1.ja.srt"] in
  ParseSubsCli.exitCode out = 0%Z
  /\ ParseSubsCli.logged out
     = [lit "Parsed 1 subtitle blocks into 1 card entries.";
        lit "JSON output written to /work/ep1/cards/ep1.cards.json";
        lit "TSV output written to /work/ep1/cards/ep1.cards.tsv"]
  /\ ParseSubsCli.made out = [lit "/work/ep1/cards"]
  /\ map fst (ParseSubsCli.written out)
     = [lit "/work/ep1/cards/ep1.cards.json";
        lit "/work/ep1/cards/ep1.cards.tsv"].
Proof. vm_compute. repeat split. Qed.

(** A part of speech that names something every object inherits is
    translated into the text of what is inherited. *)
Example scenario_inherited_label :
  Enrich.translatePosPart (lit "valueOf")
  = Some (lit "function valueOf() { [native code] }")
  /\ Enrich.translatePosPart (lit "名詞／constructor")
     = Some (lit "noun/function Object() { [native code] }").
Proof. split; vm_compute; reflexivity. Qed.
